(** * vue-router-next: matcher registry, in-memory history and navigation
      controller, embedded shallowly and checked against the design notes.

    The development follows the TypeScript sources:
    - [history/memory.ts]   -> [Module MemoryHistory]
    - [matcher/index.ts]    -> [Module Matcher]
    - [router.ts]           -> [Module Router]

    Part I holds the embedding (definitions only), Part II the theorems. *)

From Stdlib Require Import ZArith Ascii String Lia.
From stdpp Require Import base option list sorting gmap strings.

Local Open Scope Z_scope.
Set Warnings "-register-all".

(* ===================================================================== *)
(** * Part I -- the embedding                                             *)
(* ===================================================================== *)

(** ** JavaScript array primitives used by the sources

    Arrays are lists; indices are JavaScript numbers, of which only the
    integers occur here, hence [Z]. *)
Module JsArray.

(** [arr[i]]: [undefined] (here [None]) out of range. *)
Definition get {A} (arr : list A) (i : Z) : option A :=
  if i <? 0 then None else arr !! Z.to_nat i.

(** Start index normalisation of [Array.prototype.splice]: a negative
    start counts from the end, and the result is clamped to
    [0 .. length]. *)
Definition splice_start {A} (arr : list A) (start : Z) : nat :=
  let len := Z.of_nat (length arr) in
  Z.to_nat (if start <? 0 then Z.max (len + start) 0 else Z.min start len).

(** [arr.splice(start)]: drop everything from [start] on. *)
Definition splice_from {A} (arr : list A) (start : Z) : list A :=
  take (splice_start arr start) arr.

(** [arr.splice(start, 1)]: drop one element at [start] (none when the
    normalised start is the length). *)
Definition splice_one {A} (arr : list A) (start : Z) : list A :=
  let k := splice_start arr start in
  take k arr ++ drop (S k) arr.

(** [arr.splice(i, 0, x)] for [0 <= i <= length]. *)
Definition splice_insert {A} (arr : list A) (i : nat) (x : A) : list A :=
  take i arr ++ x :: drop i arr.

(** [arr.push(x)]. *)
Definition push {A} (arr : list A) (x : A) : list A := arr ++ [x].

End JsArray.

(* --------------------------------------------------------------------- *)
(** ** history/memory.ts : [createMemoryHistory]                          *)
(* --------------------------------------------------------------------- *)
Module MemoryHistory.

Definition HistoryLocation := string.

(** [START] of history/common.ts. *)
Definition START : HistoryLocation := ""%string.

Inductive NavigationDirection := back | forward | unknown.
Inductive NavigationType := pop | push_type.

Record NavigationInformation := mkInfo {
  info_type : NavigationType;
  direction : NavigationDirection;
  delta : Z
}.

(** One call of a listener: [callback(to, from, info)].  The entries are
    what [queue[position]] gave, so they are optional. *)
Record Notification := mkNotification {
  n_listener : nat;
  n_to : option HistoryLocation;
  n_from : option HistoryLocation;
  n_info : NavigationInformation
}.

(** The closure variables of [createMemoryHistory]. *)
Record state := mkState {
  listeners : list nat;
  queue : list HistoryLocation;
  position : Z
}.

Definition init : state :=
  {| listeners := []; queue := [START]; position := 0 |}.

(** The [location] getter installed by [Object.defineProperty]. *)
Definition location (s : state) : option HistoryLocation :=
  JsArray.get (queue s) (position s).

Definition setLocation (loc : HistoryLocation) (s : state) : state :=
  let position' := position s + 1 in
  if position' =? Z.of_nat (length (queue s)) then
    (* we are at the end, we can simply append a new entry *)
    {| listeners := listeners s;
       queue := JsArray.push (queue s) loc;
       position := position' |}
  else
    (* we are in the middle, we remove everything from here in the queue *)
    {| listeners := listeners s;
       queue := JsArray.push (JsArray.splice_from (queue s) position') loc;
       position := position' |}.

(** [replace(to)]: [queue.splice(position--, 1)] then [setLocation(to)]. *)
Definition replace (to : HistoryLocation) (s : state) : state :=
  setLocation to
    {| listeners := listeners s;
       queue := JsArray.splice_one (queue s) (position s);
       position := position s - 1 |}.

Definition push (to : HistoryLocation) (s : state) : state :=
  setLocation to s.

Definition triggerListeners (s : state) (to from : option HistoryLocation)
    (dir : NavigationDirection) (d : Z) : list Notification :=
  let info := {| info_type := pop; direction := dir; delta := d |} in
  map (fun cb => mkNotification cb to from info) (listeners s).

(** [go(delta, shouldTrigger = true)]; the result carries the listener
    calls it made. *)
Definition go (d : Z) (shouldTrigger : bool) (s : state)
    : state * list Notification :=
  let from := location s in
  let dir := if d <? 0 then back else forward in
  let s' :=
    {| listeners := listeners s;
       queue := queue s;
       position :=
         Z.max 0 (Z.min (position s + d) (Z.of_nat (length (queue s)) - 1)) |} in
  if shouldTrigger
  then (s', triggerListeners s' (location s') from dir d)
  else (s', []).

Definition listen (cb : nat) (s : state) : state :=
  {| listeners := JsArray.push (listeners s) cb;
     queue := queue s; position := position s |}.

Definition destroy (s : state) : state :=
  {| listeners := []; queue := queue s; position := position s |}.

(** The calls a client can make on the collaborator. *)
Inductive call :=
| Push (to : HistoryLocation)
| Replace (to : HistoryLocation)
| Go (d : Z) (shouldTrigger : bool)
| Listen (cb : nat)
| Destroy.

Definition exec (s : state) (c : call) : state :=
  match c with
  | Push to => push to s
  | Replace to => replace to s
  | Go d t => fst (go d t s)
  | Listen cb => listen cb s
  | Destroy => destroy s
  end.

Definition run (cs : list call) : state := foldl exec init cs.

End MemoryHistory.

(* --------------------------------------------------------------------- *)
(** ** matcher/index.ts : [createRouterMatcher]                           *)
(* --------------------------------------------------------------------- *)
Module Matcher.

Definition RouteRecordName := string.

(** A name is used under JavaScript truthiness ([record.name && ...]):
    the empty string counts as no name. *)
Definition truthy_name (n : option RouteRecordName) : option RouteRecordName :=
  match n with
  | Some s => if String.eqb s "" then None else Some s
  | None => None
  end.

(** A value found under a key of a params object: a string, an array
    of strings, or what the object inherits under that key from
    [Object.prototype] (a function there), which is neither. *)
Inductive RouteParamValue :=
| PStr (s : string)
| PArr (l : list string)
| PInherited (key : string).

Definition PathParams := gmap string RouteParamValue.
Definition Meta := gmap string string.

(** [Object.assign(a, b)] on string-keyed objects: [b] overrides. *)
Definition assign {V} (a b : gmap string V) : gmap string V := b ∪ a.

Record PathParserOptions := mkOptions {
  strict : bool;
  end_ : bool;
  sensitive : bool
}.

(** The option fields a record or the router configuration may carry. *)
Record PartialOptions := mkPartial {
  p_strict : option bool;
  p_end : option bool;
  p_sensitive : option bool
}.

Definition mergeOptions (defaults : PathParserOptions) (partialOptions : PartialOptions)
    : PathParserOptions :=
  {| strict := default (strict defaults) (p_strict partialOptions);
     end_ := default (end_ defaults) (p_end partialOptions);
     sensitive := default (sensitive defaults) (p_sensitive partialOptions) |}.

Record ParamKey := mkKey {
  k_name : string;
  optional : bool;
  repeatable : bool
}.

(** What matcher/pathParserRanker.ts compiles a path into.  [stringify]
    throws on a missing or invalid parameter (left). *)
Record PathParser := mkParser {
  re_test : string -> bool;
  score : list Z;
  keys : list ParamKey;
  parse : string -> option PathParams;
  stringify : PathParams -> string + string
}.

(** [RouteRecordRaw], with the fields the matcher reads or carries. *)
Inductive RouteRecordRaw := mkRaw {
  raw_path : string;
  raw_name : option RouteRecordName;
  raw_alias : option (string + list string);
  raw_redirect : option string;
  raw_meta : option Meta;
  raw_options : PartialOptions;
  raw_children : option (list RouteRecordRaw)
}.

(** [RouteRecordNormalized].  [rid] stands for the identity of the
    object; [aliasOf] holds the identity of the record it points to. *)
Record RouteRecordNormalized := mkRecord {
  rid : nat;
  path : string;
  redirect : option string;
  name : option RouteRecordName;
  meta : Meta;
  aliasOf : option nat;
  children : list RouteRecordRaw
}.

(** [RouteRecordMatcher]: the parser, the record and the parent link
    never change once the matcher exists and travel with the reference;
    [mid] is the identity of the object.  The two lists that do change,
    [children] and [alias], live in the registry state, keyed by [mid]. *)
Inductive RouteRecordMatcher := mkMatcher {
  mid : nat;
  parser : PathParser;
  record : RouteRecordNormalized;
  parent : option RouteRecordMatcher
}.

Inductive MatcherError :=
| MATCHER_NOT_FOUND
| STRINGIFY_ERROR (msg : string).

(** The missing collaborators of matcher/index.ts. *)
Record Env := mkEnv {
  (** the path compiler of pathParserRanker.ts ([tokensToParser] after
      [tokenizePath]) *)
  tokensToParser : string -> PathParserOptions -> PathParser;
  (** negative when the first parser is to be ranked first *)
  comparePathParserScore : PathParser -> PathParser -> Z;
  (** the options handed to [createRouterMatcher] *)
  userOptions : PartialOptions
}.

Definition globalOptions (E : Env) : PathParserOptions :=
  mergeOptions {| strict := false; end_ := true; sensitive := false |}
               (userOptions E).

(** The closure variables of [createRouterMatcher] and the part of the
    heap they reach. *)
Record state := mkState {
  matchers : list RouteRecordMatcher;
  matcherMap : gmap RouteRecordName RouteRecordMatcher;
  (** [matcher.children] and [matcher.alias], by matcher identity *)
  children_of : gmap nat (list RouteRecordMatcher);
  alias_of : gmap nat (list RouteRecordMatcher);
  (** next fresh object identity *)
  next_id : nat;
  (** history variable, read by no operation: the identities handed to
      [insertMatcher], in call order *)
  inserted : list nat
}.

Definition empty : state :=
  {| matchers := []; matcherMap := ∅; children_of := ∅; alias_of := ∅;
     next_id := 0%nat; inserted := [] |}.

Definition set_matchers (l : list RouteRecordMatcher) (st : state) : state :=
  {| matchers := l; matcherMap := matcherMap st;
     children_of := children_of st; alias_of := alias_of st;
     next_id := next_id st; inserted := inserted st |}.

Definition set_matcherMap (m : gmap RouteRecordName RouteRecordMatcher)
    (st : state) : state :=
  {| matchers := matchers st; matcherMap := m;
     children_of := children_of st; alias_of := alias_of st;
     next_id := next_id st; inserted := inserted st |}.

Definition get_children (st : state) (m : RouteRecordMatcher) :=
  default [] (children_of st !! mid m).

Definition get_alias (st : state) (m : RouteRecordMatcher) :=
  default [] (alias_of st !! mid m).

(** [owner.children.push(m)] *)
Definition push_child (owner m : RouteRecordMatcher) (st : state) : state :=
  {| matchers := matchers st; matcherMap := matcherMap st;
     children_of :=
       <[mid owner := JsArray.push (get_children st owner) m]> (children_of st);
     alias_of := alias_of st;
     next_id := next_id st; inserted := inserted st |}.

(** [owner.alias.push(m)] *)
Definition push_alias (owner m : RouteRecordMatcher) (st : state) : state :=
  {| matchers := matchers st; matcherMap := matcherMap st;
     children_of := children_of st;
     alias_of :=
       <[mid owner := JsArray.push (get_alias st owner) m]> (alias_of st);
     next_id := next_id st; inserted := inserted st |}.

(** Allocation of a fresh object identity. *)
Definition fresh (st : state) : nat * state :=
  (next_id st,
   {| matchers := matchers st; matcherMap := matcherMap st;
      children_of := children_of st; alias_of := alias_of st;
      next_id := S (next_id st); inserted := inserted st |}).

Definition getRecordMatcher (st : state) (n : RouteRecordName) :=
  matcherMap st !! n.

Definition getRoutes (st : state) := matchers st.

(** [matchers.indexOf(m)]: strict equality of references. *)
Fixpoint indexOf (l : list RouteRecordMatcher) (m : RouteRecordMatcher)
    : option nat :=
  match l with
  | [] => None
  | x :: l' =>
      if Nat.eqb (mid x) (mid m) then Some 0%nat
      else option_map S (indexOf l' m)
  end.

(** Checks if a record or any of its parent is an alias. *)
Fixpoint isAliasRecord (m : RouteRecordMatcher) : bool :=
  match m with
  | mkMatcher _ _ r p =>
      match aliasOf r with
      | Some _ => true
      | None =>
          match p with
          | Some pm => isAliasRecord pm
          | None => false
          end
      end
  end.

Definition isAliasRecord_opt (m : option RouteRecordMatcher) : bool :=
  match m with Some x => isAliasRecord x | None => false end.

(** *** [removeRoute] *)

(** [matchers.splice(index, 1)] and [matcherMap.delete(name)] of the
    matcher branch. *)
Definition detach (index : nat) (m : RouteRecordMatcher) (st : state) : state :=
  let st1 := set_matchers (JsArray.splice_one (matchers st) (Z.of_nat index)) st in
  match truthy_name (name (record m)) with
  | Some n => set_matcherMap (delete n (matcherMap st1)) st1
  | None => st1
  end.

(** [list.forEach(f)] threading the registry state; [None] when [f]
    runs out of fuel. *)
Fixpoint forEach {A} (f : A -> state -> option state) (l : list A)
    (st : state) : option state :=
  match l with
  | [] => Some st
  | x :: l' =>
      match f x st with
      | Some st' => forEach f l' st'
      | None => None
      end
  end.

(** The matcher branch of [removeRoute].  The recursion of the source
    follows the ownership links; [fuel] bounds its depth. *)
Fixpoint removeMatcher_fuel (fuel : nat) (matcherRef : RouteRecordMatcher)
    (st : state) : option state :=
  match fuel with
  | O => None
  | S fuel' =>
      match indexOf (matchers st) matcherRef with
      | Some index =>
          let st1 := detach index matcherRef st in
          match forEach (removeMatcher_fuel fuel') (get_children st matcherRef) st1 with
          | Some st2 =>
              forEach (removeMatcher_fuel fuel') (get_alias st matcherRef) st2
          | None => None
          end
      | None => Some st
      end
  end.

(** Every nested call has first taken a matcher out of [matchers], so
    the depth never exceeds the length of [matchers]. *)
Definition enough_fuel (st : state) : nat := S (length (matchers st)).

Definition removeMatcher (matcherRef : RouteRecordMatcher) (st : state) : state :=
  default st (removeMatcher_fuel (enough_fuel st) matcherRef st).

(** The name branch of [removeRoute].
    [matchers.splice(matchers.indexOf(matcher), 1)] is given [-1] when
    the matcher is not in the sequence. *)
Definition removeName_fuel (fuel : nat) (n : RouteRecordName) (st : state)
    : option state :=
  match matcherMap st !! n with
  | Some matcher =>
      let st1 := set_matcherMap (delete n (matcherMap st)) st in
      let index :=
        match indexOf (matchers st1) matcher with
        | Some i => Z.of_nat i
        | None => -1
        end in
      let st2 := set_matchers (JsArray.splice_one (matchers st1) index) st1 in
      match forEach (removeMatcher_fuel fuel) (get_children st matcher) st2 with
      | Some st3 => forEach (removeMatcher_fuel fuel) (get_alias st matcher) st3
      | None => None
      end
  | None => Some st
  end.

Definition removeName (n : RouteRecordName) (st : state) : state :=
  default st (removeName_fuel (enough_fuel st) n st).

(** [removeRoute(matcherRef)], [isRouteName] separating the branches. *)
Definition removeRoute (matcherRef : RouteRecordName + RouteRecordMatcher)
    (st : state) : state :=
  match matcherRef with
  | inl n => removeName n st
  | inr m => removeMatcher m st
  end.

(** *** [insertMatcher] *)

Section WithEnv.
Context (E : Env).

(** The [while] loop: the first index whose matcher the new one must
    precede, the length when there is none. *)
Fixpoint insertion_index (matcher : RouteRecordMatcher)
    (l : list RouteRecordMatcher) : nat :=
  match l with
  | [] => 0%nat
  | x :: l' =>
      if 0 <=? comparePathParserScore E (parser matcher) (parser x)
      then S (insertion_index matcher l')
      else 0%nat
  end.

Definition insertMatcher (matcher : RouteRecordMatcher) (st : state) : state :=
  let i := insertion_index matcher (matchers st) in
  let ms := JsArray.splice_insert (matchers st) i matcher in
  (* only add the original record to the name map *)
  let mm :=
    match truthy_name (name (record matcher)) with
    | Some n =>
        if isAliasRecord matcher then matcherMap st
        else <[n := matcher]> (matcherMap st)
    | None => matcherMap st
    end in
  {| matchers := ms; matcherMap := mm;
     children_of := children_of st; alias_of := alias_of st;
     next_id := next_id st;
     inserted := inserted st ++ [mid matcher] |}.

(** *** [addRoute] *)

(** Normalizes a [RouteRecordRaw]; the copy is a new object. *)
Definition normalizeRouteRecord (record : RouteRecordRaw) (st : state)
    : RouteRecordNormalized * state :=
  let '(i, st') := fresh st in
  ({| rid := i;
      path := raw_path record;
      redirect := raw_redirect record;
      name := raw_name record;
      meta := default ∅ (raw_meta record);
      aliasOf := None;
      children := default [] (raw_children record) |}, st').

Definition set_aliasOf (a : option nat) (r : RouteRecordNormalized) :=
  {| rid := rid r; path := path r; redirect := redirect r; name := name r;
     meta := meta r; aliasOf := a; children := children r |}.

Definition set_path (p : string) (r : RouteRecordNormalized) :=
  {| rid := rid r; path := p; redirect := redirect r; name := name r;
     meta := meta r; aliasOf := aliasOf r; children := children r |}.

(** [assign({}, mainNormalizedRecord, { path: alias, aliasOf: ... })] *)
Definition alias_record (main : RouteRecordNormalized) (target : nat)
    (alias : string) (st : state) : RouteRecordNormalized * state :=
  let '(i, st') := fresh st in
  ({| rid := i; path := alias; redirect := redirect main; name := name main;
      meta := meta main; aliasOf := Some target;
      children := children main |}, st').

Fixpoint alias_records (main : RouteRecordNormalized) (target : nat)
    (aliases : list string) (st : state)
    : list RouteRecordNormalized * state :=
  match aliases with
  | [] => ([], st)
  | a :: rest =>
      let '(r, st1) := alias_record main target a st in
      let '(rs, st2) := alias_records main target rest st1 in
      (r :: rs, st2)
  end.

(** Modelled from the spec: [createRouteRecordMatcher] of
    matcher/pathMatcher.ts, which is not among the sources.  The
    matcher is a new object holding the compiled parser, the record
    and the exclusive parent reference, with empty [children] and
    [alias] lists; the parent owns it as a child. *)
Definition createRouteRecordMatcher (r : RouteRecordNormalized)
    (parent : option RouteRecordMatcher) (options : PathParserOptions)
    (st : state) : RouteRecordMatcher * state :=
  let '(i, st1) := fresh st in
  let matcher :=
    {| mid := i; parser := tokensToParser E (path r) options;
       record := r; parent := parent |} in
  (matcher,
   match parent with
   | Some p => push_child p matcher st1
   | None => st1
   end).

Definition first_char (s : string) : option Ascii.ascii := String.get 0 s.

Definition last_char (s : string) : option Ascii.ascii :=
  String.get (String.length s - 1) s.

Definition is_slash (c : option Ascii.ascii) : bool :=
  match c with
  | Some a => Ascii.eqb a "/"%char
  | None => false
  end.

(** [parent.record.path + (path && connectingSlash + path)] *)
Definition nested_path (parentPath path : string) : string :=
  let connectingSlash := if is_slash (last_char parentPath) then "" else "/" in
  (parentPath ++
     (if String.eqb path "" then "" else connectingSlash ++ path))%string.

(** The local variables [originalRecord] and [originalMatcher] that
    the [for] loop over [normalizedRecords] updates. *)
Record loop_vars := mkLoop {
  originalRecord : option RouteRecordMatcher;
  originalMatcher : option RouteRecordMatcher;
  loop_state : state
}.

(** [originalRecord && originalRecord.children[i]] *)
Definition original_child (original : option RouteRecordMatcher) (i : nat)
    (st : state) : option RouteRecordMatcher :=
  match original with
  | Some o => get_children st o !! i
  | None => None
  end.

(** One turn of the [for] loop over [normalizedRecords];
    [children_loop matcher originalRecord] stands for the inner loop
    over [mainNormalizedRecord.children]. *)
Definition addRoute_step (record : RouteRecordRaw)
    (parent : option RouteRecordMatcher) (isRootAdd : bool)
    (options : PathParserOptions)
    (children_loop :
       RouteRecordMatcher -> option RouteRecordMatcher -> state -> state)
    (v : loop_vars) (normalizedRecord : RouteRecordNormalized)
    : loop_vars :=
  let st := loop_state v in
  let path0 := path normalizedRecord in
  let normalizedRecord :=
    match parent with
    | Some p =>
        if negb (is_slash (first_char path0))
        then set_path (nested_path (path (Matcher.record p)) path0)
                      normalizedRecord
        else normalizedRecord
    | None => normalizedRecord
    end in
  let '(matcher, st) :=
    createRouteRecordMatcher normalizedRecord parent options st in
  let '(om, st) :=
    match originalRecord v with
    | Some o =>
        (* if we are an alias we must tell the original record that we
           exist so we can be removed *)
        (originalMatcher v, push_alias o matcher st)
    | None =>
        (* otherwise, the first record is the original and others are
           aliases *)
        let om := default matcher (originalMatcher v) in
        let st :=
          if negb (Nat.eqb (mid om) (mid matcher))
          then push_alias om matcher st else st in
        let st :=
          match truthy_name (raw_name record) with
          | Some n =>
              if isRootAdd && negb (isAliasRecord matcher)
              then removeRoute (inl n) st else st
          | None => st
          end in
        (Some om, st)
    end in
  let st := children_loop matcher (originalRecord v) st in
  let original := Some (default matcher (originalRecord v)) in
  {| originalRecord := original;
     originalMatcher := om;
     loop_state := insertMatcher matcher st |}.

Definition aliases_of (record : RouteRecordRaw) : list string :=
  match raw_alias record with
  | None => []
  | Some (inl a) => [a]
  | Some (inr l) => l
  end.

(** The loop [for (let i = 0; i < children.length; i++)], [add]
    standing for the recursive call of [addRoute]. *)
Definition add_children
    (add : RouteRecordRaw -> option RouteRecordMatcher ->
           option RouteRecordMatcher -> state ->
           option RouteRecordMatcher * state)
    (matcher : RouteRecordMatcher) (original : option RouteRecordMatcher)
    : list RouteRecordRaw -> nat -> state -> state :=
  fix each (cs : list RouteRecordRaw) (i : nat) (st : state) : state :=
    match cs with
    | [] => st
    | c :: cs' =>
        each cs' (S i)
          (snd (add c (Some matcher) (original_child original i st) st))
    end.

(** [addRoute(record, parent, originalRecord)].  The result is the
    matcher the returned handle removes, if any. *)
Fixpoint addRoute (record : RouteRecordRaw)
    (parent original : option RouteRecordMatcher) (st : state)
    {struct record} : option RouteRecordMatcher * state :=
  match record with
  | mkRaw _ _ _ _ _ ropts rchildren =>
      (* used later on to remove by name *)
      let isRootAdd := match original with Some _ => false | None => true end in
      let '(main, st) := normalizeRouteRecord record st in
      (* we might be the child of an alias *)
      let main :=
        set_aliasOf (option_map (fun o => rid (Matcher.record o)) original)
                    main in
      let options := mergeOptions (globalOptions E) ropts in
      let target :=
        match original with
        | Some o => rid (Matcher.record o)
        | None => rid main
        end in
      let '(copies, st) := alias_records main target (aliases_of record) st in
      let normalizedRecords := main :: copies in
      let children_loop :=
        fun (matcher : RouteRecordMatcher)
            (orig : option RouteRecordMatcher) (st : state) =>
          match rchildren with
          | Some l => add_children addRoute matcher orig l 0%nat st
          | None => st
          end in
      let v :=
        foldl (addRoute_step record parent isRootAdd options children_loop)
              {| originalRecord := original; originalMatcher := None;
                 loop_state := st |}
              normalizedRecords in
      (originalMatcher v, loop_state v)
  end.

End WithEnv.

(** *** [resolve] *)

(** [MatcherLocationRaw]: a field is [None] when the key is absent. *)
Record MatcherLocationRaw := mkRawLocation {
  l_name : option RouteRecordName;
  l_path : option string;
  l_params : option PathParams
}.

Record MatcherLocation := mkLocation {
  loc_name : option RouteRecordName;
  loc_path : string;
  loc_params : PathParams;
  loc_matched : list RouteRecordNormalized;
  loc_meta : Meta
}.

(** A params object is a plain object: its own properties are the
    entries of the map, and [key in params] also holds of the property
    names of [Object.prototype] in the host the code runs in. *)
Class Host := mkHost {
  inherited_key : string -> bool
}.

(** [key in params] *)
Definition key_in_params `{Host} (params : PathParams) (key : string)
    : bool :=
  match params !! key with
  | Some _ => true
  | None => inherited_key key
  end.

(** [params[key]] for a key that is [in params] *)
Definition param_at (params : PathParams) (key : string)
    : RouteParamValue :=
  default (PInherited key) (params !! key).

(** [newParams[key] = value]: assigning to [__proto__] goes to the
    setter that [Object.prototype] holds and creates no property. *)
Definition set_param (key : string) (value : RouteParamValue)
    (newParams : PathParams) : PathParams :=
  if String.eqb key "__proto__" then newParams
  else <[key := value]> newParams.

Definition paramsFromLocation `{Host} (params : PathParams)
    (keys : list string) : PathParams :=
  foldl (fun newParams key =>
           if key_in_params params key
           then set_param key (param_at params key) newParams
           else newParams) ∅ keys.

(** Merge meta fields of an array of records. *)
Definition mergeMetaFields (matched : list RouteRecordNormalized) : Meta :=
  foldl (fun m r => assign m (meta r)) ∅ matched.

(** The [while (parentMatcher)] loop: parents first. *)
Fixpoint matched_chain (m : RouteRecordMatcher) : list RouteRecordNormalized :=
  match m with
  | mkMatcher _ _ r p =>
      match p with
      | Some pm => matched_chain pm ++ [r]
      | None => [r]
      end
  end.

Definition matched_of (m : option RouteRecordMatcher) :=
  match m with Some x => matched_chain x | None => [] end.

(** [matchers.find(m => m.re.test(path))] *)
Definition find_by_path (st : state) (p : string) : option RouteRecordMatcher :=
  List.find (fun m => re_test (parser m) p) (matchers st).

Definition resolve `{Host} (st : state) (location : MatcherLocationRaw)
    (currentLocation : MatcherLocation) : MatcherError + MatcherLocation :=
  let finish (matcher : option RouteRecordMatcher) nm p params :=
    let matched := matched_of matcher in
    inr {| loc_name := nm; loc_path := p; loc_params := params;
           loc_matched := matched; loc_meta := mergeMetaFields matched |} in
  match truthy_name (l_name location), l_path location with
  | Some n, _ =>
      match matcherMap st !! n with
      | None => inl MATCHER_NOT_FOUND
      | Some matcher =>
          let params :=
            assign
              (paramsFromLocation (loc_params currentLocation)
                 (* only keep params that exist in the resolved location *)
                 (map k_name
                    (filter (fun k => optional k = false)
                            (keys (parser matcher)))))
              (default ∅ (l_params location)) in
          (* throws if cannot be stringified *)
          match stringify (parser matcher) params with
          | inl e => inl (STRINGIFY_ERROR e)
          | inr p =>
              finish (Some matcher) (name (record matcher)) p params
          end
      end
  | None, Some p =>
      match find_by_path st p with
      | Some matcher =>
          (* [matcher.parse(path)!]: the parser answers [null] only for
             a path its [re] rejects *)
          finish (Some matcher) (name (record matcher)) p
                 (default ∅ (parse (parser matcher) p))
      | None => finish None None p ∅
      end
  | None, None =>
      (* match by name or path of current route *)
      let matcher :=
        match truthy_name (loc_name currentLocation) with
        | Some n => matcherMap st !! n
        | None => find_by_path st (loc_path currentLocation)
        end in
      match matcher with
      | None => inl MATCHER_NOT_FOUND
      | Some matcher =>
          let params :=
            assign (loc_params currentLocation)
                   (default ∅ (l_params location)) in
          match stringify (parser matcher) params with
          | inl e => inl (STRINGIFY_ERROR e)
          | inr p =>
              finish (Some matcher) (name (record matcher)) p params
          end
      end
  end.

(** *** The registry as a client drives it *)

Inductive call :=
| AddRoute (record : RouteRecordRaw) (parent : option RouteRecordMatcher)
| RemoveRoute (matcherRef : RouteRecordName + RouteRecordMatcher).

Definition exec (E : Env) (st : state) (c : call) : state :=
  match c with
  | AddRoute record parent => snd (addRoute E record parent None st)
  | RemoveRoute ref => removeRoute ref st
  end.

(** [createRouterMatcher(routes, globalOptions)] followed by the calls;
    the initial [routes.forEach(route => addRoute(route))] is a prefix
    of [AddRoute] calls. *)
Definition run (E : Env) (cs : list call) : state := foldl (exec E) empty cs.

End Matcher.

(* --------------------------------------------------------------------- *)
(** ** A path compiler after section 4.1 of the design notes              *)
(* --------------------------------------------------------------------- *)
Module SpecParser.
Import Matcher.

(** Modelled from the spec: the segment grammar restricted to static
    segments and plain [:name] parameters (matcher/pathParserRanker.ts
    and matcher/pathTokenizer.ts are not among the sources). *)
Inductive token :=
| Static (s : string)
| Param (n : string).

(** Splits at every slash; the text before the first slash comes
    first. *)
Fixpoint split_slash (s : string) (cur : string) : list string :=
  match s with
  | EmptyString => [cur]
  | String c rest =>
      if Ascii.eqb c "/"%char then cur :: split_slash rest ""
      else split_slash rest (cur ++ String c "")
  end.

Definition segments (p : string) : list string :=
  match split_slash p "" with
  | _ :: l => l
  | [] => []
  end.

Definition tokenize_segment (s : string) : token :=
  match s with
  | String c rest => if Ascii.eqb c ":"%char then Param rest else Static s
  | EmptyString => Static s
  end.

Definition tokenizePath (p : string) : list token :=
  map tokenize_segment (segments p).

Definition segment_matches (t : token) (s : string) : bool :=
  match t with
  | Static x => String.eqb x s
  | Param _ => negb (String.eqb s "")
  end.

Fixpoint all_match (ts : list token) (ss : list string) : bool :=
  match ts, ss with
  | [], [] => true
  | t :: ts', s :: ss' => segment_matches t s && all_match ts' ss'
  | _, _ => false
  end.

Fixpoint extract (ts : list token) (ss : list string) : PathParams :=
  match ts, ss with
  | Param n :: ts', s :: ss' => <[n := PStr s]> (extract ts' ss')
  | _ :: ts', _ :: ss' => extract ts' ss'
  | _, _ => ∅
  end.

Fixpoint build (ts : list token) (params : PathParams) : string + string :=
  match ts with
  | [] => inr ""%string
  | t :: ts' =>
      match build ts' params with
      | inl e => inl e
      | inr rest =>
          match t with
          | Static s => inr ("/" ++ s ++ rest)%string
          | Param n =>
              match params !! n with
              | Some (PStr v) => inr ("/" ++ v ++ rest)%string
              | Some (PArr _) => inl ("Invalid param " ++ n)%string
              | Some (PInherited _) => inl ("Invalid param " ++ n)%string
              | None => inl ("Missing required param " ++ n)%string
              end
          end
      end
  end.

(** Static segments outrank dynamic ones. *)
Definition weight (t : token) : Z :=
  match t with
  | Static _ => 80
  | Param _ => 60
  end.

Definition tokensToParser (p : string) (o : PathParserOptions) : PathParser :=
  let ts := tokenizePath p in
  {| re_test := fun s => all_match ts (segments s);
     score := map weight ts;
     keys :=
       omap (fun t => match t with
                      | Param n => Some (mkKey n false false)
                      | Static _ => None
                      end) ts;
     parse := fun s =>
       if all_match ts (segments s) then Some (extract ts (segments s))
       else None;
     stringify := build ts |}.

(** Scores are compared lexicographically, most significant segment
    first, the higher weight ranking first; of two scores one of which
    extends the other, the longer ranks first. *)
Fixpoint compareScore (a b : list Z) : Z :=
  match a, b with
  | [], [] => 0
  | [], _ :: _ => 1
  | _ :: _, [] => -1
  | x :: a', y :: b' => if y - x =? 0 then compareScore a' b' else y - x
  end.

Definition comparePathParserScore (a b : PathParser) : Z :=
  compareScore (score a) (score b).

Definition env : Env :=
  {| Matcher.tokensToParser := tokensToParser;
     Matcher.comparePathParserScore := comparePathParserScore;
     userOptions := mkPartial None None None |}.

(** A record with a path and, possibly, a name. *)
Definition route (p : string) (n : option string) : RouteRecordRaw :=
  mkRaw p n None None None (mkPartial None None None) None.

Definition by_path (p : string) : MatcherLocationRaw :=
  mkRawLocation None (Some p) None.

Definition by_name (n : string) : MatcherLocationRaw :=
  mkRawLocation (Some n) None None.

(** The matcher view of [START_LOCATION_NORMALIZED]. *)
Definition start : MatcherLocation := mkLocation None "/" ∅ [] ∅.

(** A host whose [Object.prototype] has the properties the language
    gives it and no other. *)
Definition Object_prototype : list string :=
  ["constructor"; "hasOwnProperty"; "isPrototypeOf"; "propertyIsEnumerable";
   "toLocaleString"; "toString"; "valueOf"; "__proto__";
   "__defineGetter__"; "__defineSetter__"; "__lookupGetter__";
   "__lookupSetter__"]%string.

Definition plain_host : Host :=
  {| inherited_key := fun key => existsb (String.eqb key) Object_prototype |}.

End SpecParser.

(* --------------------------------------------------------------------- *)
(** ** router.ts : [createRouter]                                         *)
(* --------------------------------------------------------------------- *)
Module Router.

(** Identities of route records, of guards and of the other callbacks a
    client registers. *)
Definition RecordId := nat.
Definition GuardId := nat.
Definition CallbackId := nat.

Definition LocationQuery := list (string * string).
Definition RouteParams := list (string * string).
Definition HistoryState := list (string * string).

(** The object form of [RouteLocationRaw] with [RouteLocationOptions]; a
    field is [None] when the key is absent or [undefined]. *)
Record LocationObject := mkObject {
  o_path : option string;
  o_name : option string;
  o_params : option RouteParams;
  o_query : option LocationQuery;
  o_hash : option string;
  o_replace : option bool;
  o_force : option bool;
  o_state : option HistoryState
}.

Inductive RouteLocationRaw :=
| RawString (s : string)
| RawObject (o : LocationObject).

(** A resolved location.  [tok] is the identity of the object: [resolve]
    returns a new object on every call, and [pendingLocation !== to]
    compares identities. *)
Inductive RouteLocation := mkLocation {
  tok : nat;
  fullPath : string;
  path : string;
  query : LocationQuery;
  hash : string;
  name : option string;
  params : RouteParams;
  matched : list RecordId;
  redirectedFrom : option RouteLocation
}.

(** What [resolve] computes before the object is allocated. *)
Record Resolved := mkResolved {
  r_fullPath : string;
  r_path : string;
  r_query : LocationQuery;
  r_hash : string;
  r_name : option string;
  r_params : RouteParams;
  r_matched : list RecordId
}.

Definition START_LOCATION_NORMALIZED : RouteLocation :=
  {| tok := 0; fullPath := "/"; path := "/"; query := []; hash := "";
     name := None; params := []; matched := []; redirectedFrom := None |}.

Definition same_object (a b : RouteLocation) : bool := Nat.eqb (tok a) (tok b).

Definition set_redirectedFrom (r : option RouteLocation) (l : RouteLocation) :=
  {| tok := tok l; fullPath := fullPath l; path := path l; query := query l;
     hash := hash l; name := name l; params := params l;
     matched := matched l; redirectedFrom := r |}.

(** errors.ts is not among the sources; these are the failure kinds the
    router creates and tests. *)
Inductive NavigationFailure :=
| NAVIGATION_ABORTED (from to : RouteLocation)
| NAVIGATION_CANCELLED (from to : RouteLocation)
| NAVIGATION_DUPLICATED (from to : RouteLocation)
| NAVIGATION_GUARD_REDIRECT (from : RouteLocation) (to : RouteLocationRaw).

Inductive RouterError :=
| Failure (f : NavigationFailure)
| OtherError (msg : string).

(** What a guard hands back, through [next] or as its result. *)
Inductive NavigationGuardReturn :=
| GuardVoid
| GuardBoolean (valid : bool)
| GuardLocation (location : RouteLocationRaw)
| GuardError (msg : string)
| GuardCallback.

Inductive GuardPhase :=
| Leave | BeforeEach | Update | BeforeEnter | Enter | BeforeResolve.

Inductive GuardType := beforeRouteLeave | beforeRouteUpdate | beforeRouteEnter.

Inductive RedirectOption :=
| RedirectTo (target : RouteLocationRaw)
| RedirectFunction (f : RouteLocation -> RouteLocationRaw).

Inductive HistoryCall :=
| HistoryPush (to : string) (data : option HistoryState)
| HistoryReplace (to : string) (scroll : bool) (data : option HistoryState).

(** What one navigation does that can be observed from outside. *)
Inductive Event :=
| EvGuard (phase : GuardPhase) (g : GuardId)
| EvHistory (c : HistoryCall)
| EvScroll (to from : RouteLocation) (isPush isFirstNavigation : bool)
| EvAfterEach (cb : CallbackId) (to from : RouteLocation)
              (failure : option NavigationFailure)
| EvError (cb : CallbackId) (e : RouterError)
| EvReady (err : option RouterError)
| EvWarn (msg : string).

(** The closure variables of [createRouter] and the objects they reach. *)
Record World := mkWorld {
  pendingLocation : RouteLocation;
  currentRoute : RouteLocation;
  routerHistory : MemoryHistory.state;
  beforeGuards : list GuardId;
  beforeResolveGuards : list GuardId;
  afterGuards : list CallbackId;
  errorHandlers : list CallbackId;
  (** [record.leaveGuards] and [record.updateGuards] *)
  leaveGuards : gmap RecordId (list GuardId);
  updateGuards : gmap RecordId (list GuardId);
  (** [location._count], by identity of the location *)
  redirect_count : gmap nat nat;
  ready : bool;
  (** next fresh object identity *)
  next_tok : nat
}.

(** A navigation in progress: the world and what this navigation has
    done so far.  Guards act on the world only. *)
Record Run := mkRun {
  world : World;
  trace : list Event
}.

(** The collaborators of router.ts that are not among the sources, and
    the configuration. *)
Record Env := mkEnv {
  (** [__DEV__] *)
  DEV : bool;
  isBrowser : bool;
  (** whether [options.scrollBehavior] is given *)
  hasScrollBehavior : bool;
  (** the matcher and the URL helpers behind [resolve]; left when they throw *)
  resolve_location :
    RouteLocationRaw -> RouteLocation -> RouterError + Resolved;
  (** [isSameRouteLocation(stringifyQuery, a, b)] of location.ts *)
  isSameRouteLocation : RouteLocation -> RouteLocation -> bool;
  (** [record.redirect] and [record.beforeEnter] of a matched record *)
  record_redirect : RecordId -> option RedirectOption;
  record_beforeEnter : RecordId -> option (GuardId + list GuardId);
  (** the guards the components of a record declare *)
  component_guards : RecordId -> GuardType -> list GuardId;
  (** a guard called with [to] and [from]: what it hands back and what
      happened to the router until it settled *)
  guard : GuardId -> RouteLocation -> RouteLocation -> World ->
          NavigationGuardReturn * World
}.

Definition set_world (w : World) (s : Run) : Run :=
  {| world := w; trace := trace s |}.

Definition emit (e : list Event) (s : Run) : Run :=
  {| world := world s; trace := trace s ++ e |}.

Definition set_pendingLocation (l : RouteLocation) (w : World) : World :=
  {| pendingLocation := l; currentRoute := currentRoute w;
     routerHistory := routerHistory w; beforeGuards := beforeGuards w;
     beforeResolveGuards := beforeResolveGuards w;
     afterGuards := afterGuards w; errorHandlers := errorHandlers w;
     leaveGuards := leaveGuards w; updateGuards := updateGuards w;
     redirect_count := redirect_count w; ready := ready w;
     next_tok := next_tok w |}.

Definition set_currentRoute (l : RouteLocation) (w : World) : World :=
  {| pendingLocation := pendingLocation w; currentRoute := l;
     routerHistory := routerHistory w; beforeGuards := beforeGuards w;
     beforeResolveGuards := beforeResolveGuards w;
     afterGuards := afterGuards w; errorHandlers := errorHandlers w;
     leaveGuards := leaveGuards w; updateGuards := updateGuards w;
     redirect_count := redirect_count w; ready := ready w;
     next_tok := next_tok w |}.

Definition set_routerHistory (h : MemoryHistory.state) (w : World) : World :=
  {| pendingLocation := pendingLocation w; currentRoute := currentRoute w;
     routerHistory := h; beforeGuards := beforeGuards w;
     beforeResolveGuards := beforeResolveGuards w;
     afterGuards := afterGuards w; errorHandlers := errorHandlers w;
     leaveGuards := leaveGuards w; updateGuards := updateGuards w;
     redirect_count := redirect_count w; ready := ready w;
     next_tok := next_tok w |}.

Definition set_record_guards (lg ug : gmap RecordId (list GuardId))
    (w : World) : World :=
  {| pendingLocation := pendingLocation w; currentRoute := currentRoute w;
     routerHistory := routerHistory w; beforeGuards := beforeGuards w;
     beforeResolveGuards := beforeResolveGuards w;
     afterGuards := afterGuards w; errorHandlers := errorHandlers w;
     leaveGuards := lg; updateGuards := ug;
     redirect_count := redirect_count w; ready := ready w;
     next_tok := next_tok w |}.

Definition set_redirect_count (c : gmap nat nat) (w : World) : World :=
  {| pendingLocation := pendingLocation w; currentRoute := currentRoute w;
     routerHistory := routerHistory w; beforeGuards := beforeGuards w;
     beforeResolveGuards := beforeResolveGuards w;
     afterGuards := afterGuards w; errorHandlers := errorHandlers w;
     leaveGuards := leaveGuards w; updateGuards := updateGuards w;
     redirect_count := c; ready := ready w;
     next_tok := next_tok w |}.

Definition set_ready (b : bool) (w : World) : World :=
  {| pendingLocation := pendingLocation w; currentRoute := currentRoute w;
     routerHistory := routerHistory w; beforeGuards := beforeGuards w;
     beforeResolveGuards := beforeResolveGuards w;
     afterGuards := afterGuards w; errorHandlers := errorHandlers w;
     leaveGuards := leaveGuards w; updateGuards := updateGuards w;
     redirect_count := redirect_count w; ready := b;
     next_tok := next_tok w |}.

Definition bump_tok (w : World) : World :=
  {| pendingLocation := pendingLocation w; currentRoute := currentRoute w;
     routerHistory := routerHistory w; beforeGuards := beforeGuards w;
     beforeResolveGuards := beforeResolveGuards w;
     afterGuards := afterGuards w; errorHandlers := errorHandlers w;
     leaveGuards := leaveGuards w; updateGuards := updateGuards w;
     redirect_count := redirect_count w; ready := ready w;
     next_tok := S (next_tok w) |}.

(** The router before its first navigation; identity [0] is that of
    [START_LOCATION_NORMALIZED]. *)
Definition initial : World :=
  {| pendingLocation := START_LOCATION_NORMALIZED;
     currentRoute := START_LOCATION_NORMALIZED;
     routerHistory := MemoryHistory.init;
     beforeGuards := []; beforeResolveGuards := [];
     afterGuards := []; errorHandlers := [];
     leaveGuards := ∅; updateGuards := ∅; redirect_count := ∅;
     ready := false; next_tok := 1 |}.

(** A settled promise. *)
Inductive Settled (A : Type) :=
| Fulfilled (a : A)
| Rejected (e : RouterError).
Arguments Fulfilled {A} a.
Arguments Rejected {A} e.

(** What a call of [pushWithRedirect] comes to. *)
Inductive Outcome :=
| Resolves (failure : option NavigationFailure)
| Rejects (e : RouterError)
| Throws (e : RouterError)
| OutOfFuel.

(** An entry of a guard queue: a guard wrapped by [guardToPromiseFn], or
    [canceledNavigationCheck]. *)
Inductive Lazy :=
| LGuard (phase : GuardPhase) (g : GuardId)
| LCheck.

Definition locationAsObject (to : RouteLocationRaw) : LocationObject :=
  match to with
  | RawString s => mkObject (Some s) None None None None None None None
  | RawObject o => o
  end.

(** [(to as RouteLocationOptions).state], [.force] and
    [.replace === true] *)
Definition option_state (to : RouteLocationRaw) : option HistoryState :=
  match to with RawObject o => o_state o | RawString _ => None end.

Definition option_force (to : RouteLocationRaw) : option bool :=
  match to with RawObject o => o_force o | RawString _ => None end.

Definition option_replace (to : RouteLocationRaw) : bool :=
  match to with
  | RawObject o => match o_replace o with Some true => true | _ => false end
  | RawString _ => false
  end.

Definition truthy (b : option bool) : bool := default false b.

(** ['key' in object] *)
Definition has_key {A} (field : option A) : bool :=
  match field with Some _ => true | None => false end.

(** [assign(locationAsObject(to), { state, force, replace })] *)
Definition with_options (o : LocationObject) (data : option HistoryState)
    (force : option bool) (replace : bool) : LocationObject :=
  {| o_path := o_path o; o_name := o_name o; o_params := o_params o;
     o_query := o_query o; o_hash := o_hash o;
     o_replace := Some replace; o_force := force; o_state := data |}.

(** [assign({ query, hash, params }, newTargetLocation, { state, force,
    replace })] of the record redirect *)
Definition redirect_target (target : RouteLocation) (o : LocationObject)
    (data : option HistoryState) (force : option bool) (replace : bool)
    : LocationObject :=
  {| o_path := o_path o; o_name := o_name o;
     o_params := Some (default (params target) (o_params o));
     o_query := Some (default (query target) (o_query o));
     o_hash := Some (default (hash target) (o_hash o));
     o_replace := Some replace; o_force := force; o_state := data |}.

Definition mem (r : RecordId) (l : list RecordId) : bool :=
  existsb (Nat.eqb r) l.

(** [extractChangingRecords(to, from)], with its index loop. *)
Definition extractChangingRecords (to from : RouteLocation)
    : list RecordId * list RecordId * list RecordId :=
  let len := Nat.max (length (matched from)) (length (matched to)) in
  foldl (fun '(leavingRecords, updatingRecords, enteringRecords) i =>
           let '(leavingRecords, updatingRecords) :=
             match matched from !! i with
             | Some recordFrom =>
                 if negb (mem recordFrom (matched to))
                 then (leavingRecords ++ [recordFrom], updatingRecords)
                 else (leavingRecords, updatingRecords ++ [recordFrom])
             | None => (leavingRecords, updatingRecords)
             end in
           let enteringRecords :=
             match matched to !! i with
             | Some recordTo =>
                 if negb (mem recordTo (matched from))
                 then enteringRecords ++ [recordTo]
                 else enteringRecords
             | None => enteringRecords
             end in
           (leavingRecords, updatingRecords, enteringRecords))
        ([], [], []) (seq 0 len).

Section WithEnv.
Context (E : Env).

(** [resolve(to)]: the location is a new object. *)
Definition resolve (to : RouteLocationRaw) (w : World)
    : (RouterError + RouteLocation) * World :=
  match resolve_location E to (currentRoute w) with
  | inl e => (inl e, w)
  | inr r =>
      (inr {| tok := next_tok w; fullPath := r_fullPath r; path := r_path r;
              query := r_query r; hash := r_hash r; name := r_name r;
              params := r_params r; matched := r_matched r;
              redirectedFrom := None |},
       bump_tok w)
  end.

Definition checkCanceledNavigation (to from : RouteLocation) (w : World)
    : option NavigationFailure :=
  if negb (same_object (pendingLocation w) to)
  then Some (NAVIGATION_CANCELLED from to)
  else None.

(** Modelled from the spec: [guardToPromiseFn] of navigationGuards.ts,
    which is not among the sources, after the guard function contract:
    a bare continuation allows, [false] aborts, a location redirects, an
    error fails the navigation. *)
Definition guardToPromiseFn (phase : GuardPhase) (g : GuardId)
    (to from : RouteLocation) (s : Run) : Settled unit * Run :=
  let '(ret, w) := guard E g to from (world s) in
  let s' := {| world := w; trace := trace s ++ [EvGuard phase g] |} in
  match ret with
  | GuardBoolean false => (Rejected (Failure (NAVIGATION_ABORTED from to)), s')
  | GuardError msg => (Rejected (OtherError msg), s')
  | GuardLocation l => (Rejected (Failure (NAVIGATION_GUARD_REDIRECT to l)), s')
  | GuardVoid | GuardBoolean true | GuardCallback => (Fulfilled tt, s')
  end.

(** [checkCanceledNavigationAndReject] *)
Definition checkCanceledNavigationAndReject (to from : RouteLocation)
    (s : Run) : Settled unit * Run :=
  match checkCanceledNavigation to from (world s) with
  | Some error => (Rejected (Failure error), s)
  | None => (Fulfilled tt, s)
  end.

Definition run_lazy (to from : RouteLocation) (l : Lazy) (s : Run)
    : Settled unit * Run :=
  match l with
  | LGuard phase g => guardToPromiseFn phase g to from s
  | LCheck => checkCanceledNavigationAndReject to from s
  end.

(** [guards.reduce((promise, guard) => promise.then(() => guard()),
    Promise.resolve())]: one after the other, nothing after a
    rejection. *)
Fixpoint runGuardQueue (to from : RouteLocation) (guards : list Lazy)
    (s : Run) : Settled unit * Run :=
  match guards with
  | [] => (Fulfilled tt, s)
  | g :: rest =>
      match run_lazy to from g s with
      | (Fulfilled _, s') => runGuardQueue to from rest s'
      | (Rejected e, s') => (Rejected e, s')
      end
  end.

(** Modelled from the spec: [extractComponentsGuards] of
    navigationGuards.ts, which is not among the sources: the guards of
    the given kind that the components of the records declare, record
    after record. *)
Definition extractComponentsGuards (records : list RecordId) (ty : GuardType)
    : list GuardId :=
  flat_map (fun r => component_guards E r ty) records.

Definition record_guards (m : gmap RecordId (list GuardId))
    (records : list RecordId) : list GuardId :=
  flat_map (fun r => default [] (m !! r)) records.

(** The six queues of [navigate], each built when its phase starts. *)
Definition leave_queue (to from : RouteLocation) (w : World) : list Lazy :=
  let '(leavingRecords, _, _) := extractChangingRecords to from in
  map (LGuard Leave)
      (extractComponentsGuards
         (rev (filter (fun r => negb (mem r (matched to))) (matched from)))
         beforeRouteLeave
       ++ record_guards (leaveGuards w) leavingRecords)
  ++ [LCheck].

Definition beforeEach_queue (w : World) : list Lazy :=
  map (LGuard BeforeEach) (beforeGuards w) ++ [LCheck].

Definition update_queue (to from : RouteLocation) (w : World) : list Lazy :=
  let '(_, updatingRecords, _) := extractChangingRecords to from in
  map (LGuard Update)
      (extractComponentsGuards
         (filter (fun r => mem r (matched from)) (matched to))
         beforeRouteUpdate
       ++ record_guards (updateGuards w) updatingRecords)
  ++ [LCheck].

Definition beforeEnter_guards (to from : RouteLocation) : list GuardId :=
  flat_map (fun r =>
              match record_beforeEnter E r with
              | Some be =>
                  (* do not trigger beforeEnter on reused views *)
                  if negb (mem r (matched from))
                  then match be with inl g => [g] | inr gs => gs end
                  else []
              | None => []
              end) (matched to).

Definition beforeEnter_queue (to from : RouteLocation) : list Lazy :=
  map (LGuard BeforeEnter) (beforeEnter_guards to from) ++ [LCheck].

Definition enter_queue (to from : RouteLocation) : list Lazy :=
  map (LGuard Enter)
      (extractComponentsGuards
         (filter (fun r => negb (mem r (matched from))) (matched to))
         beforeRouteEnter)
  ++ [LCheck].

Definition beforeResolve_queue (w : World) : list Lazy :=
  map (LGuard BeforeResolve) (beforeResolveGuards w) ++ [LCheck].

Definition phases (to from : RouteLocation) : list (World -> list Lazy) :=
  [leave_queue to from; beforeEach_queue; update_queue to from;
   (fun _ => beforeEnter_queue to from); (fun _ => enter_queue to from);
   beforeResolve_queue].

(** The chain of [.then]: a phase starts when the one before it is
    through, and none starts after a rejection. *)
Fixpoint run_phases (to from : RouteLocation)
    (queues : list (World -> list Lazy)) (s : Run) : Settled unit * Run :=
  match queues with
  | [] => (Fulfilled tt, s)
  | q :: rest =>
      match runGuardQueue to from (q (world s)) s with
      | (Fulfilled _, s') => run_phases to from rest s'
      | (Rejected e, s') => (Rejected e, s')
      end
  end.

(** The closing [.catch] of [navigate]: a cancelled navigation is handed
    on as a value. *)
Definition catch_canceled (r : Settled unit * Run)
    : Settled (option NavigationFailure) * Run :=
  match r with
  | (Fulfilled _, s) => (Fulfilled None, s)
  | (Rejected (Failure (NAVIGATION_CANCELLED f t)), s) =>
      (Fulfilled (Some (NAVIGATION_CANCELLED f t)), s)
  | (Rejected e, s) => (Rejected e, s)
  end.

Definition navigate (to from : RouteLocation) (s : Run)
    : Settled (option NavigationFailure) * Run :=
  catch_canceled (run_phases to from (phases to from) s).

Definition triggerAfterEach (to from : RouteLocation)
    (failure : option NavigationFailure) (s : Run) : Run :=
  emit (map (fun cb => EvAfterEach cb to from failure)
            (afterGuards (world s))) s.

(** [handleScroll]: without a browser or a scroll behaviour nothing
    happens; otherwise [scrollBehavior(to, from, ...)] is due on the next
    tick. *)
Definition handleScroll (to from : RouteLocation)
    (isPush isFirstNavigation : bool) (s : Run) : Run :=
  if negb (isBrowser E) || negb (hasScrollBehavior E) then s
  else emit [EvScroll to from isPush isFirstNavigation] s.

(** [markAsReady(err)]; [setupListeners] attaches the one listener of
    the router to the history. *)
Definition markAsReady (err : option RouterError) (s : Run) : Run :=
  if ready (world s) then s
  else
    let w := set_ready true (world s) in
    let w := set_routerHistory (MemoryHistory.listen 0 (routerHistory w)) w in
    {| world := w; trace := trace s ++ [EvReady err] |}.

Definition triggerError (error : RouterError) (s : Run) : Run :=
  let s := markAsReady (Some error) s in
  emit (map (fun cb => EvError cb error) (errorHandlers (world s))) s.

Definition clear_guards (records : list RecordId)
    (m : gmap RecordId (list GuardId)) : gmap RecordId (list GuardId) :=
  foldl (fun m r => <[r := []]> m) m records.

Definition finalizeNavigation (toLocation from : RouteLocation)
    (isPush replace : bool) (data : option HistoryState) (s : Run)
    : option NavigationFailure * Run :=
  (* a more recent navigation took place *)
  match checkCanceledNavigation toLocation from (world s) with
  | Some error => (Some error, s)
  | None =>
      let '(leavingRecords, _, _) := extractChangingRecords toLocation from in
      let w := world s in
      (* remove registered guards from removed matched records *)
      let w := set_record_guards (clear_guards leavingRecords (leaveGuards w))
                                 (clear_guards leavingRecords (updateGuards w))
                                 w in
      (* only consider as push if it's not the first navigation *)
      let isFirstNavigation := same_object from START_LOCATION_NORMALIZED in
      let '(w, ev) :=
        if isPush then
          if replace || isFirstNavigation then
            (set_routerHistory
               (MemoryHistory.replace (fullPath toLocation) (routerHistory w)) w,
             [EvHistory (HistoryReplace (fullPath toLocation)
                                        isFirstNavigation data)])
          else
            (set_routerHistory
               (MemoryHistory.push (fullPath toLocation) (routerHistory w)) w,
             [EvHistory (HistoryPush (fullPath toLocation) data)])
        else (w, []) in
      (* accept current navigation *)
      let w := set_currentRoute toLocation w in
      let s := {| world := w; trace := trace s ++ ev |} in
      let s := handleScroll toLocation from isPush isFirstNavigation s in
      (None, markAsReady None s)
  end.

(** [lastMatched && lastMatched.redirect] *)
Definition last_redirect (target : RouteLocation) : option RedirectOption :=
  match last (matched target) with
  | Some lastMatched => record_redirect E lastMatched
  | None => None
  end.

(** [isNavigationFailure(error, NAVIGATION_ABORTED |
    NAVIGATION_CANCELLED | NAVIGATION_GUARD_REDIRECT)] *)
Definition handled_failure (error : RouterError) : option NavigationFailure :=
  match error with
  | Failure (NAVIGATION_DUPLICATED _ _) => None
  | Failure f => Some f
  | OtherError _ => None
  end.

(** The result of [pushWithRedirect] called inside a [.then] callback:
    a throw there rejects the promise. *)
Definition adopted (r : Outcome * Run) : Outcome * Run :=
  match r with
  | (Throws e, s) => (Rejects e, s)
  | r => r
  end.

(** [redirectedFrom._count = redirectedFrom._count ?
    redirectedFrom._count + 1 : 1] *)
Definition count_redirect (redirectedFrom : RouteLocation) (w : World)
    : nat * World :=
  let c :=
    match redirect_count w !! tok redirectedFrom with
    | Some c => if Nat.eqb c 0 then 1%nat else S c
    | None => 1%nat
    end in
  (c, set_redirect_count (<[tok redirectedFrom := c]> (redirect_count w)) w).

(** [pushWithRedirect(to, redirectedFrom)].  It calls itself for every
    redirect; [fuel] bounds the number of these calls. *)
Fixpoint pushWithRedirect (fuel : nat) (to : RouteLocationRaw)
    (redirectedFrom : option RouteLocation) (s : Run) : Outcome * Run :=
  match fuel with
  | O => (OutOfFuel, s)
  | S fuel =>
  match resolve to (world s) with
  | (inl e, _) => (Throws e, s)
  | (inr targetLocation, w) =>
  let s := set_world (set_pendingLocation targetLocation w) s in
  let from := currentRoute (world s) in
  let data := option_state to in
  let force := option_force to in
  (* to could be a string where [replace] is a function *)
  let replace := option_replace to in
  match last_redirect targetLocation with
  | Some redirect =>
      (* transform it into an object to pass the original options *)
      let newTargetLocation :=
        locationAsObject
          match redirect with
          | RedirectFunction f => f targetLocation
          | RedirectTo t => t
          end in
      if DEV E && negb (has_key (o_path newTargetLocation))
               && negb (has_key (o_name newTargetLocation))
      then (Rejects (OtherError "Invalid redirect"),
            emit [EvWarn "Invalid redirect found"] s)
      else
        pushWithRedirect fuel
          (RawObject (redirect_target targetLocation newTargetLocation
                                      data force replace))
          (* keep original redirectedFrom if it exists *)
          (Some (default targetLocation redirectedFrom)) s
  | None =>
      (* [toLocation.redirectedFrom = redirectedFrom]: the object is the
         pending one *)
      let toLocation := set_redirectedFrom redirectedFrom targetLocation in
      let s := set_world (set_pendingLocation toLocation (world s)) s in
      let navigated : Settled (option NavigationFailure) * Run :=
        if negb (truthy force) && isSameRouteLocation E from toLocation then
          (* trigger scroll to allow scrolling to the same anchor *)
          (Fulfilled (Some (NAVIGATION_DUPLICATED from toLocation)),
           handleScroll from from true false s)
        else navigate toLocation from s in
      (* the [.catch]: failures are values, anything else goes to the
         error handlers *)
      let caught : Settled (option NavigationFailure) * Run :=
        match navigated with
        | (Rejected error, s) =>
            match handled_failure error with
            | Some f => (Fulfilled (Some f), s)
            | None =>
                (* unknown error, rejects *)
                (Rejected error, triggerError error s)
            end
        | (Fulfilled failure, s) => (Fulfilled failure, s)
        end in
      (* the [.then] *)
      match caught with
      | (Rejected error, s) => (Rejects error, s)
      | (Fulfilled (Some (NAVIGATION_GUARD_REDIRECT failure_from failure_to)), s) =>
          let again (s : Run) :=
            adopted
              (pushWithRedirect fuel
                 (RawObject (with_options (locationAsObject failure_to)
                                          data force replace))
                 (* preserve the original redirectedFrom if any *)
                 (Some (default toLocation redirectedFrom)) s) in
          if DEV E then
            match resolve failure_to (world s) with
            | (inl e, _) => (Rejects e, s)
            | (inr resolved, w) =>
                let s := set_world w s in
                (* we are redirecting to the same location we were
                   already at *)
                if isSameRouteLocation E resolved toLocation then
                  match redirectedFrom with
                  | Some original =>
                      (* and we have done it a couple of times *)
                      let '(c, w) := count_redirect original (world s) in
                      let s := set_world w s in
                      if (10 <? c)%nat then
                        (Rejects (OtherError
                                    "Infinite redirect in navigation guard"),
                         emit [EvWarn "Detected an infinite redirection in a navigation guard"] s)
                      else again s
                  | None => again s
                  end
                else again s
            end
          else again s
      | (Fulfilled (Some failure), s) =>
          (Resolves (Some failure),
           triggerAfterEach toLocation from (Some failure) s)
      | (Fulfilled None, s) =>
          (* if we fail we don't finalize the navigation *)
          let '(failure, s) :=
            finalizeNavigation toLocation from true replace data s in
          (Resolves failure, triggerAfterEach toLocation from failure s)
      end
  end
  end
  end.

(** [push(to)] and [replace(to)] *)
Definition push (fuel : nat) (to : RouteLocationRaw) (s : Run) : Outcome * Run :=
  pushWithRedirect fuel to None s.

Definition replace (fuel : nat) (to : RouteLocationRaw) (s : Run)
    : Outcome * Run :=
  let o := locationAsObject to in
  push fuel
       (RawObject {| o_path := o_path o; o_name := o_name o;
                     o_params := o_params o; o_query := o_query o;
                     o_hash := o_hash o; o_replace := Some true;
                     o_force := o_force o; o_state := o_state o |}) s.

End WithEnv.

End Router.

(* --------------------------------------------------------------------- *)
(** ** A small route table to run the router on                           *)
(* --------------------------------------------------------------------- *)
Module Scenario.
Import Router.

(** Records: [1] for [/a], [2] for [/b], [3] and its child [4] for
    [/parent/child], [5] for [/old], which redirects to [/a], [6] for
    [/loop], which redirects to itself, and [20 + i] for [/r<i>], which
    redirects to [/r<i+1>]. *)
Definition chain_paths : list string :=
  ["/r0"; "/r1"; "/r2"; "/r3"; "/r4"; "/r5"; "/r6"; "/r7"; "/r8"; "/r9";
   "/r10"; "/r11"].

Fixpoint index_of (p : string) (l : list string) (i : nat) : option nat :=
  match l with
  | [] => None
  | x :: l' => if String.eqb x p then Some i else index_of p l' (S i)
  end.

Definition matched_for (p : string) : list RecordId :=
  if String.eqb p "/a" then [1%nat]
  else if String.eqb p "/b" then [2%nat]
  else if String.eqb p "/parent/child" then [3%nat; 4%nat]
  else if String.eqb p "/old" then [5%nat]
  else if String.eqb p "/loop" then [6%nat]
  else match index_of p chain_paths 0 with
       | Some i => [(20 + i)%nat]
       | None => []
       end.

Definition redirect_of (r : RecordId) : option RedirectOption :=
  if Nat.eqb r 5 then Some (RedirectTo (RawString "/a"))
  else if Nat.eqb r 6 then Some (RedirectTo (RawString "/loop"))
  else if (20 <=? r)%nat && (r <? 31)%nat
  then option_map (fun p => RedirectTo (RawString p))
                  (chain_paths !! (r - 19)%nat)
  else None.

Definition resolve_location (to : RouteLocationRaw) (current : RouteLocation)
    : RouterError + Resolved :=
  let o := locationAsObject to in
  let p := default (path current) (o_path o) in
  inr {| r_fullPath := p; r_path := p;
         r_query := default [] (o_query o);
         r_hash := default "" (o_hash o);
         r_name := None; r_params := default [] (o_params o);
         r_matched := matched_for p |}.

(** Same path and same hash, on a matched location. *)
Definition isSameRouteLocation (a b : RouteLocation) : bool :=
  negb (Nat.eqb (length (matched a)) 0)
  && String.eqb (path a) (path b) && String.eqb (hash a) (hash b).

(** Guards: [10] allows, [11] refuses, [12] redirects to where the
    navigation is going, [14] does so as long as fewer than 24 objects
    have been allocated and allows afterwards, [15] refuses the
    navigations to [/a] and allows the others. *)
Definition quiet_guard (g : GuardId) (to from : RouteLocation) (w : World)
    : NavigationGuardReturn * World :=
  if Nat.eqb g 11 then (GuardBoolean false, w)
  else if Nat.eqb g 12 then (GuardLocation (RawString (path to)), w)
  else if Nat.eqb g 14 then
    if (next_tok w <? 24)%nat
    then (GuardLocation (RawString (path to)), w)
    else (GuardVoid, w)
  else if Nat.eqb g 15 then
    if String.eqb (path to) "/a" then (GuardBoolean false, w)
    else (GuardVoid, w)
  else (GuardVoid, w).

Definition quiet : Env :=
  {| DEV := true; isBrowser := true; hasScrollBehavior := true;
     Router.resolve_location := resolve_location;
     Router.isSameRouteLocation := isSameRouteLocation;
     record_redirect := redirect_of;
     record_beforeEnter := fun _ => None;
     component_guards := fun _ _ => [];
     guard := quiet_guard |}.

(** Guard [13]: while it is pending on a navigation to [/a], somebody
    calls [push('/b')], and that navigation runs to its end. *)
Definition racing_guard (g : GuardId) (to from : RouteLocation) (w : World)
    : NavigationGuardReturn * World :=
  if Nat.eqb g 13 && String.eqb (path to) "/a" then
    (GuardVoid,
     world (snd (push quiet 3 (RawString "/b") {| world := w; trace := [] |})))
  else quiet_guard g to from w.

Definition racing : Env :=
  {| DEV := true; isBrowser := true; hasScrollBehavior := true;
     Router.resolve_location := resolve_location;
     Router.isSameRouteLocation := isSameRouteLocation;
     record_redirect := redirect_of;
     record_beforeEnter := fun _ => None;
     component_guards := fun _ _ => [];
     guard := racing_guard |}.

Definition with_beforeGuards (gs : list GuardId) (w : World) : World :=
  {| pendingLocation := pendingLocation w; currentRoute := currentRoute w;
     routerHistory := routerHistory w; beforeGuards := gs;
     beforeResolveGuards := beforeResolveGuards w;
     afterGuards := afterGuards w; errorHandlers := errorHandlers w;
     leaveGuards := leaveGuards w; updateGuards := updateGuards w;
     redirect_count := redirect_count w; ready := ready w;
     next_tok := next_tok w |}.

Definition with_afterGuards (cbs : list CallbackId) (w : World) : World :=
  {| pendingLocation := pendingLocation w; currentRoute := currentRoute w;
     routerHistory := routerHistory w; beforeGuards := beforeGuards w;
     beforeResolveGuards := beforeResolveGuards w;
     afterGuards := cbs; errorHandlers := errorHandlers w;
     leaveGuards := leaveGuards w; updateGuards := updateGuards w;
     redirect_count := redirect_count w; ready := ready w;
     next_tok := next_tok w |}.

Definition with_leaveGuards (m : gmap RecordId (list GuardId)) (w : World)
    : World :=
  set_record_guards m (updateGuards w) w.

Definition start (w : World) : Run := {| world := w; trace := [] |}.

(** The components of the records [3] and [4] declare the leave guards
    [33] and [44]. *)
Definition nested_views : Env :=
  {| DEV := true; isBrowser := true; hasScrollBehavior := true;
     Router.resolve_location := resolve_location;
     Router.isSameRouteLocation := isSameRouteLocation;
     record_redirect := redirect_of;
     record_beforeEnter := fun _ => None;
     component_guards := fun r ty =>
       match ty with
       | beforeRouteLeave =>
           if Nat.eqb r 3 then [33%nat]
           else if Nat.eqb r 4 then [44%nat] else []
       | _ => []
       end;
     guard := quiet_guard |}.

(** The location objects the first calls of [resolve] build. *)
Definition location_of (i : nat) (p : string) : RouteLocation :=
  {| tok := i; fullPath := p; path := p; query := []; hash := "";
     name := None; params := []; matched := matched_for p;
     redirectedFrom := None |}.

(** A router with the [beforeEach] guards [gs] and one [afterEach]
    callback, before its first navigation. *)
Definition fresh_router (gs : list GuardId) : World :=
  with_afterGuards [7%nat] (with_beforeGuards gs initial).

(** The same router once it has gone to [p]. *)
Definition router_at (gs : list GuardId) (p : string) : World :=
  world (snd (push quiet 2 (RawString p) (start (fresh_router gs)))).

End Scenario.

(* --------------------------------------------------------------------- *)
(** ** router.ts : [setupListeners]                                       *)
(* --------------------------------------------------------------------- *)
Module HistoryListener.
Import Router.

(** How a call of the listener ends: it returns, or [resolve] throws
    inside it. *)
Inductive Delivery :=
| Delivered
| ListenerThrew (e : RouterError)
| ListenerOutOfFuel.

Section WithEnv.
Context (E : Env).

(** [if (info.delta) routerHistory.go(-info.delta, false)] *)
Definition revert_history (d : Z) (s : Run) : Run :=
  if d =? 0 then s
  else
    set_world
      (set_routerHistory
         (fst (MemoryHistory.go (- d) false (routerHistory (world s))))
         (world s)) s.

(** The callback that [setupListeners] hands to [routerHistory.listen].
    [to] is what the history read from its queue; [resolve(undefined)]
    throws a [TypeError].  The scroll position that is saved in a
    browser belongs to scrollBehavior.ts and is not part of the state
    here. *)
Definition listener (fuel : nat) (to : option MemoryHistory.HistoryLocation)
    (info : MemoryHistory.NavigationInformation) (s : Run) : Delivery * Run :=
  match to with
  | None => (ListenerThrew (OtherError "TypeError"), s)
  | Some to =>
  (* cannot be a redirect route because it was in history *)
  match resolve E (RawString to) (world s) with
  | (inl e, _) => (ListenerThrew e, s)
  | (inr toLocation, w) =>
      let s := set_world (set_pendingLocation toLocation w) s in
      let from := currentRoute (world s) in
      let d := MemoryHistory.delta info in
      (* the [.then] *)
      let settle (failure : option NavigationFailure) (s : Run) : Run :=
        let '(failure, s) :=
          match failure with
          | Some f => (Some f, s)
          | None => finalizeNavigation E toLocation from false false None s
          end in
        (* revert the navigation *)
        let s :=
          match failure with
          | Some _ => revert_history d s
          | None => s
          end in
        triggerAfterEach toLocation from failure s in
      match navigate E toLocation from s with
      | (Fulfilled failure, s) => (Delivered, settle failure s)
      | (Rejected (Failure (NAVIGATION_ABORTED f t)), s) =>
          (Delivered, settle (Some (NAVIGATION_ABORTED f t)) s)
      | (Rejected (Failure (NAVIGATION_CANCELLED f t)), s) =>
          (Delivered, settle (Some (NAVIGATION_CANCELLED f t)) s)
      | (Rejected (Failure (NAVIGATION_GUARD_REDIRECT f rt)), s) =>
          (* do not restore history on unknown direction *)
          let s := revert_history d s in
          (* the error is already handled by router.push; the rejection
             skips the [.then] *)
          match pushWithRedirect E fuel rt (Some toLocation) s with
          | (OutOfFuel, s) => (ListenerOutOfFuel, s)
          | (_, s) => (Delivered, s)
          end
      | (Rejected error, s) =>
          (* unrecognized error, transfer to the global handler *)
          (Delivered, triggerError error (revert_history d s))
      end
  end
  end.

(** The loop of [triggerListeners] of the memory history over the
    callbacks it holds: the router's listener is the callback [0] (see
    [markAsReady]); the other callbacks are not the router's and do not
    act on it.  A listener that throws ends the loop. *)
Fixpoint deliver (fuel : nat) (ns : list MemoryHistory.Notification)
    (s : Run) : Delivery * Run :=
  match ns with
  | [] => (Delivered, s)
  | n :: rest =>
      if Nat.eqb (MemoryHistory.n_listener n) 0 then
        match listener fuel (MemoryHistory.n_to n) (MemoryHistory.n_info n) s with
        | (Delivered, s') => deliver fuel rest s'
        | r => r
        end
      else deliver fuel rest s
  end.

(** [routerHistory.go(delta)], as [go] of the router calls it, with the
    listener calls it makes. *)
Definition history_go (fuel : nat) (d : Z) (s : Run) : Delivery * Run :=
  let '(h, ns) := MemoryHistory.go d true (routerHistory (world s)) in
  deliver fuel ns (set_world (set_routerHistory h (world s)) s).

End WithEnv.

End HistoryListener.

(* --------------------------------------------------------------------- *)
(** ** history/memory.ts : the teardown that [listen] returns             *)
(* --------------------------------------------------------------------- *)
Module MemoryHistoryTeardown.
Import MemoryHistory.

(** [listeners.indexOf(callback)] *)
Fixpoint indexOf (l : list nat) (cb : nat) : option nat :=
  match l with
  | [] => None
  | x :: l' =>
      if Nat.eqb x cb then Some 0%nat else option_map S (indexOf l' cb)
  end.

(** The function that [listen(callback)] returns:
    [const index = listeners.indexOf(callback);
     if (index > -1) listeners.splice(index, 1)]. *)
Definition teardown (cb : nat) (s : state) : state :=
  match indexOf (listeners s) cb with
  | Some index =>
      {| listeners := JsArray.splice_one (listeners s) (Z.of_nat index);
         queue := queue s; position := position s |}
  | None => s
  end.

End MemoryHistoryTeardown.

(* --------------------------------------------------------------------- *)
(** ** query.ts : [parseQuery], [stringifyQuery], [normalizeQuery]        *)
(* --------------------------------------------------------------------- *)
Module Query.

(** [s.split(sep)] for a separator of one character: never empty, the
    pieces between the separators in order. *)
Fixpoint split (sep : Ascii.ascii) (s : string) : list string :=
  match s with
  | EmptyString => [EmptyString]
  | String c rest =>
      if Ascii.eqb c sep then EmptyString :: split sep rest
      else match split sep rest with
           | piece :: pieces => String c piece :: pieces
           | [] => [String c EmptyString]
           end
  end.

(** [s.slice(1)] *)
Definition slice1 (s : string) : string :=
  match s with
  | EmptyString => EmptyString
  | String _ rest => rest
  end.

(** [LocationQueryValue | LocationQueryValue[]]; [null] is [None]. *)
Inductive QueryValue :=
| Single (v : option string)
| Many (l : list (option string)).

(** A normalized query as [parseQuery] builds it: what matters is which
    value a key holds. *)
Definition LocationQuery := gmap string QueryValue.

Section WithHost.

(** JavaScript numbers with the two operations the code applies to
    them: truthiness ([v && ...]) and conversion to a string
    (['' + v]). *)
Context {Number : Type}.
Context (number_truthy : Number -> bool) (number_to_string : Number -> string).

(** encoding.ts is not among the sources. *)
Context (decode : string -> string).
Context (encodeQueryProperty : string + Number -> string).

(** [key in {}] for a key that is no own property: the property names of
    [Object.prototype] in the host. *)
Context (inherited : string -> bool).

(** [LocationQueryValueRaw] *)
Inductive RawValue :=
| RString (s : string)
| RNull
| RNumber (n : Number)
| RUndefined.

Inductive RawEntry :=
| RawOne (v : RawValue)
| RawMany (l : list RawValue).

(** A [LocationQueryRaw] object, as the list of its own properties in
    the order in which [for (key in query)] visits them. *)
Definition LocationQueryRaw := list (string * RawEntry).

(** Assigning to [__proto__] does not create a property. *)
Definition is_proto (key : string) : bool := String.eqb key "__proto__".

(** One turn of the loop of [parseQuery].  A key that the empty object
    inherits counts as present: the value then found is a function,
    which is no query value; the result is [None] for such a query. *)
Definition parse_param (query : option LocationQuery) (param : string)
    : option LocationQuery :=
  match query with
  | None => None
  | Some query =>
      let pieces := split "="%char param in
      (* decodeURIComponent *)
      let key := decode (default EmptyString (pieces !! 0%nat)) in
      (* avoid decoding null *)
      let value := option_map decode (pieces !! 1%nat) in
      match query !! key with
      | Some currentValue =>
          let currentValue :=
            match currentValue with
            | Many l => l
            | Single v => [v]
            end in
          Some (<[key := Many (currentValue ++ [value])]> query)
      | None =>
          if inherited key || is_proto key then None
          else Some (<[key := Single value]> query)
      end
  end.

Definition parseQuery (search : string) : option LocationQuery :=
  (* avoid creating an object with an empty key and empty value because
     of split('&') *)
  if String.eqb search "" || String.eqb search "?" then Some ∅
  else
    let hasLeadingIM :=
      match String.get 0 search with
      | Some c => Ascii.eqb c "?"%char
      | None => false
      end in
    let searchParams :=
      split "&"%char (if hasLeadingIM then slice1 search else search) in
    foldl parse_param (Some ∅) searchParams.

(** [v && encodeQueryProperty(v)] followed by [values[i] != null] and
    ['=' + values[i]]: the text after the equal sign, if there is one.
    A falsy value (the empty string, a falsy number) is not encoded. *)
Definition encoded_value (v : RawValue) : option string :=
  match v with
  | RString s =>
      Some (if String.eqb s "" then s else encodeQueryProperty (inl s))
  | RNumber n =>
      Some (if number_truthy n then encodeQueryProperty (inr n)
            else number_to_string n)
  | RNull => None
  | RUndefined => None
  end.

(** The inner loop over [values]: only append [&] with [i > 0]. *)
Fixpoint append_values (key : string) (first : bool)
    (values : list (option string)) (search : string) : string :=
  match values with
  | [] => search
  | v :: rest =>
      let search := (search ++ (if first then "" else "&") ++ key)%string in
      let search :=
        match v with
        | Some text => (search ++ "=" ++ text)%string
        | None => search
        end in
      append_values key false rest search
  end.

Definition stringify_entry (search : string) (entry : string * RawEntry)
    : string :=
  let '(key, value) := entry in
  let search :=
    if Nat.eqb (String.length search) 0 then search
    else (search ++ "&")%string in
  let key := encodeQueryProperty (inl key) in
  match value with
  | RawOne RNull => (search ++ key)%string   (* only null adds the value *)
  | RawOne RUndefined => search
  | RawOne v => append_values key true [encoded_value v] search
  | RawMany l => append_values key true (map encoded_value l) search
  end.

Definition stringifyQuery (query : LocationQueryRaw) : string :=
  foldl stringify_entry EmptyString query.

(** [normalizedQuery[key] = value] *)
Fixpoint set_property {V} (key : string) (value : V) (o : list (string * V))
    : list (string * V) :=
  match o with
  | [] => [(key, value)]
  | (k, v) :: rest =>
      if String.eqb k key then (k, value) :: rest
      else (k, v) :: set_property key value rest
  end.

(** [v == null ? null : '' + v] *)
Definition normalize_value (v : RawValue) : option string :=
  match v with
  | RString s => Some s
  | RNumber n => Some (number_to_string n)
  | RNull => None
  | RUndefined => None
  end.

(** The result lists the properties of the new object in the order in
    which they were created; it is [None] when the key [__proto__] had
    to be assigned. *)
Definition normalize_entry (normalizedQuery : option (list (string * QueryValue)))
    (entry : string * RawEntry) : option (list (string * QueryValue)) :=
  match normalizedQuery with
  | None => None
  | Some normalizedQuery =>
      let '(key, value) := entry in
      match value with
      | RawOne RUndefined => Some normalizedQuery
      | RawOne v =>
          if is_proto key then None
          else Some (set_property key (Single (normalize_value v))
                                  normalizedQuery)
      | RawMany l =>
          if is_proto key then None
          else Some (set_property key (Many (map normalize_value l))
                                  normalizedQuery)
      end
  end.

(** [query] may be [undefined]: the loop then has nothing to visit. *)
Definition normalizeQuery (query : option LocationQueryRaw)
    : option (list (string * QueryValue)) :=
  foldl normalize_entry (Some []) (default [] query).

End WithHost.

Arguments RString {Number} s.
Arguments RNull {Number}.
Arguments RNumber {Number} n.
Arguments RUndefined {Number}.
Arguments RawOne {Number} v.
Arguments RawMany {Number} l.

End Query.

(** ** history/common.ts: [createHref] *)

Module HistoryCommon.

Local Open Scope string_scope.

(** The text after the first [#] of [s], if there is one. *)
Fixpoint after_hash (s : string) : option string :=
  match s with
  | EmptyString => None
  | String c rest => if Ascii.eqb c "#" then Some rest else after_hash rest
  end.

(** [base.replace(BEFORE_HASH_RE, '#')] with [BEFORE_HASH_RE = /^[^#]+#/]:
    the pattern is anchored at the start and asks for at least one
    character other than [#] before the first [#]; the match, if any,
    ends at that first [#]. *)
Definition replace_before_hash (base : string) : string :=
  match base with
  | EmptyString => base
  | String c rest =>
      if Ascii.eqb c "#" then base
      else match after_hash rest with
           | Some tail => "#" ++ tail
           | None => base
           end
  end.

Definition createHref (base : string) (location : MemoryHistory.HistoryLocation)
    : string :=
  replace_before_hash base ++ location.

End HistoryCommon.

(* --------------------------------------------------------------------- *)
(** ** history/html5.ts : [useHistoryListeners], [createWebHistory]'s [go] *)
(* --------------------------------------------------------------------- *)
Module WebHistory.
Import MemoryHistory.

(** [_ScrollPositionNormalized | null | false] *)
Inductive Scroll :=
| ScrollAt (left top : Z)
| ScrollNull
| ScrollFalse.

(** [StateEntry], with the fields the interface declares. *)
Record StateEntry := mkEntry {
  e_back : option HistoryLocation;
  e_current : HistoryLocation;
  e_forward : option HistoryLocation;
  e_position : Z;
  e_replaced : bool;
  e_scroll : Scroll
}.

(** The parts of [window.location] that are read. *)
Record Location := mkLocation {
  pathname : string;
  search : string;
  hash : string
}.

(** What [useHistoryListeners] works on: the two value containers it
    shares with [useHistoryStateNavigation], the browser behind them,
    and its own closure variables.  A callback stands for its identity;
    a teardown closure is named by the callback it captured.  As in
    [MemoryHistory], a call of a callback is recorded, not run.
    [beforeUnloadListener] writes the scroll position into the state the
    browser keeps and touches nothing of what is modelled here. *)
Record state {Browser : Type} := mkState {
  currentLocation : HistoryLocation;
  historyState : option StateEntry;
  browser : Browser;
  pauseState : option HistoryLocation;
  listeners : list nat;
  teardowns : list nat;
  (** [popstate] and [beforeunload] handlers are attached to [window] *)
  attached : bool
}.
Arguments state : clear implicits.
Arguments mkState {Browser}.

(** The requests that [go] hands to the browser: [history.go(delta)]. *)
Definition BrowserRequest := Z.

(** How a call of the [popstate] handler ends: with the listener calls
    it made, or with the exception of [replace]. *)
Inductive Handled :=
| Notified (calls : list Notification)
| Threw.

Section WithHost.
Context {Browser : Type}.
(** [stripBase] of location.ts *)
Context (stripBase : string -> string -> string).
(** The [replace] argument of [useHistoryListeners]: it works on the
    shared containers and on the browser; the flag tells whether it
    threw. *)
Context (replace :
  HistoryLocation -> HistoryLocation * option StateEntry * Browser ->
  HistoryLocation * option StateEntry * Browser * bool).

Definition createCurrentLocation (base : string) (location : Location)
    : HistoryLocation :=
  match String.index 0 "#"%string base with
  | Some hashPos =>
      (* prepend the starting slash to hash so the url starts with /# *)
      let pathFromHash := Query.slice1 (hash location) in
      let pathFromHash :=
        match pathFromHash with
        | String "/" _ => pathFromHash
        | _ => ("/" ++ pathFromHash)%string
        end in
      stripBase pathFromHash ""%string
  | None =>
      let path := stripBase (pathname location) base in
      (path ++ search location ++ hash location)%string
  end.

(** [delta ? (delta > 0 ? forward : back) : unknown] *)
Definition direction_of (d : Z) : NavigationDirection :=
  if d =? 0 then unknown else if 0 <? d then forward else back.

(** [listeners.forEach(listener => listener(currentLocation.value, from,
    info))], as the calls made. *)
Definition call_listeners (s : state Browser) (from : HistoryLocation) (d : Z)
    : list Notification :=
  map (fun cb =>
         mkNotification cb (Some (currentLocation s)) (Some from)
           {| info_type := pop; direction := direction_of d; delta := d |})
      (listeners s).

(** [pauseState && pauseState === from] *)
Definition paused (s : state Browser) (from : HistoryLocation) : bool :=
  match pauseState s with
  | Some p => negb (String.eqb p ""%string) && String.eqb p from
  | None => false
  end.

(** [popStateHandler({ state })], with [window.location] as it is when
    the event arrives. *)
Definition popStateHandler (base : string) (ev : option StateEntry)
    (location : Location) (s : state Browser)
    : state Browser * Handled :=
  let to := createCurrentLocation base location in
  let from := currentLocation s in
  let fromState := historyState s in
  match ev with
  | Some st =>
      let s1 :=
        {| currentLocation := to; historyState := Some st;
           browser := browser s; pauseState := pauseState s;
           listeners := listeners s; teardowns := teardowns s;
           attached := attached s |} in
      if paused s from then
        (* ignore the popstate and reset the pauseState *)
        ({| currentLocation := to; historyState := Some st;
            browser := browser s; pauseState := None;
            listeners := listeners s; teardowns := teardowns s;
            attached := attached s |}, Notified [])
      else
        let d :=
          match fromState with
          | Some fs => e_position st - e_position fs
          | None => 0
          end in
        (s1, Notified (call_listeners s1 from d))
  | None =>
      let '(loc', st', b', threw) :=
        replace to (currentLocation s, historyState s, browser s) in
      let s1 :=
        {| currentLocation := loc'; historyState := st';
           browser := b'; pauseState := pauseState s;
           listeners := listeners s; teardowns := teardowns s;
           attached := attached s |} in
      if threw then (s1, Threw)
      else (s1, Notified (call_listeners s1 from 0))
  end.

Definition pauseListeners (s : state Browser) : state Browser :=
  {| currentLocation := currentLocation s; historyState := historyState s;
     browser := browser s; pauseState := Some (currentLocation s);
     listeners := listeners s; teardowns := teardowns s;
     attached := attached s |}.

(** The teardown that [listen(callback)] creates. *)
Definition teardown (cb : nat) (s : state Browser) : state Browser :=
  match MemoryHistoryTeardown.indexOf (listeners s) cb with
  | Some index =>
      {| currentLocation := currentLocation s; historyState := historyState s;
         browser := browser s; pauseState := pauseState s;
         listeners := JsArray.splice_one (listeners s) (Z.of_nat index);
         teardowns := teardowns s; attached := attached s |}
  | None => s
  end.

(** [listen(callback)]; the caller receives [teardown callback]. *)
Definition listen (cb : nat) (s : state Browser) : state Browser :=
  {| currentLocation := currentLocation s; historyState := historyState s;
     browser := browser s; pauseState := pauseState s;
     listeners := JsArray.push (listeners s) cb;
     teardowns := JsArray.push (teardowns s) cb;
     attached := attached s |}.

Definition destroy (s : state Browser) : state Browser :=
  let s1 := foldl (fun s cb => teardown cb s) s (teardowns s) in
  {| currentLocation := currentLocation s1; historyState := historyState s1;
     browser := browser s1; pauseState := pauseState s1;
     listeners := listeners s1; teardowns := []; attached := false |}.

(** [go(delta, triggerListeners = true)] of [createWebHistory]; the
    browser answers [history.go] later, with a [popstate] event. *)
Definition go (d : Z) (triggerListeners : bool) (s : state Browser)
    : state Browser * BrowserRequest :=
  (if triggerListeners then s else pauseListeners s, d).

(** The browser delivers [popstate] to the handler while it is attached. *)
Definition popstate (base : string) (ev : option StateEntry)
    (location : Location) (s : state Browser)
    : state Browser * Handled :=
  if attached s then popStateHandler base ev location s else (s, Notified []).

(** What [useHistoryListeners] starts from and what its client and the
    browser can do to it. *)
Definition start (loc : HistoryLocation) (st : option StateEntry) (b : Browser)
    : state Browser :=
  {| currentLocation := loc; historyState := st; browser := b;
     pauseState := None; listeners := []; teardowns := []; attached := true |}.

Inductive call :=
| Listen (cb : nat)
| Teardown (cb : nat)
| Go (d : Z) (triggerListeners : bool)
| PopState (ev : option StateEntry) (location : Location)
| Destroy.

Definition exec (base : string) (s : state Browser) (c : call)
    : state Browser :=
  match c with
  | Listen cb => listen cb s
  | Teardown cb => teardown cb s
  | Go d t => fst (go d t s)
  | PopState ev location => fst (popstate base ev location s)
  | Destroy => destroy s
  end.

End WithHost.

End WebHistory.

(* --------------------------------------------------------------------- *)
(** ** router.ts : [addRoute], [removeRoute], [getRoutes], [hasRoute]     *)
(* --------------------------------------------------------------------- *)
Module RouterRoutes.
Import Matcher.

(** The build: [__DEV__]. *)
Class Build := mkBuild {
  DEV : bool
}.

Section WithEnv.
Context (E : Env) {build : Build}.

(** [addRoute(parentOrRoute, route?)].  [isRouteName] separates a parent
    name from a record; [route!] is not checked, so that a missing
    [route] reaches [normalizeRouteRecord], which throws on it before
    anything is changed ([None]).  The result holds the matcher that the
    returned function removes. *)
Definition addRoute (parentOrRoute : RouteRecordName + RouteRecordRaw)
    (route : option RouteRecordRaw) (st : state)
    : option (option RouteRecordMatcher * state) :=
  match parentOrRoute with
  | inl parentName =>
      let parent := getRecordMatcher st parentName in
      match route with
      | Some record => Some (Matcher.addRoute E record parent None st)
      | None => None
      end
  | inr record => Some (Matcher.addRoute E record None None st)
  end.

(** What [addRoute] returns:
    [originalMatcher ? () => removeRoute(originalMatcher) : noop]. *)
Definition remover (originalMatcher : option RouteRecordMatcher) (st : state)
    : state :=
  match originalMatcher with
  | Some m => Matcher.removeRoute (inr m) st
  | None => st
  end.

(** [removeRoute(name)]; the flag tells whether it warned, which it
    does for a name that is not registered, under [__DEV__] only. *)
Definition removeRoute (n : RouteRecordName) (st : state) : state * bool :=
  match getRecordMatcher st n with
  | Some recordMatcher => (Matcher.removeRoute (inr recordMatcher) st, false)
  | None => (st, DEV)
  end.

Definition getRoutes (st : state) : list RouteRecordNormalized :=
  map record (Matcher.getRoutes st).

(** [!!matcher.getRecordMatcher(name)] *)
Definition hasRoute (st : state) (n : RouteRecordName) : bool :=
  match getRecordMatcher st n with
  | Some _ => true
  | None => false
  end.

(** *** The route table as a client drives it

    Besides the two functions the client holds what [addRoute] returned
    to it, in call order. *)
Inductive call :=
| AddRoute (parentOrRoute : RouteRecordName + RouteRecordRaw)
           (route : option RouteRecordRaw)
| RemoveRoute (n : RouteRecordName)
| CallRemover (i : nat).

Record client := mkClient {
  registry : state;
  removers : list (option RouteRecordMatcher)
}.

Definition exec (cl : client) (c : call) : client :=
  match c with
  | AddRoute parentOrRoute route =>
      match addRoute parentOrRoute route (registry cl) with
      | Some (originalMatcher, st) =>
          {| registry := st;
             removers := JsArray.push (removers cl) originalMatcher |}
      | None => cl
      end
  | RemoveRoute n =>
      {| registry := fst (removeRoute n (registry cl));
         removers := removers cl |}
  | CallRemover i =>
      match removers cl !! i with
      | Some originalMatcher =>
          {| registry := remover originalMatcher (registry cl);
             removers := removers cl |}
      | None => cl
      end
  end.

(** [createRouter(options)] starts from [createRouterMatcher(
    options.routes, options)], whose [routes.forEach(route =>
    addRoute(route))] is a prefix of [AddRoute] calls. *)
Definition run (cs : list call) : client :=
  foldl exec {| registry := Matcher.empty; removers := [] |} cs.

End WithEnv.

End RouterRoutes.

(* --------------------------------------------------------------------- *)
(** ** matcher/index.ts : the development checks on param keys            *)
(* --------------------------------------------------------------------- *)
Module MatcherChecks.
Import Matcher.

Definition isSameParam (a b : ParamKey) : bool :=
  String.eqb (k_name a) (k_name b) &&
  Bool.eqb (optional a) (optional b) &&
  Bool.eqb (repeatable a) (repeatable b).

(** The message handed to [warn], by the three values it is built from. *)
Record Warning := mkWarning {
  w_path : string;
  w_other_path : string;
  w_param : string
}.

(** [for (let key of ks) if (!others.find(isSameParam.bind(null, key)))
    return warn(...)]: the key the loop stops at. *)
Definition first_missing (ks others : list ParamKey) : option ParamKey :=
  List.find
    (fun key =>
       match List.find (isSameParam key) others with
       | Some _ => false
       | None => true
       end)
    ks.

(** [checkSameParams(a, b)]: [a] is the original record, [b] the alias;
    the message names [b.record.path], then [a.record.path]. *)
Definition checkSameParams (a b : RouteRecordMatcher) : option Warning :=
  match first_missing (keys (parser a)) (keys (parser b)) with
  | Some key =>
      Some (mkWarning (path (record b)) (path (record a)) (k_name key))
  | None =>
      match first_missing (keys (parser b)) (keys (parser a)) with
      | Some key =>
          Some (mkWarning (path (record b)) (path (record a)) (k_name key))
      | None => None
      end
  end.

(** [checkMissingParamsInAbsolutePath(record, parent)]; the message names
    [record.record.path], then [parent.record.path]. *)
Definition checkMissingParamsInAbsolutePath (r parent : RouteRecordMatcher)
    : option Warning :=
  match first_missing (keys (parser parent)) (keys (parser r)) with
  | Some key =>
      Some (mkWarning (path (record r)) (path (record parent)) (k_name key))
  | None => None
  end.

End MatcherChecks.

(* ===================================================================== *)
(** * Part II -- theorems                                                 *)
(* ===================================================================== *)

Section MemoryHistoryFacts.
Import MemoryHistory.

Definition history_inv (s : state) : Prop :=
  0 <= position s < Z.of_nat (length (queue s)).

Lemma history_inv_setLocation loc s :
  -1 <= position s < Z.of_nat (length (queue s)) ->
  history_inv (setLocation loc s) /\
  queue (setLocation loc s)
    = take (Z.to_nat (position s + 1)) (queue s) ++ [loc] /\
  position (setLocation loc s) = position s + 1.
Proof.
  intros Hp. unfold setLocation, history_inv.
  destruct (Z.eqb_spec (position s + 1) (Z.of_nat (length (queue s)))) as [E|E];
    cbn [queue position]; unfold JsArray.push, JsArray.splice_from,
      JsArray.splice_start.
  - rewrite E, Nat2Z.id, firstn_all. rewrite length_app. cbn. split; [lia|done].
  - destruct (Z.ltb_spec (position s + 1) 0); [lia|].
    rewrite Z.min_l by lia.
    rewrite length_app, length_take. cbn. split; [lia|done].
Qed.

Lemma history_inv_exec s c : history_inv s -> history_inv (exec s c).
Proof.
  intros H. destruct c as [to|to|d t| |]; cbn [exec].
  - apply history_inv_setLocation. unfold history_inv in H. lia.
  - unfold replace. apply history_inv_setLocation. cbn [queue position].
    unfold history_inv in H. unfold JsArray.splice_one, JsArray.splice_start.
    destruct (Z.ltb_spec (position s) 0); [lia|].
    rewrite Z.min_l by lia.
    rewrite length_app, length_take, length_drop. lia.
  - unfold go. destruct t; cbn [fst]; unfold history_inv in *;
      cbn [queue position]; lia.
  - exact H.
  - exact H.
Qed.

Lemma history_inv_run cs : history_inv (run cs).
Proof.
  unfold run. induction cs as [|c cs IH] using rev_ind.
  - cbn. unfold history_inv. cbn. lia.
  - rewrite foldl_app. cbn [foldl]. now apply history_inv_exec.
Qed.

(** C10.  For the in-memory history, after any sequence of [push],
    [replace], [go] (any integer delta, with or without listeners),
    [listen] and [destroy] calls: the position is a valid index of the
    queue ([go] clamps), the reported location is the queue entry at
    the position (never [undefined]), and a further [push] keeps exactly
    the entries up to the position, dropping every forward entry, before
    it appends the new one and moves onto it. *)
Theorem memory_history_position_in_range (cs : list call) :
  let s := run cs in
  (0 <= position s < Z.of_nat (length (queue s))) /\
  (exists l, location s = Some l /\
             queue s !! Z.to_nat (position s) = Some l) /\
  (forall d t,
      position (fst (go d t s))
      = Z.max 0 (Z.min (position s + d) (Z.of_nat (length (queue s)) - 1)) /\
      queue (fst (go d t s)) = queue s) /\
  (forall to,
      queue (push to s)
      = take (Z.to_nat (position s) + 1) (queue s) ++ [to] /\
      position (push to s) = position s + 1 /\
      location (push to s) = Some to).
Proof.
  intros s. pose proof (history_inv_run cs) as H. fold s in H.
  unfold history_inv in H. split; [exact H|]. split; [|split].
  - unfold location, JsArray.get.
    destruct (Z.ltb_spec (position s) 0); [lia|].
    destruct (lookup_lt_is_Some_2 (queue s) (Z.to_nat (position s)))
      as [l Hl]; [lia|]. exists l. now rewrite Hl.
  - intros d t. unfold go. destruct t; cbn [fst position queue]; done.
  - intros to. unfold push.
    destruct (history_inv_setLocation to s) as (Hi & Hq & Hp); [lia|].
    split; [|split; [exact Hp|]].
    + rewrite Hq. f_equal. f_equal. lia.
    + unfold location, JsArray.get. rewrite Hp, Hq.
      destruct (Z.ltb_spec (position s + 1) 0); [lia|].
      rewrite lookup_app_r; rewrite length_take; [|lia].
      replace (Z.to_nat (position s + 1)
               - Z.to_nat (position s + 1) `min` length (queue s))%nat
        with 0%nat by lia. done.
Qed.

End MemoryHistoryFacts.

Section ResolveFacts.
Import Matcher.
Context {host : Host}.

Lemma find_first_accepting (p : string) l1 m l2 :
  Forall (fun x => re_test (parser x) p = false) l1 ->
  re_test (parser m) p = true ->
  List.find (fun x => re_test (parser x) p) (l1 ++ m :: l2) = Some m.
Proof.
  induction 1 as [|x l1 Hx _ IH]; intros Hm; cbn.
  - now rewrite Hm.
  - rewrite Hx. now apply IH.
Qed.

Lemma find_none_accepting (p : string) l :
  Forall (fun x => re_test (parser x) p = false) l ->
  List.find (fun x => re_test (parser x) p) l = None.
Proof.
  induction 1 as [|x l Hx _ IH]; cbn; [done|]. now rewrite Hx.
Qed.

(** C6.  Resolving a target given by path (no usable name): the matcher
    chosen is the first of the ranked sequence whose predicate accepts
    the path, and the location carries its name, its parsed parameters
    and its parent chain; when no matcher accepts the path, [resolve]
    still returns a location, with that path, an empty matched chain,
    empty params (and meta) and no name. *)
Theorem resolve_by_path_first_match
    (st : state) (location : MatcherLocationRaw) (p : string)
    (currentLocation : MatcherLocation)
    (Hname : truthy_name (l_name location) = None)
    (Hpath : l_path location = Some p) :
  (forall l1 m l2,
      matchers st = l1 ++ m :: l2 ->
      Forall (fun x => re_test (parser x) p = false) l1 ->
      re_test (parser m) p = true ->
      resolve st location currentLocation
      = inr {| loc_name := name (record m);
               loc_path := p;
               loc_params := default ∅ (parse (parser m) p);
               loc_matched := matched_chain m;
               loc_meta := mergeMetaFields (matched_chain m) |}) /\
  (Forall (fun x => re_test (parser x) p = false) (matchers st) ->
   resolve st location currentLocation
   = inr {| loc_name := None; loc_path := p; loc_params := ∅;
            loc_matched := []; loc_meta := ∅ |}).
Proof.
  split.
  - intros l1 m l2 Hl Hl1 Hm. unfold resolve. rewrite Hname, Hpath.
    unfold find_by_path. rewrite Hl.
    now rewrite (find_first_accepting p l1 m l2 Hl1 Hm).
  - intros Hall. unfold resolve. rewrite Hname, Hpath.
    unfold find_by_path. now rewrite (find_none_accepting p _ Hall).
Qed.

(** C7, as amended.  Resolving a target given by a name that is not
    the empty string and that the name index does not hold throws
    [MATCHER_NOT_FOUND]; no location is returned.  [resolve] only reads
    the registry, which is the same before and after. *)
Theorem resolve_unknown_name_throws
    (st : state) (location : MatcherLocationRaw) (n : RouteRecordName)
    (currentLocation : MatcherLocation)
    (Hname : truthy_name (l_name location) = Some n)
    (Habsent : matcherMap st !! n = None) :
  resolve st location currentLocation = inl MATCHER_NOT_FOUND.
Proof.
  unfold resolve. now rewrite Hname, Habsent.
Qed.

End ResolveFacts.

(** ** Removal: the recursion always returns *)
Section RemovalFacts.
Import Matcher.

(** What a removal may do to the registry: take matchers out of the
    sequence and names out of the index, nothing else. *)
Record shrinks (st st' : state) : Prop := mkShrinks {
  shrinks_matchers : sublist (matchers st') (matchers st);
  shrinks_map : matcherMap st' ⊆ matcherMap st;
  shrinks_children : children_of st' = children_of st;
  shrinks_alias : alias_of st' = alias_of st;
  shrinks_next : next_id st' = next_id st;
  shrinks_inserted : inserted st' = inserted st
}.

Lemma shrinks_refl st : shrinks st st.
Proof. now constructor. Qed.

Lemma shrinks_trans st1 st2 st3 :
  shrinks st1 st2 -> shrinks st2 st3 -> shrinks st1 st3.
Proof.
  intros [] []. constructor; try congruence.
  - etransitivity; eassumption.
  - etransitivity; eassumption.
Qed.

Lemma shrinks_length st st' :
  shrinks st st' -> (length (matchers st') <= length (matchers st))%nat.
Proof. intros []. now apply sublist_length. Qed.

Lemma shrinks_get_children st st' m :
  shrinks st st' -> get_children st' m = get_children st m.
Proof. intros []. unfold get_children. congruence. Qed.

Lemma shrinks_get_alias st st' m :
  shrinks st st' -> get_alias st' m = get_alias st m.
Proof. intros []. unfold get_alias. congruence. Qed.

Lemma splice_one_sublist {A} (l : list A) (z : Z) :
  sublist (JsArray.splice_one l z) l.
Proof.
  unfold JsArray.splice_one.
  rewrite <- delete_take_drop. apply sublist_delete.
Qed.

Lemma splice_one_index {A} (l : list A) (i : nat) :
  JsArray.splice_one l (Z.of_nat i) = delete i l.
Proof.
  unfold JsArray.splice_one, JsArray.splice_start.
  destruct (Z.ltb_spec (Z.of_nat i) 0); [lia|].
  destruct (decide (i <= length l)%nat).
  - rewrite Z.min_l by lia. rewrite Nat2Z.id. now rewrite delete_take_drop.
  - rewrite Z.min_r by lia. rewrite Nat2Z.id.
    rewrite firstn_all, drop_ge by lia.
    rewrite delete_take_drop, take_ge, drop_ge by lia. done.
Qed.

Lemma indexOf_lt l m i : indexOf l m = Some i -> (i < length l)%nat.
Proof.
  revert i. induction l as [|x l IH]; intros i; cbn; [done|].
  destruct (Nat.eqb (mid x) (mid m)).
  - intros [= <-]. lia.
  - destruct (indexOf l m) as [j|]; cbn; [|done].
    intros [= <-]. specialize (IH j eq_refl). lia.
Qed.

Lemma detach_shrinks st m i : shrinks st (detach i m st).
Proof.
  unfold detach.
  destruct (truthy_name (name (record m))) as [n|];
    constructor; cbn; try done; try apply splice_one_sublist.
  apply delete_subseteq.
Qed.

Lemma detach_length st m i :
  indexOf (matchers st) m = Some i ->
  S (length (matchers (detach i m st))) = length (matchers st).
Proof.
  intros Hi. apply indexOf_lt in Hi.
  assert (matchers (detach i m st) = delete i (matchers st)) as ->.
  { unfold detach. destruct (truthy_name _); cbn; apply splice_one_index. }
  rewrite length_delete; [lia|]. now apply lookup_lt_is_Some_2.
Qed.

Lemma forEach_returns {A} (f : A -> state -> option state) (k : nat) :
  (forall x st, (length (matchers st) < k)%nat ->
                exists st', f x st = Some st' /\ shrinks st st') ->
  forall l st, (length (matchers st) < k)%nat ->
               exists st', forEach f l st = Some st' /\ shrinks st st'.
Proof.
  intros Hf. induction l as [|x l IH]; intros st Hk; cbn.
  - exists st. split; [done|apply shrinks_refl].
  - destruct (Hf x st Hk) as (st1 & -> & H1).
    destruct (IH st1) as (st2 & -> & H2).
    { apply shrinks_length in H1. lia. }
    exists st2. split; [done|]. eapply shrinks_trans; eassumption.
Qed.

(** With more fuel than [matchers] has entries the recursion returns. *)
Lemma removeMatcher_fuel_returns fuel :
  forall m st, (length (matchers st) < fuel)%nat ->
    exists st', removeMatcher_fuel fuel m st = Some st' /\ shrinks st st'.
Proof.
  induction fuel as [|fuel IH]; intros m st Hlen; [lia|].
  cbn [removeMatcher_fuel].
  destruct (indexOf (matchers st) m) as [i|] eqn:Hi.
  - pose proof (detach_length st m i Hi) as Hd.
    pose proof (detach_shrinks st m i) as Hs.
    destruct (forEach_returns (removeMatcher_fuel fuel) fuel IH
                (get_children st m) (detach i m st)) as (st2 & -> & H2);
      [lia|].
    destruct (forEach_returns (removeMatcher_fuel fuel) fuel IH
                (get_alias st m) st2) as (st3 & -> & H3).
    { apply shrinks_length in H2. lia. }
    exists st3. split; [done|].
    eapply shrinks_trans; [exact Hs|]. eapply shrinks_trans; eassumption.
  - exists st. split; [done|apply shrinks_refl].
Qed.

Lemma forEach_fuel_mono {A} (f g : A -> state -> option state) :
  (forall x st st', f x st = Some st' -> g x st = Some st') ->
  forall l st st', forEach f l st = Some st' -> forEach g l st = Some st'.
Proof.
  intros Hfg. induction l as [|x l IH]; intros st st'; cbn; [done|].
  destruct (f x st) as [st1|] eqn:Hf; [|done].
  rewrite (Hfg _ _ _ Hf). apply IH.
Qed.

(** The result does not depend on how much fuel was left over. *)
Lemma removeMatcher_fuel_mono fuel :
  forall fuel' m st st', (fuel <= fuel')%nat ->
    removeMatcher_fuel fuel m st = Some st' ->
    removeMatcher_fuel fuel' m st = Some st'.
Proof.
  induction fuel as [|fuel IH]; intros fuel' m st st' Hle; [done|].
  destruct fuel' as [|fuel']; [lia|]. cbn [removeMatcher_fuel].
  destruct (indexOf (matchers st) m) as [i|]; [|done].
  destruct (forEach (removeMatcher_fuel fuel) _ _) as [st2|] eqn:H2; [|done].
  intros H3.
  assert (forall x s s', removeMatcher_fuel fuel x s = Some s' ->
                         removeMatcher_fuel fuel' x s = Some s') as Hm.
  { intros x s s'. apply IH. lia. }
  rewrite (forEach_fuel_mono _ _ Hm _ _ _ H2).
  apply (forEach_fuel_mono _ _ Hm _ _ _ H3).
Qed.

Lemma removeMatcher_fuel_total fuel m st :
  (length (matchers st) < fuel)%nat ->
  removeMatcher_fuel fuel m st = Some (removeMatcher m st).
Proof.
  intros Hlen. unfold removeMatcher, enough_fuel.
  destruct (removeMatcher_fuel_returns fuel m st Hlen) as (st1 & H1 & _).
  destruct (removeMatcher_fuel_returns (S (length (matchers st))) m st)
    as (st2 & H2 & _); [lia|].
  rewrite H2. cbn. rewrite H1. f_equal.
  apply (removeMatcher_fuel_mono _ fuel) in H2; [|lia]. congruence.
Qed.

Lemma removeMatcher_shrinks m st : shrinks st (removeMatcher m st).
Proof.
  destruct (removeMatcher_fuel_returns (enough_fuel st) m st)
    as (st' & H & Hs); [unfold enough_fuel; lia|].
  unfold removeMatcher. now rewrite H.
Qed.

Lemma forEach_total (fuel : nat) l :
  forall st, (length (matchers st) < fuel)%nat ->
    forEach (removeMatcher_fuel fuel) l st
    = Some (foldl (fun s x => removeMatcher x s) st l).
Proof.
  induction l as [|x l IH]; intros st Hlen; cbn [forEach foldl]; [done|].
  rewrite (removeMatcher_fuel_total fuel x st Hlen).
  apply IH. pose proof (shrinks_length _ _ (removeMatcher_shrinks x st)). lia.
Qed.

Lemma removeAll_shrinks l : forall st,
  shrinks st (foldl (fun s x => removeMatcher x s) st l).
Proof.
  induction l as [|x l IH]; intros st; cbn [foldl]; [apply shrinks_refl|].
  eapply shrinks_trans; [apply removeMatcher_shrinks|apply IH].
Qed.

(** The recursion of the source, on the total function: a matcher that
    is in the sequence is taken out of it and of the name index, then
    [removeRoute] runs on each of its children and on each of its
    aliases; a matcher that is not in the sequence is left alone. *)
Lemma removeMatcher_unfold m st :
  removeMatcher m st
  = match indexOf (matchers st) m with
    | Some index =>
        foldl (fun s x => removeMatcher x s)
          (foldl (fun s x => removeMatcher x s) (detach index m st)
                 (get_children st m))
          (get_alias st m)
    | None => st
    end.
Proof.
  unfold removeMatcher at 1. unfold enough_fuel. cbn [removeMatcher_fuel].
  destruct (indexOf (matchers st) m) as [i|] eqn:Hi; [|done].
  pose proof (detach_length st m i Hi) as Hd.
  rewrite forEach_total by lia. rewrite forEach_total; [done|].
  pose proof (shrinks_length _ _ (removeAll_shrinks (get_children st m)
                                    (detach i m st))). lia.
Qed.

Lemma removeName_unfold n st :
  removeName n st
  = match matcherMap st !! n with
    | Some matcher =>
        let st1 := set_matcherMap (delete n (matcherMap st)) st in
        let index :=
          match indexOf (matchers st1) matcher with
          | Some i => Z.of_nat i
          | None => -1
          end in
        let st2 := set_matchers (JsArray.splice_one (matchers st1) index) st1 in
        foldl (fun s x => removeMatcher x s)
          (foldl (fun s x => removeMatcher x s) st2 (get_children st matcher))
          (get_alias st matcher)
    | None => st
    end.
Proof.
  unfold removeName, removeName_fuel, enough_fuel.
  destruct (matcherMap st !! n) as [matcher|]; [|done]. cbn zeta.
  set (st2 := set_matchers _ _).
  assert (length (matchers st2) <= length (matchers st))%nat as Hl.
  { apply sublist_length. unfold st2. cbn. apply splice_one_sublist. }
  rewrite forEach_total by lia. rewrite forEach_total; [done|].
  pose proof (shrinks_length _ _ (removeAll_shrinks (get_children st matcher)
                                    st2)). lia.
Qed.

Lemma removeName_shrinks n st : shrinks st (removeName n st).
Proof.
  rewrite removeName_unfold.
  destruct (matcherMap st !! n) as [matcher|]; [|apply shrinks_refl].
  cbn zeta. eapply shrinks_trans; [|apply removeAll_shrinks].
  eapply shrinks_trans; [|apply removeAll_shrinks].
  constructor; cbn; try done.
  - apply splice_one_sublist.
  - apply delete_subseteq.
Qed.

Lemma removeRoute_shrinks ref st : shrinks st (removeRoute ref st).
Proof.
  destruct ref; [apply removeName_shrinks|apply removeMatcher_shrinks].
Qed.

End RemovalFacts.

(** ** Invariants of the registry *)
Section RegistryShape.
Import Matcher.
Context (E : Env).

Definition cmp (x y : RouteRecordMatcher) : Z :=
  comparePathParserScore E (parser x) (parser y).

(** [a] was handed to [insertMatcher] before [b]. *)
Definition before (log : list nat) (a b : nat) : Prop :=
  exists i j, (i < j)%nat /\ log !! i = Some a /\ log !! j = Some b.

(** [x] may stand before [y] in the ranked sequence. *)
Definition ranks_before (log : list nat) (x y : RouteRecordMatcher) : Prop :=
  cmp x y <= 0 /\ (cmp x y = 0 -> before log (mid x) (mid y)).

(** Every entry of the name index is a canonical matcher of that name. *)
Definition canonical_index (st : state) : Prop :=
  forall n m, matcherMap st !! n = Some m ->
              truthy_name (name (record m)) = Some n /\
              isAliasRecord m = false.

(** The shape every reachable registry has, whatever the comparator. *)
Record registry_wf (st : state) : Prop := mkWf {
  wf_logged : forall x, x ∈ matchers st -> mid x ∈ inserted st;
  wf_log_nodup : NoDup (inserted st);
  wf_log_bound : forall i, i ∈ inserted st -> (i < next_id st)%nat;
  wf_nodup : NoDup (mid <$> matchers st);
  wf_index : canonical_index st
}.

Record registry_inv (st : state) : Prop := mkInv {
  inv_ranked : StronglySorted (ranks_before (inserted st)) (matchers st);
  inv_wf : registry_wf st
}.

(** What an addition may do: allocate identities, insert new matchers,
    remove old ones. *)
Record grows (st st' : state) : Prop := mkGrows {
  grows_next : (next_id st <= next_id st')%nat;
  grows_log : exists l, inserted st' = inserted st ++ l /\
                        forall i, i ∈ l -> (next_id st <= i)%nat;
  grows_matchers : forall x, x ∈ matchers st' ->
                             x ∈ matchers st \/ (next_id st <= mid x)%nat
}.

Lemma grows_refl st : grows st st.
Proof.
  constructor; [lia| |auto].
  exists []. rewrite app_nil_r. split; [done|]. intros i Hi. inv Hi.
Qed.

Lemma grows_trans st1 st2 st3 : grows st1 st2 -> grows st2 st3 -> grows st1 st3.
Proof.
  intros [H1 (l1 & E1 & B1) M1] [H2 (l2 & E2 & B2) M2]. constructor.
  - lia.
  - exists (l1 ++ l2). rewrite E2, E1, app_assoc. split; [done|].
    intros i [Hi|Hi]%elem_of_app; [auto|]. specialize (B2 i Hi). lia.
  - intros x Hx. destruct (M2 x Hx) as [Hx2|Hx2]; [|right; lia].
    apply M1, Hx2.
Qed.

Lemma shrinks_grows st st' : shrinks st st' -> grows st st'.
Proof.
  intros []. constructor.
  - lia.
  - exists []. rewrite app_nil_r. split; [done|]. intros i Hi. inv Hi.
  - intros x Hx. left. eapply sublist_subseteq; eassumption.
Qed.

Lemma StronglySorted_sublist {A} (R : relation A) l1 l2 :
  sublist l1 l2 -> StronglySorted R l2 -> StronglySorted R l1.
Proof.
  induction 1 as [|x l1 l2 Hs IH|x l1 l2 Hs IH]; intros H2.
  - constructor.
  - apply StronglySorted_cons in H2 as [Hx H2].
    apply StronglySorted_cons. split; [|auto].
    apply Forall_forall. intros y Hy.
    rewrite Forall_forall in Hx. apply Hx.
    eapply sublist_subseteq; eassumption.
  - apply StronglySorted_cons in H2 as [_ H2]. auto.
Qed.

Lemma StronglySorted_impl {A} (R1 R2 : relation A) l :
  (forall x y, R1 x y -> R2 x y) -> StronglySorted R1 l -> StronglySorted R2 l.
Proof.
  intros HR. induction 1 as [|x l _ IH Hx]; constructor; [done|].
  eapply Forall_impl; [exact Hx|]. auto.
Qed.

Lemma shrinks_wf st st' : shrinks st st' -> registry_wf st -> registry_wf st'.
Proof.
  intros [Hm Hmap _ _ Hn Hi] [I2 I3 I4 I5 I6]. constructor.
  - intros x Hx. rewrite Hi. apply I2. eapply sublist_subseteq; eassumption.
  - now rewrite Hi.
  - rewrite Hi, Hn. exact I4.
  - eapply sublist_NoDup; [exact I5|]. now apply fmap_sublist.
  - intros n m Hnm. apply I6. eapply lookup_weaken; eassumption.
Qed.

Lemma shrinks_inv st st' : shrinks st st' -> registry_inv st -> registry_inv st'.
Proof.
  intros Hs [I1 Hwf]. constructor; [|eapply shrinks_wf; eassumption].
  destruct Hs as [Hm _ _ _ _ Hi].
  rewrite Hi. eapply StronglySorted_sublist; eassumption.
Qed.

Lemma fresh_wf st : registry_wf st -> registry_wf (snd (fresh st)).
Proof.
  intros [I2 I3 I4 I5 I6]. constructor; cbn; try done.
  intros i Hi. specialize (I4 i Hi). lia.
Qed.

Lemma fresh_inv st : registry_inv st -> registry_inv (snd (fresh st)).
Proof. intros [I1 Hwf]. constructor; [exact I1|now apply fresh_wf]. Qed.

Lemma fresh_grows st : grows st (snd (fresh st)).
Proof.
  constructor; cbn; [lia| |auto].
  exists []. rewrite app_nil_r. split; [done|]. intros i Hi. inv Hi.
Qed.

Lemma push_child_wf o m st : registry_wf st -> registry_wf (push_child o m st).
Proof. intros []. now constructor. Qed.

Lemma push_alias_wf o m st : registry_wf st -> registry_wf (push_alias o m st).
Proof. intros []. now constructor. Qed.

Lemma push_child_inv o m st : registry_inv st -> registry_inv (push_child o m st).
Proof. intros [I1 Hwf]. constructor; [exact I1|now apply push_child_wf]. Qed.

Lemma push_alias_inv o m st : registry_inv st -> registry_inv (push_alias o m st).
Proof. intros [I1 Hwf]. constructor; [exact I1|now apply push_alias_wf]. Qed.

Lemma push_child_grows o m st : grows st (push_child o m st).
Proof.
  constructor; cbn; [lia| |auto].
  exists []. rewrite app_nil_r. split; [done|]. intros i Hi. inv Hi.
Qed.

Lemma push_alias_grows o m st : grows st (push_alias o m st).
Proof.
  constructor; cbn; [lia| |auto].
  exists []. rewrite app_nil_r. split; [done|]. intros i Hi. inv Hi.
Qed.

Lemma splice_insert_elem (l : list RouteRecordMatcher) i m x :
  x ∈ JsArray.splice_insert l i m <-> x = m \/ x ∈ l.
Proof.
  unfold JsArray.splice_insert.
  rewrite <- (take_drop i l) at 3.
  rewrite !elem_of_app, elem_of_cons. tauto.
Qed.

Lemma insertMatcher_wf m st :
  registry_wf st ->
  mid m ∉ inserted st ->
  (mid m < next_id st)%nat ->
  registry_wf (insertMatcher E m st).
Proof.
  intros [I2 I3 I4 I5 I6] Hfresh Hlt.
  constructor; cbn [insertMatcher matchers matcherMap inserted next_id].
  - intros x Hx. apply elem_of_app.
    apply splice_insert_elem in Hx as [->|Hx'];
      [right; apply list_elem_of_singleton; done|].
    left. now apply I2.
  - apply NoDup_app. split; [done|]. split; [|apply NoDup_singleton].
    intros i Hi ->%list_elem_of_singleton. contradiction.
  - intros i [Hi| ->%list_elem_of_singleton]%elem_of_app; auto.
  - unfold JsArray.splice_insert.
    rewrite fmap_app, fmap_cons.
    rewrite <- (take_drop (insertion_index E m (matchers st)) (matchers st)) in I5.
    rewrite fmap_app in I5. apply NoDup_app in I5 as (N1 & N2 & N3).
    assert (mid m ∉ mid <$> matchers st) as Hnot.
    { intros (x & Hx & Hin)%list_elem_of_fmap. apply Hfresh.
      rewrite Hx. now apply I2. }
    rewrite <- (take_drop (insertion_index E m (matchers st)) (matchers st)),
      fmap_app in Hnot.
    apply NoDup_app. split; [done|]. split.
    + intros i Hi [->|Hi']%elem_of_cons; [|now apply (N2 i)].
      apply Hnot, elem_of_app. now left.
    + apply NoDup_cons. split; [|done].
      intros Hi. apply Hnot, elem_of_app. now right.
  - intros n x. unfold insertMatcher. cbn [matcherMap].
    destruct (truthy_name (name (record m))) as [n'|] eqn:Hn;
      [|exact (I6 n x)].
    destruct (isAliasRecord m) eqn:Ha; [exact (I6 n x)|].
    destruct (decide (n' = n)) as [->|Hne].
    + rewrite lookup_insert_eq. intros [= <-]. done.
    + rewrite lookup_insert_ne by done. exact (I6 n x).
Qed.

Lemma empty_wf : registry_wf empty.
Proof.
  constructor; cbn.
  - intros x Hx. inv Hx.
  - constructor.
  - intros i Hi. inv Hi.
  - constructor.
  - intros n m Hm. cbn in Hm. now rewrite lookup_empty in Hm.
Qed.

End RegistryShape.

Section RankedInsertion.
Import Matcher.
Context (E : Env).

(** The comparator is a total preorder on parsers: swapping the
    arguments flips the sign, and "not after" is transitive. *)
Hypothesis cmp_antisym :
  forall a b, Z.sgn (comparePathParserScore E b a)
              = - Z.sgn (comparePathParserScore E a b).
Hypothesis cmp_trans :
  forall a b c, comparePathParserScore E a b <= 0 ->
                comparePathParserScore E b c <= 0 ->
                comparePathParserScore E a c <= 0.

Lemma cmp_flip x y : 0 <= cmp E x y -> cmp E y x <= 0.
Proof. unfold cmp. intros H. pose proof (cmp_antisym (parser x) (parser y)). lia. Qed.

Lemma cmp_strict_trans x y z : cmp E x y < 0 -> cmp E y z <= 0 -> cmp E x z < 0.
Proof.
  unfold cmp. intros Hxy Hyz.
  destruct (Z.ltb_spec (comparePathParserScore E (parser x) (parser z)) 0)
    as [|Hge]; [done|].
  pose proof (cmp_antisym (parser x) (parser z)).
  pose proof (cmp_antisym (parser x) (parser y)).
  assert (comparePathParserScore E (parser z) (parser x) <= 0) by lia.
  pose proof (cmp_trans _ _ _ Hyz H1). lia.
Qed.

Lemma insertion_index_spec m l :
  (insertion_index E m l <= length l)%nat /\
  Forall (fun x => 0 <= cmp E m x) (take (insertion_index E m l) l) /\
  match drop (insertion_index E m l) l with
  | y :: _ => cmp E m y < 0
  | [] => True
  end.
Proof.
  induction l as [|x l (IH1 & IH2 & IH3)]; cbn.
  - split; [lia|]. split; [constructor|done].
  - fold (cmp E m x). destruct (Z.leb_spec 0 (cmp E m x)) as [Hx|Hx]; cbn.
    + split; [lia|]. split; [constructor; assumption|exact IH3].
    + split; [lia|]. split; [constructor|exact Hx].
Qed.

Lemma before_app log l a b : before log a b -> before (log ++ l) a b.
Proof.
  intros (i & j & Hij & Hi & Hj). exists i, j.
  split; [done|]. split; now apply lookup_app_l_Some.
Qed.

Lemma ranks_before_app log l x y :
  ranks_before E log x y -> ranks_before E (log ++ l) x y.
Proof. intros [H1 H2]. split; [done|]. intros H. apply before_app; auto. Qed.

Lemma before_new log a b :
  a ∈ log -> before (log ++ [b]) a b.
Proof.
  intros (i & Hi)%list_elem_of_lookup. exists i, (length log).
  split; [eapply lookup_lt_Some; eassumption|].
  split; [now apply lookup_app_l_Some|].
  rewrite lookup_app_r by lia. now rewrite Nat.sub_diag.
Qed.

Lemma insertMatcher_ranked m st :
  registry_inv E st ->
  StronglySorted (ranks_before E (inserted st ++ [mid m]))
    (JsArray.splice_insert (matchers st)
       (insertion_index E m (matchers st)) m).
Proof.
  intros [I1 [I2 _ _ _ _]]. unfold JsArray.splice_insert.
  destruct (insertion_index_spec m (matchers st)) as (Hle & Hpre & Hpost).
  set (i := insertion_index E m (matchers st)) in *.
  rewrite <- (take_drop i (matchers st)) in I1.
  apply StronglySorted_app in I1 as (Hcross & Hl & Hr).
  assert (forall y, y ∈ drop i (matchers st) -> cmp E m y < 0) as Hlater.
  { destruct (drop i (matchers st)) as [|y0 rest] eqn:Hd.
    - intros y Hy. inv Hy.
    - apply StronglySorted_cons in Hr as [Hy0 _].
      rewrite Forall_forall in Hy0.
      intros y [->|Hy]%elem_of_cons; [done|].
      eapply cmp_strict_trans; [exact Hpost|]. apply (Hy0 y Hy). }
  assert (forall x, x ∈ take i (matchers st) ->
                    ranks_before E (inserted st ++ [mid m]) x m) as Hearlier.
  { intros x Hx. rewrite Forall_forall in Hpre.
    pose proof (Hpre x Hx) as Hmx. split; [now apply cmp_flip|].
    intros _. apply before_new, I2.
    eapply sublist_subseteq; [apply sublist_take|exact Hx]. }
  apply StronglySorted_app_2.
  - intros x1 x2 H1 [->|H2]%elem_of_cons; [now apply Hearlier|].
    apply ranks_before_app. now apply Hcross.
  - eapply StronglySorted_impl; [|exact Hl].
    intros x y. apply ranks_before_app.
  - apply StronglySorted_cons. split.
    + apply Forall_forall. intros y Hy. specialize (Hlater y Hy).
      split; [lia|]. intros H0. lia.
    + eapply StronglySorted_impl; [|exact Hr].
      intros x y. apply ranks_before_app.
Qed.

Lemma insertMatcher_inv m st :
  registry_inv E st ->
  mid m ∉ inserted st ->
  (mid m < next_id st)%nat ->
  registry_inv E (insertMatcher E m st).
Proof.
  intros HI Hfresh Hlt. constructor.
  - now apply insertMatcher_ranked.
  - apply insertMatcher_wf; [apply HI|done|done].
Qed.

End RankedInsertion.

(** ** [addRoute] keeps what its steps keep *)
Section AddRouteSound.
Import Matcher.
Context (E : Env) (P : state -> Prop).

(** [P] is kept by the steps [addRoute] is made of. *)
Hypothesis P_shrinks : forall st st', shrinks st st' -> P st -> P st'.
Hypothesis P_fresh : forall st, P st -> P (snd (fresh st)).
Hypothesis P_push_child : forall o m st, P st -> P (push_child o m st).
Hypothesis P_push_alias : forall o m st, P st -> P (push_alias o m st).
Hypothesis P_insert :
  forall m st, P st -> mid m ∉ inserted st -> (mid m < next_id st)%nat ->
               P (insertMatcher E m st).
Hypothesis P_bound :
  forall st, P st -> forall i, i ∈ inserted st -> (i < next_id st)%nat.

(** Induction on a raw record with its children at hand. *)
Lemma RouteRecordRaw_nested_ind (Q : RouteRecordRaw -> Prop) :
  (forall p n a r m o cs,
      Forall Q (default [] cs) -> Q (mkRaw p n a r m o cs)) ->
  forall record, Q record.
Proof.
  intros H. fix IH 1. intros [p n a r m o cs]. apply H.
  destruct cs as [l|]; cbn; [|constructor].
  induction l as [|c l IHl]; constructor; [apply IH|exact IHl].
Qed.

(** A state transformer that keeps [P] and only grows. *)
Definition sound (f : state -> state) : Prop :=
  forall st, P st -> P (f st) /\ grows st (f st).

Lemma insertMatcher_grows st0 st m :
  grows st0 st -> (next_id st0 <= mid m)%nat ->
  grows st0 (insertMatcher E m st).
Proof.
  intros [G1 (l & G2 & G3) G4] Hm. constructor; cbn.
  - exact G1.
  - exists (l ++ [mid m]). rewrite G2, app_assoc. split; [done|].
    intros i [Hi| ->%list_elem_of_singleton]%elem_of_app; auto.
  - intros x [->|Hx]%splice_insert_elem; [now right|]. now apply G4.
Qed.

Lemma createRouteRecordMatcher_spec r parent options st :
  P st ->
  let res := createRouteRecordMatcher E r parent options st in
  mid (fst res) = next_id st /\
  P (snd res) /\
  grows st (snd res) /\
  next_id (snd res) = S (next_id st) /\
  inserted (snd res) = inserted st.
Proof.
  intros HI. unfold createRouteRecordMatcher. cbn.
  destruct parent as [p|]; cbn.
  - split; [done|]. split; [apply P_push_child, (P_fresh st HI)|].
    split; [|done].
    eapply grows_trans; [apply fresh_grows|apply push_child_grows].
  - split; [done|]. split; [apply (P_fresh st HI)|].
    split; [apply fresh_grows|done].
Qed.

Lemma addRoute_step_sound record parent isRootAdd options loopf v nr :
  (forall matcher orig, sound (loopf matcher orig)) ->
  P (loop_state v) ->
  P (loop_state (addRoute_step E record parent isRootAdd options loopf v nr)) /\
  grows (loop_state v)
    (loop_state (addRoute_step E record parent isRootAdd options loopf v nr)).
Proof.
  intros Hloop HI. unfold addRoute_step.
  set (nr' := match parent with Some _ => _ | None => _ end).
  pose proof (createRouteRecordMatcher_spec nr' parent options (loop_state v) HI)
    as Hc. cbn zeta in Hc.
  destruct (createRouteRecordMatcher E nr' parent options (loop_state v))
    as [matcher st1]. cbn [fst snd] in Hc.
  destruct Hc as (Hmid & HI1 & HG1 & Hn1 & Hlog1).
  (* the alias bookkeeping and the removal by name *)
  set (pair := match originalRecord v with Some _ => _ | None => _ end).
  assert (P (snd pair) /\ grows st1 (snd pair) /\
          inserted (snd pair) = inserted st1 /\
          next_id (snd pair) = next_id st1) as (HI2 & HG2 & Hlog2 & Hn2).
  { unfold pair. destruct (originalRecord v) as [o|]; cbn [snd].
    - split; [now apply P_push_alias|].
      split; [apply push_alias_grows|done].
    - set (st_a := if negb _ then _ else st1).
      assert (P st_a /\ grows st1 st_a /\
              inserted st_a = inserted st1 /\ next_id st_a = next_id st1)
        as (Ha & Hga & Hla & Hna).
      { unfold st_a.
        destruct (mid (default matcher (originalMatcher v)) =? mid matcher)%nat;
          cbn [negb].
        2: { split; [now apply P_push_alias|].
             split; [apply push_alias_grows|done]. }
        split; [done|]. split; [apply grows_refl|done]. }
      destruct (truthy_name (raw_name record)) as [n|].
      + destruct (isRootAdd && negb (isAliasRecord matcher)).
        * pose proof (removeRoute_shrinks (inl n) st_a) as Hs.
          split; [eapply P_shrinks; eassumption|].
          split; [eapply grows_trans; [exact Hga|now apply shrinks_grows]|].
          destruct Hs. split; congruence.
        * done.
      + done. }
  destruct pair as [om st2]. cbn [snd] in *.
  destruct (Hloop matcher (originalRecord v) st2 HI2) as (HI3 & HG3).
  cbn [loop_state].
  assert (grows (loop_state v) (loopf matcher (originalRecord v) st2)) as HG.
  { eapply grows_trans; [exact HG1|]. eapply grows_trans; eassumption. }
  split.
  - apply P_insert; try assumption.
    + destruct HG3 as [_ (l & -> & Hl) _]. rewrite Hlog2, Hlog1.
      intros [H|H]%elem_of_app.
      * apply (P_bound _ HI) in H. lia.
      * specialize (Hl _ H). lia.
    + destruct HG3 as [Hn3 _ _]. lia.
  - apply insertMatcher_grows; [exact HG|lia].
Qed.

Lemma addRoute_loop_sound record parent isRootAdd options loopf nrs :
  (forall matcher orig, sound (loopf matcher orig)) ->
  forall v, P (loop_state v) ->
  P (loop_state
       (foldl (addRoute_step E record parent isRootAdd options loopf) v nrs)) /\
  grows (loop_state v)
    (loop_state
       (foldl (addRoute_step E record parent isRootAdd options loopf) v nrs)).
Proof.
  intros Hloop. induction nrs as [|nr nrs IH]; intros v HI; cbn [foldl].
  - split; [done|apply grows_refl].
  - destruct (addRoute_step_sound record parent isRootAdd options loopf v nr
                Hloop HI) as (H1 & G1).
    destruct (IH _ H1) as (H2 & G2).
    split; [done|]. eapply grows_trans; eassumption.
Qed.

Lemma alias_records_sound main target aliases st :
  P st ->
  P (snd (alias_records main target aliases st)) /\
  grows st (snd (alias_records main target aliases st)).
Proof.
  revert st. induction aliases as [|a rest IH]; intros st HI; cbn.
  - split; [done|apply grows_refl].
  - specialize (IH (snd (fresh st)) (P_fresh st HI)).
    cbn in IH.
    destruct (alias_records main target rest _) as [rs st2]. cbn in *.
    destruct IH as (H & G). split; [done|].
    eapply grows_trans; [apply (fresh_grows st)|exact G].
Qed.

Lemma add_children_sound add cs :
  Forall (fun c => forall parent orig, sound (fun st => snd (add c parent orig st))) cs ->
  forall matcher orig i, sound (add_children add matcher orig cs i).
Proof.
  induction 1 as [|c cs Hc _ IH]; intros matcher orig i st HI; cbn.
  - split; [done|apply grows_refl].
  - destruct (Hc (Some matcher) (original_child orig i st) st HI) as (H1 & G1).
    destruct (IH matcher orig (S i) _ H1) as (H2 & G2).
    split; [done|]. eapply grows_trans; eassumption.
Qed.

(** [addRoute] keeps [P], whatever parent and original it is given. *)
Lemma addRoute_sound record :
  forall parent original,
    sound (fun st => snd (addRoute E record parent original st)).
Proof.
  induction record as [p n a r m o cs IH] using RouteRecordRaw_nested_ind.
  intros parent original st HI. cbn [addRoute].
  unfold normalizeRouteRecord. cbn [fresh].
  set (main := set_aliasOf _ _).
  set (target := match original with Some _ => _ | None => _ end).
  pose proof (alias_records_sound main target
                (aliases_of (mkRaw p n a r m o cs)) _ (P_fresh st HI))
    as (HA & GA).
  cbn [fresh snd] in HA, GA.
  destruct (alias_records main target _ _) as [copies st1].
  cbn [snd] in *.
  set (loopf := fun matcher orig st => match cs with Some _ => _ | None => _ end).
  assert (forall matcher orig, sound (loopf matcher orig)) as Hloop.
  { intros matcher orig. unfold loopf. destruct cs as [l|].
    - apply add_children_sound. exact IH.
    - intros s Hs. split; [done|apply grows_refl]. }
  match goal with
  | |- context [foldl ?f ?v ?l] =>
      destruct (addRoute_loop_sound (mkRaw p n a r m o cs) parent
                  (match original with Some _ => false | None => true end)
                  (mergeOptions (globalOptions E) o) loopf l Hloop v HA)
        as (H & G)
  end.
  split; [exact H|].
  eapply grows_trans; [apply (fresh_grows st)|].
  eapply grows_trans; [exact GA|exact G].
Qed.

End AddRouteSound.

Section RegistryInvariant.
Import Matcher.
Context (E : Env).

Lemma addRoute_wf record parent original st :
  registry_wf st ->
  registry_wf (snd (addRoute E record parent original st)) /\
  grows st (snd (addRoute E record parent original st)).
Proof.
  apply (addRoute_sound E registry_wf shrinks_wf fresh_wf push_child_wf
           push_alias_wf (insertMatcher_wf E) wf_log_bound).
Qed.

Lemma exec_wf st c : registry_wf st -> registry_wf (exec E st c).
Proof.
  intros HI. destruct c as [record parent|ref]; cbn [exec].
  - now apply addRoute_wf.
  - eapply shrinks_wf; [apply removeRoute_shrinks|exact HI].
Qed.

Lemma run_wf cs : registry_wf (run E cs).
Proof.
  unfold run. induction cs as [|c cs IH] using rev_ind.
  - apply empty_wf.
  - rewrite foldl_app. cbn [foldl]. now apply exec_wf.
Qed.

Hypothesis cmp_antisym :
  forall a b, Z.sgn (comparePathParserScore E b a)
              = - Z.sgn (comparePathParserScore E a b).
Hypothesis cmp_trans :
  forall a b c, comparePathParserScore E a b <= 0 ->
                comparePathParserScore E b c <= 0 ->
                comparePathParserScore E a c <= 0.

Lemma exec_inv st c : registry_inv E st -> registry_inv E (exec E st c).
Proof.
  intros HI. destruct c as [record parent|ref]; cbn [exec].
  - apply (addRoute_sound E (registry_inv E) (shrinks_inv E) (fresh_inv E)
             (push_child_inv E) (push_alias_inv E)
             (insertMatcher_inv E cmp_antisym cmp_trans)
             (fun st H => wf_log_bound st (inv_wf E st H))
             record parent None st HI).
  - eapply shrinks_inv; [apply removeRoute_shrinks|exact HI].
Qed.

Lemma run_inv cs : registry_inv E (run E cs).
Proof.
  unfold run. induction cs as [|c cs IH] using rev_ind.
  - constructor; [constructor|apply empty_wf].
  - rewrite foldl_app. cbn [foldl]. now apply exec_inv.
Qed.

End RegistryInvariant.

(** ** Removal cascades along the ownership links *)
Section RemovalCascade.
Import Matcher.

(** [x] is in the ranked sequence (references are compared by
    identity). *)
Definition registered (st : state) (x : RouteRecordMatcher) : Prop :=
  mid x ∈ (mid <$> matchers st).

(** [y] is in [x.children] or in [x.alias]. *)
Definition owns (st : state) (x y : RouteRecordMatcher) : Prop :=
  y ∈ get_children st x \/ y ∈ get_alias st x.

(** [d] is reached from [m] along ownership links through matchers that
    are all in the sequence. *)
Inductive owned_chain (st : state) (m : RouteRecordMatcher)
  : RouteRecordMatcher -> Prop :=
| chain_here : registered st m -> owned_chain st m m
| chain_next y z :
    owned_chain st m y -> owns st y z -> registered st z ->
    owned_chain st m z.

(** Whatever left the sequence took what it owns along. *)
Definition closed (st st' : state) : Prop :=
  forall y, registered st y -> ~ registered st' y ->
            forall c, owns st y c -> ~ registered st' c.

Lemma indexOf_None l m : indexOf l m = None <-> mid m ∉ (mid <$> l).
Proof.
  induction l as [|x l IH]; cbn [indexOf].
  - split; [intros _ H; inv H|done].
  - rewrite fmap_cons, not_elem_of_cons.
    destruct (Nat.eqb_spec (mid x) (mid m)) as [Heq|Hne].
    + split; [done|]. intros [H _]. congruence.
    + destruct (indexOf l m); cbn.
      * split; [done|]. intros [_ H]. now apply IH in H.
      * split; [|done]. intros _. split; [congruence|]. now apply IH.
Qed.

Lemma indexOf_Some l m i :
  indexOf l m = Some i -> (mid <$> l) !! i = Some (mid m).
Proof.
  revert i. induction l as [|x l IH]; intros i; cbn; [done|].
  destruct (Nat.eqb_spec (mid x) (mid m)) as [Heq|Hne].
  - intros [= <-]. cbn. now rewrite Heq.
  - destruct (indexOf l m) as [j|]; cbn; [|done].
    intros [= <-]. cbn. now apply IH.
Qed.

Lemma registered_indexOf st m :
  registered st m -> exists i, indexOf (matchers st) m = Some i.
Proof.
  intros H. destruct (indexOf (matchers st) m) as [i|] eqn:Hi; [eauto|].
  apply indexOf_None in Hi. contradiction.
Qed.

Lemma NoDup_delete_elem {A} (l : list A) i a x :
  NoDup l -> l !! i = Some a -> x ∈ delete i l <-> x ∈ l /\ x <> a.
Proof.
  intros Hnd Hi.
  rewrite <- (take_drop_middle l i a Hi) in Hnd.
  rewrite <- (take_drop_middle l i a Hi) at 2.
  rewrite delete_take_drop.
  apply NoDup_app in Hnd as (N1 & N2 & N3).
  apply NoDup_cons in N3 as (N3 & N4).
  rewrite !elem_of_app, elem_of_cons. split.
  - intros [H|H].
    + split; [tauto|]. intros ->. apply (N2 a H). now left.
    + split; [tauto|]. intros ->. contradiction.
  - intros [[H|[H|H]] Hne]; tauto.
Qed.

Lemma matchers_detach st m i :
  matchers (detach i m st) = delete i (matchers st).
Proof. unfold detach. destruct (truthy_name _); cbn; apply splice_one_index. Qed.

Lemma registered_detach st m i x :
  NoDup (mid <$> matchers st) ->
  indexOf (matchers st) m = Some i ->
  registered (detach i m st) x <-> registered st x /\ mid x <> mid m.
Proof.
  intros Hnd Hi. unfold registered. rewrite matchers_detach.
  rewrite list_fmap_delete.
  apply NoDup_delete_elem; [done|]. now apply indexOf_Some.
Qed.

Lemma shrinks_registered st st' x :
  shrinks st st' -> registered st' x -> registered st x.
Proof.
  intros [Hs _ _ _ _ _]. unfold registered.
  apply sublist_subseteq. now apply fmap_sublist.
Qed.

Lemma shrinks_nodup st st' :
  shrinks st st' -> NoDup (mid <$> matchers st) -> NoDup (mid <$> matchers st').
Proof.
  intros [Hs _ _ _ _ _] H. eapply sublist_NoDup; [exact H|].
  now apply fmap_sublist.
Qed.

Lemma shrinks_owns st st' x y : shrinks st st' -> owns st' x y <-> owns st x y.
Proof.
  intros Hs. unfold owns.
  now rewrite (shrinks_get_children _ _ x Hs), (shrinks_get_alias _ _ x Hs).
Qed.

Lemma closed_refl st : closed st st.
Proof. intros y H1 H2. contradiction. Qed.

Lemma closed_trans st sa sb :
  shrinks st sa -> shrinks sa sb ->
  closed st sa -> closed sa sb -> closed st sb.
Proof.
  intros H1 H2 C1 C2 y Hy Hny c Hc Hreg.
  destruct (decide (mid y ∈ (mid <$> matchers sa))) as [Hin|Hout].
  - apply (C2 y Hin Hny c); [|done]. now apply (shrinks_owns st sa).
  - apply (C1 y Hy Hout c Hc). eapply shrinks_registered; eassumption.
Qed.

(** Removing a list of matchers one after the other, each removal being
    closed. *)
Lemma removeAll_closed (n : nat) :
  (forall st m, (length (matchers st) <= n)%nat ->
                NoDup (mid <$> matchers st) ->
                closed st (removeMatcher m st) /\
                ~ registered (removeMatcher m st) m) ->
  forall l st, (length (matchers st) <= n)%nat ->
               NoDup (mid <$> matchers st) ->
               closed st (foldl (fun s x => removeMatcher x s) st l) /\
               forall c, c ∈ l ->
                         ~ registered (foldl (fun s x => removeMatcher x s) st l) c.
Proof.
  intros IHn. induction l as [|x l IH]; intros st Hlen Hnd; cbn [foldl].
  - split; [apply closed_refl|]. intros c Hc. inv Hc.
  - destruct (IHn st x Hlen Hnd) as (C1 & R1).
    pose proof (removeMatcher_shrinks x st) as S1.
    destruct (IH (removeMatcher x st)) as (C2 & R2).
    { pose proof (shrinks_length _ _ S1). lia. }
    { eapply shrinks_nodup; eassumption. }
    pose proof (removeAll_shrinks l (removeMatcher x st)) as S2.
    split; [eapply closed_trans; eassumption|].
    intros c [->|Hc]%elem_of_cons; [|now apply R2].
    intros H. apply R1. eapply shrinks_registered; eassumption.
Qed.

Lemma removeMatcher_closed (n : nat) :
  forall st m, (length (matchers st) <= n)%nat ->
               NoDup (mid <$> matchers st) ->
               closed st (removeMatcher m st) /\
               ~ registered (removeMatcher m st) m.
Proof.
  induction n as [|n IHn]; intros st m Hlen Hnd; rewrite removeMatcher_unfold.
  - destruct (matchers st) as [|x l] eqn:Hm; [|cbn in Hlen; lia].
    cbn. split; [apply closed_refl|].
    unfold registered. rewrite Hm. intros H. inv H.
  - destruct (indexOf (matchers st) m) as [i|] eqn:Hi.
    2:{ split; [apply closed_refl|]. now apply indexOf_None in Hi. }
    pose proof (detach_length st m i Hi) as Hd.
    pose proof (detach_shrinks st m i) as S1.
    set (st1 := detach i m st) in *.
    assert (NoDup (mid <$> matchers st1)) as Hnd1
        by (eapply shrinks_nodup; eassumption).
    destruct (removeAll_closed n IHn (get_children st m) st1) as (C2 & R2);
      [lia|done|].
    pose proof (removeAll_shrinks (get_children st m) st1) as S2.
    set (st2 := foldl _ st1 (get_children st m)) in *.
    destruct (removeAll_closed n IHn (get_alias st m) st2) as (C3 & R3).
    { pose proof (shrinks_length _ _ S2). lia. }
    { eapply shrinks_nodup; eassumption. }
    pose proof (removeAll_shrinks (get_alias st m) st2) as S3.
    set (st3 := foldl _ st2 (get_alias st m)) in *.
    assert (~ registered st3 m) as Hm3.
    { intros H. apply (shrinks_registered _ _ _ S3) in H.
      apply (shrinks_registered _ _ _ S2) in H.
      apply (registered_detach st m i m Hnd Hi) in H. tauto. }
    split; [|exact Hm3].
    intros y Hy Hny c Hc Hreg.
    destruct (decide (mid y = mid m)) as [Heq|Hne].
    + unfold owns, get_children, get_alias in Hc. rewrite Heq in Hc.
      destruct Hc as [Hc|Hc].
      * apply (R2 c Hc). eapply shrinks_registered; eassumption.
      * now apply (R3 c Hc).
    + assert (closed st1 st3) as C13
          by (eapply closed_trans; eassumption).
      refine (C13 y _ Hny c _ Hreg).
      * apply (registered_detach st m i y Hnd Hi). tauto.
      * now apply (shrinks_owns st st1).
Qed.

Lemma owned_chain_registered st m d : owned_chain st m d -> registered st d.
Proof. now destruct 1. Qed.

(** After [removeRoute(m)] nothing that [m] reached through its
    ownership links is left in the sequence. *)
Lemma removeMatcher_cascades st m d :
  NoDup (mid <$> matchers st) ->
  owned_chain st m d -> ~ registered (removeMatcher m st) d.
Proof.
  intros Hnd.
  destruct (removeMatcher_closed (length (matchers st)) st m) as (C & R);
    [lia|done|].
  induction 1 as [Hm|y z Hy IH Hyz Hz]; [exact R|].
  apply (C y); [|exact IH|exact Hyz].
  eapply owned_chain_registered; eassumption.
Qed.

Lemma removeMatcher_unmaps st m k :
  registered st m -> truthy_name (name (record m)) = Some k ->
  matcherMap (removeMatcher m st) !! k = None.
Proof.
  intros (i & Hi)%registered_indexOf Hk. rewrite removeMatcher_unfold, Hi.
  pose proof (removeAll_shrinks (get_children st m) (detach i m st)) as S2.
  pose proof (removeAll_shrinks (get_alias st m)
                (foldl (fun s x => removeMatcher x s) (detach i m st)
                       (get_children st m))) as S3.
  pose proof (shrinks_trans _ _ _ S2 S3) as [_ Hmap _ _ _ _].
  eapply lookup_weaken_None; [|exact Hmap].
  unfold detach. rewrite Hk. cbn. apply lookup_delete_eq.
Qed.

(** The name branch does to a matcher of the sequence what the matcher
    branch does. *)
Lemma removeName_as_matcher st k old :
  matcherMap st !! k = Some old ->
  registered st old ->
  truthy_name (name (record old)) = Some k ->
  removeRoute (inl k) st = removeRoute (inr old) st.
Proof.
  intros Hk (i & Hi)%registered_indexOf Hn. cbn [removeRoute].
  rewrite removeName_unfold, removeMatcher_unfold, Hk, Hi.
  cbn zeta. cbn [set_matcherMap matchers]. rewrite Hi.
  unfold detach. rewrite Hn. reflexivity.
Qed.

End RemovalCascade.

(** ** Records added as aliases leave the name index alone *)
Section AliasAdditions.
Import Matcher.
Context (E : Env).

(** Nothing leaves the sequence and the name index stays as it is. *)
Record extends (st st' : state) : Prop := mkExtends {
  extends_map : matcherMap st' = matcherMap st;
  extends_matchers : forall x, x ∈ matchers st -> x ∈ matchers st'
}.

Lemma extends_refl st : extends st st.
Proof. now constructor. Qed.

Lemma extends_trans st1 st2 st3 :
  extends st1 st2 -> extends st2 st3 -> extends st1 st3.
Proof. intros [H1 M1] [H2 M2]. constructor; [congruence|auto]. Qed.

Lemma extends_registered st st' x :
  extends st st' -> registered st x -> registered st' x.
Proof.
  intros [_ Hm] (y & Hy & Hin)%list_elem_of_fmap.
  apply list_elem_of_fmap. exists y. auto.
Qed.

Lemma create_extends r parent options st :
  extends st (snd (createRouteRecordMatcher E r parent options st)).
Proof. unfold createRouteRecordMatcher. cbn. now destruct parent. Qed.

Lemma create_matcher_shape r parent options st :
  fst (createRouteRecordMatcher E r parent options st)
  = {| mid := next_id st; parser := tokensToParser E (path r) options;
       record := r; parent := parent |}.
Proof. reflexivity. Qed.

Lemma insertMatcher_alias_extends m st :
  isAliasRecord m = true -> extends st (insertMatcher E m st).
Proof.
  intros Ha. constructor.
  - unfold insertMatcher. cbn. rewrite Ha. now destruct (truthy_name _).
  - intros x Hx. cbn. apply splice_insert_elem. now right.
Qed.

Lemma alias_records_extends main target aliases st :
  extends st (snd (alias_records main target aliases st)).
Proof.
  revert st. induction aliases as [|a rest IH]; intros st; cbn; [done|].
  specialize (IH (snd (fresh st))). cbn in IH.
  destruct (alias_records main target rest _) as [rs st2]. cbn in *.
  destruct IH as [H1 H2]. now constructor.
Qed.

Lemma alias_records_aliasOf main target aliases st :
  Forall (fun r => aliasOf r = Some target)
         (fst (alias_records main target aliases st)).
Proof.
  revert st. induction aliases as [|a rest IH]; intros st; cbn; [constructor|].
  specialize (IH (snd (fresh st))). cbn in IH.
  destruct (alias_records main target rest _) as [rs st2]. cbn in *.
  now constructor.
Qed.

(** The matcher a step builds is an alias record as soon as its record
    is an alias or its parent is one. *)
Definition aliased (parent : option RouteRecordMatcher)
    (nr : RouteRecordNormalized) : Prop :=
  is_Some (aliasOf nr) \/ isAliasRecord_opt parent = true.

Lemma aliased_matcher i ps r parent :
  aliased parent r -> isAliasRecord (mkMatcher i ps r parent) = true.
Proof.
  intros [[a Ha]|Hp]; cbn.
  - now rewrite Ha.
  - destruct (aliasOf r); [done|]. now destruct parent.
Qed.

Lemma addRoute_step_quiet record parent isRootAdd options loopf v nr :
  aliased parent nr ->
  (forall matcher orig st,
      isAliasRecord matcher = true -> extends st (loopf matcher orig st)) ->
  extends (loop_state v)
    (loop_state (addRoute_step E record parent isRootAdd options loopf v nr)) /\
  originalMatcher (addRoute_step E record parent isRootAdd options loopf v nr)
  = match originalRecord v with
    | Some _ => originalMatcher v
    | None => Some (default
                      (fst (createRouteRecordMatcher E
                              (match parent with
                               | Some p =>
                                   if negb (is_slash (first_char (path nr)))
                                   then set_path (nested_path
                                                    (path (Matcher.record p))
                                                    (path nr)) nr
                                   else nr
                               | None => nr
                               end) parent options (loop_state v)))
                      (originalMatcher v))
    end.
Proof.
  intros Hal Hloop. unfold addRoute_step.
  set (nr' := match parent with Some _ => _ | None => _ end).
  assert (aliased parent nr') as Hal'.
  { unfold nr'. destruct parent as [p|]; [|done].
    destruct (negb _); [|done]. exact Hal. }
  pose proof (create_extends nr' parent options (loop_state v)) as Hc.
  pose proof (create_matcher_shape nr' parent options (loop_state v)) as Hsh.
  destruct (createRouteRecordMatcher E nr' parent options (loop_state v))
    as [matcher st1]. cbn [fst snd] in *.
  assert (isAliasRecord matcher = true) as Ham
      by (rewrite Hsh; now apply aliased_matcher).
  rewrite Ham. rewrite andb_false_r.
  destruct (originalRecord v) as [o|]; cbn [loop_state originalMatcher].
  - split; [|done].
    eapply extends_trans; [exact Hc|].
    eapply extends_trans; [|apply insertMatcher_alias_extends, Ham].
    eapply extends_trans; [|apply Hloop, Ham].
    now constructor.
  - split; [|done].
    eapply extends_trans; [exact Hc|].
    eapply extends_trans; [|apply insertMatcher_alias_extends, Ham].
    eapply extends_trans; [|apply Hloop, Ham].
    cbn [negb andb].
    destruct (truthy_name (raw_name record));
      destruct (mid (default matcher (originalMatcher v)) =? mid matcher)%nat;
      cbn [negb]; now constructor.
Qed.

Lemma addRoute_loop_quiet record parent isRootAdd options loopf nrs :
  Forall (aliased parent) nrs ->
  (forall matcher orig st,
      isAliasRecord matcher = true -> extends st (loopf matcher orig st)) ->
  forall v, is_Some (originalRecord v) ->
  let v' := foldl (addRoute_step E record parent isRootAdd options loopf) v nrs in
  extends (loop_state v) (loop_state v') /\
  originalMatcher v' = originalMatcher v.
Proof.
  intros Hall Hloop. induction Hall as [|nr nrs Hnr _ IH]; intros v Hv;
    cbn [foldl].
  - split; [apply extends_refl|done].
  - destruct (addRoute_step_quiet record parent isRootAdd options loopf v nr
                Hnr Hloop) as (H1 & H2).
    destruct Hv as [o Ho]. rewrite Ho in H2.
    destruct (IH (addRoute_step E record parent isRootAdd options loopf v nr))
      as (H3 & H4).
    { unfold addRoute_step.
      destruct (createRouteRecordMatcher _ _ _ _ _) as [mm ss].
      destruct (match originalRecord v with Some _ => _ | None => _ end).
      cbn. eauto. }
    split; [eapply extends_trans; eassumption|congruence].
Qed.

Lemma add_children_quiet add cs :
  Forall (fun c => forall parent orig st,
              isAliasRecord parent = true ->
              extends st (snd (add c (Some parent) orig st))) cs ->
  forall matcher orig i st,
    isAliasRecord matcher = true ->
    extends st (add_children add matcher orig cs i st).
Proof.
  induction 1 as [|c cs Hc _ IH]; intros matcher orig i st Ha; cbn.
  - apply extends_refl.
  - eapply extends_trans;
      [apply (Hc matcher (original_child orig i st) st Ha)|]. now apply IH.
Qed.

(** A record added under an alias matcher removes nothing and names
    nothing. *)
Lemma addRoute_under_alias record :
  forall parent original st,
    isAliasRecord parent = true ->
    extends st (snd (addRoute E record (Some parent) original st)).
Proof.
  induction record as [p n a r m o cs IH] using RouteRecordRaw_nested_ind.
  intros parent original st Ha. cbn [addRoute].
  unfold normalizeRouteRecord. cbn [fresh].
  set (main := set_aliasOf _ _).
  set (target := match original with Some _ => _ | None => _ end).
  pose proof (alias_records_extends main target
                (aliases_of (mkRaw p n a r m o cs)) (snd (fresh st))) as HA.
  cbn [fresh snd] in HA.
  destruct (alias_records main target _ _) as [copies st1].
  cbn [snd] in *.
  set (loopf := fun matcher orig st => match cs with Some _ => _ | None => _ end).
  assert (forall matcher orig st,
             isAliasRecord matcher = true -> extends st (loopf matcher orig st))
    as Hloop.
  { intros matcher orig s Hm. unfold loopf. destruct cs as [l|].
    - apply add_children_quiet; [exact IH|exact Hm].
    - apply extends_refl. }
  assert (forall nrs v,
             extends (loop_state v)
               (loop_state
                  (foldl (addRoute_step E (mkRaw p n a r m o cs) (Some parent)
                            (match original with Some _ => false | None => true end)
                            (mergeOptions (globalOptions E) o) loopf) v nrs)))
    as Hfold.
  { induction nrs as [|nr nrs IHn]; intros v; cbn [foldl];
      [apply extends_refl|].
    eapply extends_trans; [|apply IHn].
    apply addRoute_step_quiet; [right; exact Ha|exact Hloop]. }
  eapply extends_trans; [|apply Hfold]. cbn [loop_state].
  eapply extends_trans; [|exact HA]. now constructor.
Qed.

End AliasAdditions.

(** ** A named route replaces the prior registration *)
Section NamedReplacement.
Import Matcher.
Context (E : Env).

Lemma grows_registered st st' d :
  grows st st' -> registered st' d ->
  registered st d \/ (next_id st <= mid d)%nat.
Proof.
  intros [_ _ Hm] (x & Hx & Hin)%list_elem_of_fmap.
  destruct (Hm x Hin) as [H|H]; [left|right; lia].
  apply list_elem_of_fmap. eauto.
Qed.

Lemma registered_bound st d :
  registry_wf st -> registered st d -> (mid d < next_id st)%nat.
Proof.
  intros Hwf (x & Hx & Hin)%list_elem_of_fmap.
  rewrite Hx. apply (wf_log_bound st Hwf), (wf_logged st Hwf), Hin.
Qed.

(** Ownership links are only ever added. *)
Definition heap_grows (st st' : state) : Prop :=
  forall x y, owns st x y -> owns st' x y.

Lemma owned_chain_mono st st' m d :
  heap_grows st st' -> (forall x, registered st x -> registered st' x) ->
  owned_chain st m d -> owned_chain st' m d.
Proof.
  intros Hh Hr. induction 1 as [Hm|y z Hy IH Hyz Hz].
  - apply chain_here. auto.
  - eapply chain_next; [exact IH|auto|auto].
Qed.

Lemma push_child_heap_grows o m st : heap_grows st (push_child o m st).
Proof.
  intros x y [H|H]; [left|right; exact H].
  unfold get_children in *. cbn.
  destruct (decide (mid o = mid x)) as [Heq|Hne].
  - rewrite Heq, lookup_insert_eq. cbn. unfold JsArray.push.
    apply elem_of_app. left. unfold get_children. now rewrite Heq.
  - now rewrite lookup_insert_ne.
Qed.

Lemma alias_records_allocates main target aliases st :
  let st' := snd (alias_records main target aliases st) in
  matchers st' = matchers st /\ matcherMap st' = matcherMap st /\
  children_of st' = children_of st /\ alias_of st' = alias_of st /\
  inserted st' = inserted st /\ (next_id st <= next_id st')%nat.
Proof.
  revert st. induction aliases as [|a rest IH]; intros st; cbn.
  - repeat split; lia.
  - specialize (IH (snd (fresh st))). cbn in IH.
    destruct (alias_records main target rest _) as [rs st2]. cbn in *.
    destruct IH as (H1 & H2 & H3 & H4 & H5 & H6). repeat split; try done. lia.
Qed.

Lemma insertMatcher_registered m st x :
  registered (insertMatcher E m st) x <-> mid x = mid m \/ registered st x.
Proof.
  unfold registered. cbn. rewrite !list_elem_of_fmap. split.
  - intros (y & Hy & [->|Hin]%splice_insert_elem); [now left|].
    right. eauto.
  - intros [Hx|(y & Hy & Hin)].
    + exists m. split; [done|]. apply splice_insert_elem. now left.
    + exists y. split; [done|]. apply splice_insert_elem. now right.
Qed.

Lemma insertMatcher_names m st k :
  truthy_name (name (record m)) = Some k -> isAliasRecord m = false ->
  matcherMap (insertMatcher E m st) !! k = Some m.
Proof.
  intros Hk Ha. unfold insertMatcher. cbn. rewrite Hk, Ha.
  apply lookup_insert_eq.
Qed.

Lemma children_loop_sound (cs : option (list RouteRecordRaw)) matcher orig st :
  registry_wf st ->
  let st' :=
    match cs with
    | Some l => add_children (addRoute E) matcher orig l 0%nat st
    | None => st
    end in
  registry_wf st' /\ grows st st'.
Proof.
  intros Hwf. destruct cs as [l|]; cbn zeta; [|split; [done|apply grows_refl]].
  apply (add_children_sound registry_wf); [|exact Hwf].
  apply Forall_forall. intros c _ parent o s Hs. now apply addRoute_wf.
Qed.

Lemma children_loop_quiet (cs : option (list RouteRecordRaw)) matcher orig st :
  isAliasRecord matcher = true ->
  extends st
    match cs with
    | Some l => add_children (addRoute E) matcher orig l 0%nat st
    | None => st
    end.
Proof.
  intros Ha. destruct cs as [l|]; [|apply extends_refl].
  apply add_children_quiet; [|exact Ha].
  apply Forall_forall. intros c _ parent o s Hp. now apply addRoute_under_alias.
Qed.

(** The record is canonical: it is added at top level or under a parent
    that is no alias record.  Its name [k] is held by [old], a matcher of
    the sequence.  Then [old] and whatever it reached through its
    ownership links leave the sequence, and the name index hands [k] to
    the new matcher, which is in the sequence. *)
Lemma addRoute_replaces record parent k old st :
  registry_wf st ->
  truthy_name (raw_name record) = Some k ->
  isAliasRecord_opt parent = false ->
  matcherMap st !! k = Some old ->
  registered st old ->
  (forall d, owned_chain st old d ->
             ~ registered (snd (addRoute E record parent None st)) d) /\
  exists new,
    fst (addRoute E record parent None st) = Some new /\
    matcherMap (snd (addRoute E record parent None st)) !! k = Some new /\
    registered (snd (addRoute E record parent None st)) new /\
    (next_id st <= mid new)%nat /\
    name (Matcher.record new) = raw_name record /\
    Matcher.parent new = parent.
Proof.
  intros Hwf Hk Hpar Hold Hreg. destruct record as [p n a r m o cs].
  cbn [raw_name] in Hk. cbn [addRoute].
  unfold normalizeRouteRecord. cbn [fresh option_map].
  set (main := set_aliasOf None _).
  pose proof (alias_records_allocates main (rid main)
                (aliases_of (mkRaw p n a r m o cs)) (snd (fresh st)))
    as (A1 & A2 & A3 & A4 & A5 & A6).
  pose proof (alias_records_sound registry_wf fresh_wf main (rid main)
                (aliases_of (mkRaw p n a r m o cs)) _ (fresh_wf st Hwf))
    as (Hwf1 & _).
  pose proof (alias_records_aliasOf main (rid main)
                (aliases_of (mkRaw p n a r m o cs)) (snd (fresh st))) as Hcopies.
  cbn [fresh snd] in A1, A2, A3, A4, A5, A6, Hwf1, Hcopies.
  destruct (alias_records main (rid main) _ _) as [copies st1].
  cbn [fst snd matchers matcherMap children_of alias_of inserted next_id]
    in A1, A2, A3, A4, A5, A6.
  cbn [fst snd] in *.
  set (loopf := fun matcher orig st =>
                  match cs with Some _ => _ | None => _ end).
  cbn [foldl].
  (* the first turn of the loop: the canonical record *)
  set (step := addRoute_step E (mkRaw p n a r m o cs) parent true
                 (mergeOptions (globalOptions E) o) loopf).
  set (v0 := {| originalRecord := None; originalMatcher := None;
                loop_state := st1 |}).
  assert (exists new st5,
             step v0 main = {| originalRecord := Some new;
                               originalMatcher := Some new;
                               loop_state := st5 |} /\
             mid new = next_id st1 /\
             name (Matcher.record new) = n /\
             Matcher.parent new = parent /\
             registry_wf st5 /\
             matcherMap st5 !! k = Some new /\
             registered st5 new /\
             (forall d, owned_chain st old d -> ~ registered st5 d))
    as (new & st5 & Hstep & Hmid & Hname & Hparent & Hwf5 & Hmap5 & Hnew5 & Hgone5).
  { unfold step, addRoute_step. cbn [loop_state originalRecord originalMatcher v0].
    set (nr' := match parent with Some _ => _ | None => _ end).
    assert (aliasOf nr' = None /\ name nr' = n) as (Hal & Hnm).
    { unfold nr'. destruct parent as [pp|]; [|done].
      destruct (negb _); done. }
    pose proof (createRouteRecordMatcher_spec E registry_wf fresh_wf
                  push_child_wf nr' parent
                  (mergeOptions (globalOptions E) o) st1 Hwf1) as Hc.
    pose proof (create_matcher_shape E nr' parent
                  (mergeOptions (globalOptions E) o) st1) as Hsh.
    pose proof (create_extends E nr' parent
                  (mergeOptions (globalOptions E) o) st1) as [Hc1 Hc2].
    assert (heap_grows st1
              (snd (createRouteRecordMatcher E nr' parent
                      (mergeOptions (globalOptions E) o) st1))) as Hheap.
    { unfold createRouteRecordMatcher. cbn.
      destruct parent as [pp|]; [|intros x y H; exact H].
      intros x y H. apply push_child_heap_grows. exact H. }
    cbn zeta in Hc.
    destruct (createRouteRecordMatcher E nr' parent _ st1) as [matcher st2].
    cbn [fst snd] in *. destruct Hc as (Hm & Hwf2 & HG2 & Hn2 & Hl2).
    assert (isAliasRecord matcher = false) as Hna.
    { rewrite Hsh. cbn. rewrite Hal. now destruct parent. }
    cbn [default raw_name]. rewrite Nat.eqb_refl. cbn [negb]. rewrite Hk, Hna.
    cbn [andb negb].
    (* the removal by name is the removal of [old] *)
    assert (registered st2 old) as Hreg2.
    { apply list_elem_of_fmap in Hreg as (x & Hx & Hin).
      apply list_elem_of_fmap. exists x. split; [done|].
      apply Hc2. now rewrite A1. }
    assert (matcherMap st2 !! k = Some old) as Hold2
        by now rewrite Hc1, A2.
    destruct (wf_index st Hwf k old Hold) as (Hkold & _).
    rewrite (removeName_as_matcher st2 k old Hold2 Hreg2 Hkold).
    cbn [removeRoute].
    pose proof (removeMatcher_shrinks old st2) as S3.
    set (st3 := removeMatcher old st2) in *.
    pose proof (shrinks_wf _ _ S3 Hwf2) as Hwf3.
    destruct (children_loop_sound cs matcher None st3 Hwf3) as (Hwf4 & HG4).
    fold (loopf matcher None st3) in Hwf4, HG4.
    set (st4 := loopf matcher None st3) in *.
    exists matcher, (insertMatcher E matcher st4).
    split; [reflexivity|]. split; [exact Hm|].
    split; [now rewrite Hsh|]. split; [now rewrite Hsh|].
    assert ((next_id st3 <= next_id st4)%nat) as Hn4 by apply HG4.
    assert (next_id st3 = next_id st2) as Hn3 by apply S3.
    assert (inserted st3 = inserted st2) as Hl3 by apply S3.
    split.
    { apply insertMatcher_wf; [exact Hwf4| |lia].
      destruct HG4 as [_ (l & -> & Hl) _]. rewrite Hl3, Hl2.
      intros [H|H]%elem_of_app.
      - apply (wf_log_bound _ Hwf1) in H. lia.
      - specialize (Hl _ H). lia. }
    split.
    { apply insertMatcher_names; [|exact Hna]. rewrite Hsh. cbn.
      now rewrite Hnm. }
    split; [apply insertMatcher_registered; now left|].
    intros d Hd Hd5.
    assert (mid d < next_id st)%nat as Hbound
        by (eapply registered_bound; [exact Hwf|];
            eapply owned_chain_registered; exact Hd).
    apply insertMatcher_registered in Hd5 as [Hd5|Hd4]; [lia|].
    destruct (grows_registered _ _ _ HG4 Hd4) as [Hd3|Hd3]; [|lia].
    revert Hd3. apply removeMatcher_cascades; [apply Hwf2|].
    eapply owned_chain_mono; [| |exact Hd].
    - intros x y Hxy. apply Hheap. unfold owns, get_children, get_alias in *.
      now rewrite A3, A4.
    - intros x (y & Hy & Hin)%list_elem_of_fmap.
      apply list_elem_of_fmap. exists y. split; [done|].
      apply Hc2. now rewrite A1. }
  rewrite Hstep.
  (* the remaining turns: the alias copies *)
  pose proof (addRoute_loop_quiet E (mkRaw p n a r m o cs) parent true
                (mergeOptions (globalOptions E) o) loopf copies) as Hq.
  pose proof (addRoute_loop_sound E registry_wf shrinks_wf fresh_wf
                push_child_wf push_alias_wf (insertMatcher_wf E) wf_log_bound
                (mkRaw p n a r m o cs) parent true
                (mergeOptions (globalOptions E) o) loopf copies) as Hs.
  fold step in Hq, Hs.
  set (v1 := {| originalRecord := Some new; originalMatcher := Some new;
                loop_state := st5 |}) in *.
  assert (Forall (aliased parent) copies) as Hal.
  { eapply Forall_impl; [exact Hcopies|]. intros nr Hnr. left.
    eexists. exact Hnr. }
  assert (forall matcher orig s,
             isAliasRecord matcher = true -> extends s (loopf matcher orig s))
    as Hquiet.
  { intros matcher orig s Ha. unfold loopf. now apply children_loop_quiet. }
  assert (forall matcher orig, sound registry_wf (loopf matcher orig)) as Hsound.
  { intros matcher orig s Hs'. unfold loopf. now apply children_loop_sound. }
  destruct (Hq Hal Hquiet v1 (mk_is_Some _ _ eq_refl)) as (Hext & Hom).
  destruct (Hs Hsound v1 Hwf5) as (_ & HG).
  cbn [loop_state originalMatcher v1] in Hext, Hom, HG.
  cbn [fst snd]. split.
  - intros d Hd Hd'.
    assert (mid d < next_id st)%nat as Hbound
        by (eapply registered_bound; [exact Hwf|];
            eapply owned_chain_registered; exact Hd).
    destruct (grows_registered _ _ _ HG Hd') as [H5|H5];
      [now apply (Hgone5 d)|].
    pose proof (registered_bound st5 new Hwf5 Hnew5). lia.
  - exists new. split; [exact Hom|].
    split; [now rewrite (extends_map _ _ Hext)|].
    split; [eapply extends_registered; eassumption|].
    split; [lia|]. split; [exact Hname|exact Hparent].
Qed.

End NamedReplacement.

(** C9, as amended.  In every registry reached by [addRoute] and
    [removeRoute] calls: adding a canonical record (at top level or under
    a parent that is no alias record) whose name [k] is held by a matcher
    [old] of the sequence first removes [old] together with everything it
    reached through its children and alias links, and the name index then
    hands [k] to the new matcher; [removeRoute] of a matcher of the
    sequence takes it out of the sequence and its name out of the index,
    then runs [removeRoute] on each of its children and aliases, so that
    nothing it reached is left; the name branch does the same for the
    matcher the name is held by. *)
Theorem named_route_replaces_prior
    (E : Matcher.Env) (cs : list Matcher.call)
    (record : Matcher.RouteRecordRaw)
    (parent : option Matcher.RouteRecordMatcher)
    (k : Matcher.RouteRecordName) (old : Matcher.RouteRecordMatcher)
    (Hname : Matcher.truthy_name (Matcher.raw_name record) = Some k)
    (Hcanonical : Matcher.isAliasRecord_opt parent = false)
    (Hold : Matcher.matcherMap (Matcher.run E cs) !! k = Some old)
    (Hregistered : registered (Matcher.run E cs) old) :
  let st := Matcher.run E cs in
  let res := Matcher.addRoute E record parent None st in
  ((forall d, owned_chain st old d -> ~ registered (snd res) d) /\
   exists new,
     fst res = Some new /\
     Matcher.matcherMap (snd res) !! k = Some new /\
     registered (snd res) new /\
     (Matcher.next_id st <= Matcher.mid new)%nat /\
     Matcher.name (Matcher.record new) = Matcher.raw_name record) /\
  (forall m, registered st m ->
     let st' := Matcher.removeRoute (inr m) st in
     ~ registered st' m /\
     (forall k', Matcher.truthy_name (Matcher.name (Matcher.record m)) = Some k' ->
                 Matcher.matcherMap st' !! k' = None) /\
     (forall d, owned_chain st m d -> ~ registered st' d) /\
     exists index,
       Matcher.indexOf (Matcher.matchers st) m = Some index /\
       st' = foldl (fun s x => Matcher.removeRoute (inr x) s)
               (foldl (fun s x => Matcher.removeRoute (inr x) s)
                      (Matcher.detach index m st)
                      (Matcher.get_children st m))
               (Matcher.get_alias st m)) /\
  Matcher.removeRoute (inl k) st = Matcher.removeRoute (inr old) st.
Proof.
  intros st res. pose proof (run_wf E cs) as Hwf. fold st in Hwf, Hold, Hregistered.
  split; [|split].
  - destruct (addRoute_replaces E record parent k old st Hwf Hname Hcanonical
                Hold Hregistered) as (H1 & new & H2 & H3 & H4 & H5 & H6 & _).
    split; [exact H1|]. exists new. auto.
  - intros m Hm st'. unfold st'. cbn [Matcher.removeRoute].
    split; [apply (removeMatcher_cascades st m m (wf_nodup st Hwf));
            now apply chain_here|].
    split; [intros k'; now apply removeMatcher_unmaps|].
    split; [intros d; apply removeMatcher_cascades, (wf_nodup st Hwf)|].
    destruct (registered_indexOf st m Hm) as (i & Hi). exists i.
    split; [exact Hi|]. now rewrite removeMatcher_unfold, Hi.
  - apply removeName_as_matcher; [exact Hold|exact Hregistered|].
    apply (wf_index st Hwf k old Hold).
Qed.

(** ** Static beats dynamic; the theorem on the registry invariants *)
Section RegistryTheorem.
Import Matcher.
Context (E : Env) {host : Host}.

(** The matcher [addRoute] builds for a top-level record without alias
    and children. *)
Definition leaf_matcher (p : string) (n : option RouteRecordName)
    (r : option string) (m : option Meta) (o : PartialOptions)
    (st : state) : RouteRecordMatcher :=
  {| mid := S (next_id st);
     parser := tokensToParser E p (mergeOptions (globalOptions E) o);
     record := {| rid := next_id st; path := p; redirect := r; name := n;
                  meta := default ∅ m; aliasOf := None; children := [] |};
     parent := None |}.

Lemma addRoute_leaf p n r m o st :
  addRoute E (mkRaw p n None r m o None) None None st
  = (Some (leaf_matcher p n r m o st),
     insertMatcher E (leaf_matcher p n r m o st)
       (match truthy_name n with
        | Some k => removeRoute (inl k) (snd (fresh (snd (fresh st))))
        | None => snd (fresh (snd (fresh st)))
        end)).
Proof.
  cbn -[removeRoute insertMatcher mergeOptions globalOptions].
  rewrite Nat.eqb_refl. cbn [negb].
  destruct (truthy_name n); reflexivity.
Qed.

Lemma removeName_absent k st :
  matcherMap st !! k = None -> removeRoute (inl k) st = st.
Proof. intros H. cbn [removeRoute]. rewrite removeName_unfold. now rewrite H. Qed.

Lemma addRoute_leaf_fresh_name p n r m o st :
  (forall k, truthy_name n = Some k -> matcherMap st !! k = None) ->
  snd (addRoute E (mkRaw p n None r m o None) None None st)
  = insertMatcher E (leaf_matcher p n r m o st) (snd (fresh (snd (fresh st)))).
Proof.
  intros Hk. rewrite addRoute_leaf. cbn [snd].
  destruct (truthy_name n) as [k|]; [|done].
  now rewrite removeName_absent by (cbn; auto).
Qed.

Hypothesis cmp_antisym :
  forall a b, Z.sgn (comparePathParserScore E b a)
              = - Z.sgn (comparePathParserScore E a b).
Hypothesis cmp_trans :
  forall a b c, comparePathParserScore E a b <= 0 ->
                comparePathParserScore E b c <= 0 ->
                comparePathParserScore E a c <= 0.

Context (n1 n2 : option RouteRecordName) (r1 r2 : option string)
        (m1 m2 : option Meta) (o1 o2 : PartialOptions).

Let fixed := mkRaw "/fixed" n1 None r1 m1 o1 None.
Let dynamic := mkRaw "/:a" n2 None r2 m2 o2 None.
Let parser_fixed := tokensToParser E "/fixed" (mergeOptions (globalOptions E) o1).
Let parser_dynamic := tokensToParser E "/:a" (mergeOptions (globalOptions E) o2).

(** The two siblings do not share a name. *)
Hypothesis names_differ :
  forall k, truthy_name n1 = Some k -> truthy_name n2 <> Some k.
(** The compiled static pattern accepts its own path and, as section
    4.1 demands, outranks the dynamic one. *)
Hypothesis fixed_accepts : re_test parser_fixed "/fixed" = true.
Hypothesis static_outranks :
  comparePathParserScore E parser_fixed parser_dynamic < 0.

Lemma lookup_index_after_insert (x : RouteRecordMatcher) st k :
  matcherMap st = ∅ ->
  truthy_name (name (record x)) <> Some k ->
  matcherMap (insertMatcher E x st) !! k = None.
Proof.
  intros Hm Hk. unfold insertMatcher. cbn [matcherMap]. rewrite Hm.
  destruct (truthy_name (name (record x))) as [k'|]; [|apply lookup_empty].
  destruct (isAliasRecord x); [apply lookup_empty|].
  rewrite lookup_insert_ne; [apply lookup_empty|congruence].
Qed.

Lemma static_first_either_order (cur : MatcherLocation) :
  forall order, order = [fixed; dynamic] \/ order = [dynamic; fixed] ->
  exists loc,
    resolve (run E (map (fun r => AddRoute r None) order))
            (mkRawLocation None (Some "/fixed"%string) None) cur = inr loc /\
    path <$> loc_matched loc = ["/fixed"%string] /\
    loc_name loc = n1.
Proof.
  intros order [-> | ->]; unfold run; cbn [map foldl exec].
  - unfold fixed at 1. rewrite addRoute_leaf_fresh_name
      by (intros; apply lookup_empty).
    unfold dynamic. rewrite addRoute_leaf_fresh_name.
    2:{ intros k Hk. apply lookup_index_after_insert; [done|].
        cbn. intros H1. now apply (names_differ k). }
    cbn -[mergeOptions globalOptions]. fold parser_fixed parser_dynamic.
    pose proof (cmp_antisym parser_fixed parser_dynamic).
    destruct (Z.leb_spec 0 (comparePathParserScore E parser_dynamic parser_fixed));
      [|lia].
    cbn -[mergeOptions globalOptions]. fold parser_fixed.
    rewrite fixed_accepts. eexists. split; [reflexivity|]. done.
  - unfold dynamic at 1. rewrite addRoute_leaf_fresh_name
      by (intros; apply lookup_empty).
    unfold fixed. rewrite addRoute_leaf_fresh_name.
    2:{ intros k Hk. apply lookup_index_after_insert; [done|].
        cbn. intros H2. now apply (names_differ k). }
    cbn -[mergeOptions globalOptions]. fold parser_fixed parser_dynamic.
    destruct (Z.leb_spec 0 (comparePathParserScore E parser_fixed parser_dynamic));
      [lia|].
    cbn -[mergeOptions globalOptions]. fold parser_fixed.
    rewrite fixed_accepts. eexists. split; [reflexivity|]. done.
Qed.

(** C8.  After every sequence of [addRoute] and [removeRoute] calls the
    ranked sequence is sorted by the score comparator (no matcher
    stands before one that the comparator ranks strictly first),
    matchers of equal score stand in the order in which [insertMatcher]
    received them, and every entry of the name index is a canonical
    (non-alias) matcher carrying that name; and for the siblings
    [/fixed] and [/:a], registered in either order, the path [/fixed]
    resolves to the static route. *)
Theorem registry_ranked_by_score (cs : list call) (cur : MatcherLocation) :
  let st := run E cs in
  StronglySorted (fun x y => cmp E x y <= 0) (matchers st) /\
  StronglySorted
    (fun x y => cmp E x y = 0 -> before (inserted st) (mid x) (mid y))
    (matchers st) /\
  (forall n m, matcherMap st !! n = Some m ->
               truthy_name (name (record m)) = Some n /\
               isAliasRecord m = false) /\
  (forall order, order = [fixed; dynamic] \/ order = [dynamic; fixed] ->
     exists loc,
       resolve (run E (map (fun r => AddRoute r None) order))
               (mkRawLocation None (Some "/fixed"%string) None) cur = inr loc /\
       path <$> loc_matched loc = ["/fixed"%string] /\
       loc_name loc = n1).
Proof.
  intros st. pose proof (run_inv E cmp_antisym cmp_trans cs) as [I1 [_ _ _ _ I6]].
  fold st in I1, I6. split; [|split; [|split]].
  - eapply StronglySorted_impl; [|exact I1]. intros x y [H _]. exact H.
  - eapply StronglySorted_impl; [|exact I1]. intros x y [_ H]. exact H.
  - exact I6.
  - apply static_first_either_order.
Qed.

End RegistryTheorem.

(** ** The comparator of [SpecParser] is a total preorder *)
Section SpecParserFacts.
Import Matcher SpecParser.

Lemma compareScore_antisym a : forall b,
  Z.sgn (compareScore b a) = - Z.sgn (compareScore a b).
Proof.
  induction a as [|x a IH]; intros [|y b]; cbn; try done.
  destruct (Z.eqb_spec (y - x) 0), (Z.eqb_spec (x - y) 0); try lia.
  apply IH.
Qed.

Lemma compareScore_trans a : forall b c,
  compareScore a b <= 0 -> compareScore b c <= 0 -> compareScore a c <= 0.
Proof.
  induction a as [|x a IH]; intros [|y b] [|z c]; cbn; try lia.
  destruct (Z.eqb_spec (y - x) 0), (Z.eqb_spec (z - y) 0),
    (Z.eqb_spec (z - x) 0); try lia.
  apply IH.
Qed.

Lemma spec_cmp_antisym (a b : PathParser) :
  Z.sgn (Matcher.comparePathParserScore env b a)
  = - Z.sgn (Matcher.comparePathParserScore env a b).
Proof. apply compareScore_antisym. Qed.

Lemma spec_cmp_trans (a b c : PathParser) :
  Matcher.comparePathParserScore env a b <= 0 ->
  Matcher.comparePathParserScore env b c <= 0 ->
  Matcher.comparePathParserScore env a c <= 0.
Proof. apply compareScore_trans. Qed.

End SpecParserFacts.

(** ** The registry theorems at work on a small route table *)
Section RegistryWitnesses.
Import Matcher SpecParser.
Local Open Scope string_scope.
#[local] Existing Instance plain_host.

(** [/:a] named [user] is registered before [/fixed] named [fixed]. *)
Definition two_routes : state :=
  run env [AddRoute (route "/:a" (Some "user")) None;
           AddRoute (route "/fixed" (Some "fixed")) None].

Lemma resolve_by_path_first_match_witness :
  truthy_name (l_name (by_path "/a/b")) = None /\
  l_path (by_path "/a/b") = Some "/a/b" /\
  resolve two_routes (by_path "/a/b") start
  = inr {| loc_name := None; loc_path := "/a/b"; loc_params := ∅;
           loc_matched := []; loc_meta := ∅ |}.
Proof.
  split; [reflexivity|]. split; [reflexivity|].
  apply (proj2 (resolve_by_path_first_match two_routes (by_path "/a/b")
                  "/a/b" start eq_refl eq_refl)).
  repeat constructor.
Defined.

Lemma resolve_unknown_name_throws_witness :
  truthy_name (l_name (by_name "nobody")) = Some "nobody" /\
  matcherMap two_routes !! "nobody" = None /\
  resolve two_routes (by_name "nobody") start = inl MATCHER_NOT_FOUND.
Proof.
  assert (matcherMap two_routes !! "nobody" = None) as H by (vm_compute; reflexivity).
  split; [reflexivity|]. split; [exact H|].
  exact (resolve_unknown_name_throws two_routes (by_name "nobody") "nobody"
           start eq_refl H).
Defined.

(** The claim C7 as it was stated fails for the empty name.  The name
    index never holds it, yet a target given by the name [''] is not
    looked up by name: [location.name] is falsy, the target has no path
    either, and [resolve] goes by the current location, here the route
    named [fixed], and returns it. *)
Lemma empty_name_resolves_by_current_location :
  let current := mkLocation (Some "fixed") "/fixed" ∅ [] ∅ in
  matcherMap two_routes !! "" = None /\
  exists loc,
    resolve two_routes (mkRawLocation (Some "") None None) current = inr loc /\
    loc_name loc = Some "fixed" /\
    loc_path loc = "/fixed" /\
    path <$> loc_matched loc = ["/fixed"].
Proof.
  intros current. split; [vm_compute; reflexivity|].
  eexists. split; [vm_compute; reflexivity|]. vm_compute. repeat split.
Qed.

Lemma registry_ranked_by_score_witness :
  let st := run env [AddRoute (route "/:a" (Some "user")) None;
                     AddRoute (route "/fixed" (Some "fixed")) None;
                     RemoveRoute (inl "user")] in
  StronglySorted (fun x y => cmp env x y <= 0) (matchers st) /\
  (forall n m, matcherMap st !! n = Some m ->
               truthy_name (name (record m)) = Some n /\
               isAliasRecord m = false) /\
  exists loc,
    resolve two_routes (by_path "/fixed") start = inr loc /\
    path <$> loc_matched loc = ["/fixed"] /\
    loc_name loc = Some "fixed".
Proof.
  intros st.
  pose proof (registry_ranked_by_score env spec_cmp_antisym spec_cmp_trans
                (Some "fixed") (Some "user") None None None None
                (mkPartial None None None) (mkPartial None None None))
    as H.
  cbv zeta in H.
  assert (forall k, truthy_name (Some "fixed") = Some k ->
                    truthy_name (Some "user") <> Some k) as Hn.
  { intros k [= <-]. discriminate. }
  specialize (H Hn eq_refl eq_refl
                [AddRoute (route "/:a" (Some "user")) None;
                 AddRoute (route "/fixed" (Some "fixed")) None;
                 RemoveRoute (inl "user")] start).
  destruct H as (H1 & _ & H3 & H4).
  split; [exact H1|]. split; [exact H3|].
  exact (H4 _ (or_intror eq_refl)).
Defined.

(** [/a] named [x] with the alias [/b]. *)
Definition named_table : state :=
  run env [AddRoute (mkRaw "/a" (Some "x") (Some (inl "/b")) None None
                           (mkPartial None None None) None) None].

Lemma named_route_replaces_prior_witness :
  exists old,
    truthy_name (raw_name (route "/z" (Some "x"))) = Some "x" /\
    isAliasRecord_opt None = false /\
    matcherMap named_table !! "x" = Some old /\
    registered named_table old /\
    exists new,
      fst (addRoute env (route "/z" (Some "x")) None None named_table) = Some new /\
      matcherMap (snd (addRoute env (route "/z" (Some "x")) None None named_table))
        !! "x" = Some new /\
      ~ registered (snd (addRoute env (route "/z" (Some "x")) None None named_table))
          old.
Proof.
  eexists. split; [reflexivity|]. split; [reflexivity|].
  split; [vm_compute; reflexivity|].
  match goal with
  | |- registered _ ?o /\ _ =>
      assert (registered named_table o) as Hreg
          by (apply list_elem_of_In; vm_compute; tauto)
  end.
  split; [exact Hreg|].
  match goal with
  | |- context [registered _ ?o] =>
      assert (matcherMap named_table !! "x" = Some o) as Hold
          by (vm_compute; reflexivity);
      pose proof (named_route_replaces_prior env
                    [AddRoute (mkRaw "/a" (Some "x") (Some (inl "/b")) None None
                                     (mkPartial None None None) None) None]
                    (route "/z" (Some "x")) None "x" o eq_refl eq_refl Hold Hreg)
        as H
  end.
  cbv zeta in H. destruct H as ((Hgone & new & H1 & H2 & _) & _ & _).
  exists new. split; [exact H1|]. split; [exact H2|].
  apply Hgone. now apply chain_here.
Defined.

(** [/p] with the alias [/q], then [/a] named [x]. *)
Definition aliased_table : state :=
  run env [AddRoute (mkRaw "/p" None (Some (inl "/q")) None None
                           (mkPartial None None None) None) None;
           AddRoute (route "/a" (Some "x")) None].

(** The claim C9 as it was stated fails: a record named [x] added under
    the alias matcher of [/q] removes nothing, and the name index still
    hands [x] to the earlier registration [/a]. *)
Lemma named_route_under_alias_keeps_prior :
  exists parent old,
    matchers aliased_table !! 1%nat = Some parent /\
    path (record parent) = "/q" /\
    isAliasRecord parent = true /\
    matcherMap aliased_table !! "x" = Some old /\
    path (record old) = "/a" /\
    let st' := snd (addRoute env (route "c" (Some "x")) (Some parent) None
                      aliased_table) in
    option_map (fun m => path (record m)) (matcherMap st' !! "x") = Some "/a" /\
    indexOf (matchers st') old = Some 3%nat /\
    (path ∘ record) <$> matchers st' = ["/q/c"; "/p"; "/q"; "/a"].
Proof.
  eexists. eexists.
  split; [vm_compute; reflexivity|].
  split; [reflexivity|]. split; [reflexivity|].
  split; [vm_compute; reflexivity|].
  split; [reflexivity|].
  vm_compute. auto.
Qed.

End RegistryWitnesses.

(** ** The navigation controller *)
Section GuardQueues.
Import Router.
Context (E : Env).

Definition is_guard_event (e : Event) : Prop :=
  match e with EvGuard _ _ => True | _ => False end.

Definition is_history_event (e : Event) : Prop :=
  match e with EvHistory _ => True | _ => False end.

(** The guards of a queue ran: nothing but guard invocations entered the
    trace. *)
Definition only_guards_ran (s s' : Run) : Prop :=
  exists evs, trace s' = trace s ++ evs /\ Forall is_guard_event evs.

Lemma only_guards_ran_refl s : only_guards_ran s s.
Proof. exists []. rewrite app_nil_r. split; [done|constructor]. Qed.

Lemma only_guards_ran_trans s1 s2 s3 :
  only_guards_ran s1 s2 -> only_guards_ran s2 s3 -> only_guards_ran s1 s3.
Proof.
  intros (e1 & H1 & F1) (e2 & H2 & F2). exists (e1 ++ e2).
  rewrite H2, H1, app_assoc. split; [done|]. now apply Forall_app.
Qed.

Lemma run_lazy_only_guards to from l s :
  only_guards_ran s (snd (run_lazy E to from l s)).
Proof.
  destruct l as [ph g|]; cbn.
  - unfold guardToPromiseFn. destruct (guard E g to from (world s)) as [ret w].
    assert (only_guards_ran s
              {| world := w; trace := trace s ++ [EvGuard ph g] |}) as H.
    { exists [EvGuard ph g]. split; [done|]. now repeat constructor. }
    destruct ret as [|[]| | |]; exact H.
  - unfold checkCanceledNavigationAndReject.
    destruct (checkCanceledNavigation _ _ _); apply only_guards_ran_refl.
Qed.

Lemma runGuardQueue_only_guards to from guards :
  forall s, only_guards_ran s (snd (runGuardQueue E to from guards s)).
Proof.
  induction guards as [|g rest IH]; intros s; cbn [runGuardQueue].
  - apply only_guards_ran_refl.
  - pose proof (run_lazy_only_guards to from g s) as H.
    destruct (run_lazy E to from g s) as [[[]|e] s']; cbn [snd] in *.
    + eapply only_guards_ran_trans; [exact H|apply IH].
    + exact H.
Qed.

Lemma run_phases_only_guards to from queues :
  forall s, only_guards_ran s (snd (run_phases E to from queues s)).
Proof.
  induction queues as [|q rest IH]; intros s; cbn [run_phases].
  - apply only_guards_ran_refl.
  - pose proof (runGuardQueue_only_guards to from (q (world s)) s) as H.
    destruct (runGuardQueue E to from (q (world s)) s) as [[[]|e] s'];
      cbn [snd] in *.
    + eapply only_guards_ran_trans; [exact H|apply IH].
    + exact H.
Qed.

Lemma runGuardQueue_app to from a b s :
  runGuardQueue E to from (a ++ b) s
  = match runGuardQueue E to from a s with
    | (Fulfilled _, s') => runGuardQueue E to from b s'
    | (Rejected e, s') => (Rejected e, s')
    end.
Proof.
  revert s. induction a as [|g a IH]; intros s; cbn [app runGuardQueue]; [done|].
  destruct (run_lazy E to from g s) as [[[]|e] s']; [apply IH|done].
Qed.

Lemma run_phases_app to from a b s :
  run_phases E to from (a ++ b) s
  = match run_phases E to from a s with
    | (Fulfilled _, s') => run_phases E to from b s'
    | (Rejected e, s') => (Rejected e, s')
    end.
Proof.
  revert s. induction a as [|q a IH]; intros s; cbn [app run_phases]; [done|].
  destruct (runGuardQueue E to from (q (world s)) s) as [[[]|e] s'];
    [apply IH|done].
Qed.

(** Every queue of [navigate] is a list of guards followed by the one
    check. *)
Lemma phase_ends_with_check to from q w :
  q ∈ phases E to from ->
  exists ph gs, q w = map (LGuard ph) gs ++ [LCheck].
Proof.
  unfold phases. rewrite !elem_of_cons.
  intros [->|[->|[->|[->|[->|[->|H]]]]]]; [| | | | | |inv H].
  - unfold leave_queue. destruct (extractChangingRecords to from) as [[l u] e].
    eauto.
  - unfold beforeEach_queue. eauto.
  - unfold update_queue. destruct (extractChangingRecords to from) as [[l u] e].
    eauto.
  - unfold beforeEnter_queue. eauto.
  - unfold enter_queue. eauto.
  - unfold beforeResolve_queue. eauto.
Qed.

Lemma stale_check_rejects to from s :
  same_object (pendingLocation (world s)) to = false ->
  runGuardQueue E to from [LCheck] s
  = (Rejected (Failure (NAVIGATION_CANCELLED from to)), s).
Proof.
  intros H. cbn. unfold checkCanceledNavigationAndReject, checkCanceledNavigation.
  now rewrite H.
Qed.

Lemma finalize_stale to from isPush replace data s :
  same_object (pendingLocation (world s)) to = false ->
  finalizeNavigation E to from isPush replace data s
  = (Some (NAVIGATION_CANCELLED from to), s).
Proof.
  intros H. unfold finalizeNavigation, checkCanceledNavigation. now rewrite H.
Qed.

(** The phase in which the navigation is found superseded ends it; no
    queue after it is built or run. *)
Lemma superseded_phase_cancels to from pre q post gs s s0 s1 :
  run_phases E to from pre s = (Fulfilled tt, s0) ->
  q (world s0) = gs ++ [LCheck] ->
  runGuardQueue E to from gs s0 = (Fulfilled tt, s1) ->
  same_object (pendingLocation (world s1)) to = false ->
  run_phases E to from (pre ++ q :: post) s
  = (Rejected (Failure (NAVIGATION_CANCELLED from to)), s1).
Proof.
  intros Hpre Hq Hgs Hstale. rewrite run_phases_app, Hpre.
  cbn [run_phases]. rewrite Hq, runGuardQueue_app, Hgs.
  now rewrite (stale_check_rejects to from s1 Hstale).
Qed.

End GuardQueues.

Section DuplicatedNavigation.
Import Router.
Context (E : Env).

Lemma resolve_allocates to w target w1 :
  resolve E to w = (inr target, w1) ->
  w1 = bump_tok w /\ tok target = next_tok w /\ redirectedFrom target = None.
Proof.
  unfold resolve. destruct (resolve_location E to (currentRoute w)); [done|].
  intros [= <- <-]. done.
Qed.

(** C5.  A navigation without [force] whose resolved target has no
    redirect record and is value-equal to the current location settles
    with the [NAVIGATION_DUPLICATED] failure; it invokes no guard, calls
    [handleScroll(from, from, true, false)] (the scroll behaviour fires
    when there is a browser and a behaviour is configured) and then
    notifies every [afterEach] callback with the failure; the history
    and the current location stay as they are. *)
Theorem duplicated_navigation_short_circuits
    (fuel : nat) (to : RouteLocationRaw) (original : option RouteLocation)
    (s : Run) (target : RouteLocation) (w1 : World)
    (Hresolve : resolve E to (world s) = (inr target, w1))
    (Hredirect : last_redirect E target = None)
    (Hforce : truthy (option_force to) = false)
    (Hsame : isSameRouteLocation E (currentRoute (world s))
               (set_redirectedFrom original target) = true) :
  let from := currentRoute (world s) in
  let toLocation := set_redirectedFrom original target in
  let failure := NAVIGATION_DUPLICATED from toLocation in
  let r := pushWithRedirect E (S fuel) to original s in
  fst r = Resolves (Some failure) /\
  trace (snd r)
  = trace s
    ++ (if isBrowser E && hasScrollBehavior E
        then [EvScroll from from true false] else [])
    ++ map (fun cb => EvAfterEach cb toLocation from (Some failure))
           (afterGuards (world s)) /\
  Forall (fun e => ~ is_guard_event e) (drop (length (trace s)) (trace (snd r))) /\
  routerHistory (world (snd r)) = routerHistory (world s) /\
  currentRoute (world (snd r)) = currentRoute (world s) /\
  pendingLocation (world (snd r)) = toLocation.
Proof.
  intros from toLocation failure r. unfold r.
  destruct (resolve_allocates to (world s) target w1 Hresolve) as (-> & _ & _).
  cbn [pushWithRedirect]. rewrite Hresolve. cbn [set_world world
    set_pendingLocation currentRoute bump_tok]. rewrite Hredirect.
  fold from toLocation. rewrite Hforce. cbn [negb andb].
  fold from in Hsame. fold toLocation in Hsame. rewrite Hsame.
  cbn [handled_failure]. unfold handleScroll, triggerAfterEach, emit.
  destruct (isBrowser E), (hasScrollBehavior E); cbn; rewrite ?app_nil_r;
    (split; [reflexivity|]); (split; [now rewrite <- ?app_assoc|]);
    (split; [|done]); rewrite <- ?app_assoc, drop_app_length;
    try (apply Forall_cons; split; [cbn; tauto|]);
    apply Forall_forall; intros e (cb & -> & _)%list_elem_of_fmap; cbn; tauto.
Qed.

End DuplicatedNavigation.

Section SupersededNavigation.
Import Router.
Context (E : Env).

(** [navigate] stops at the check that ends the first phase whose guards
    leave a pending location other than the target. *)
Lemma navigate_superseded
    (to from : RouteLocation) (s s0 s1 : Run)
    (pre post : list (World -> list Lazy)) (q : World -> list Lazy)
    (gs : list Lazy)
    (Hphases : phases E to from = pre ++ q :: post)
    (Hpre : run_phases E to from pre s = (Fulfilled tt, s0))
    (Hq : q (world s0) = gs ++ [LCheck])
    (Hgs : runGuardQueue E to from gs s0 = (Fulfilled tt, s1))
    (Hstale : same_object (pendingLocation (world s1)) to = false) :
  navigate E to from s = (Fulfilled (Some (NAVIGATION_CANCELLED from to)), s1).
Proof.
  unfold navigate. rewrite Hphases.
  now rewrite (superseded_phase_cancels E to from pre q post gs s s0 s1).
Qed.

(** C3, as amended.  Every queue of [navigate] ends with the one check
    that the target is still the pending location, made after the last
    guard of the phase (hence before every phase but the first).  When
    the phases before [q] went through, the guards of [q] have all let
    the navigation pass and the target is no longer the pending location,
    [navigate] settles with [NAVIGATION_CANCELLED] in the state the last
    guard of [q] left: no queue of a later phase is built and none of
    their guards runs. *)
Theorem phase_check_cancels
    (to from : RouteLocation) (s s0 s1 : Run)
    (pre post : list (World -> list Lazy)) (q : World -> list Lazy)
    (gs : list Lazy)
    (Hphases : phases E to from = pre ++ q :: post)
    (Hpre : run_phases E to from pre s = (Fulfilled tt, s0))
    (Hq : q (world s0) = gs ++ [LCheck])
    (Hgs : runGuardQueue E to from gs s0 = (Fulfilled tt, s1))
    (Hstale : same_object (pendingLocation (world s1)) to = false) :
  navigate E to from s = (Fulfilled (Some (NAVIGATION_CANCELLED from to)), s1) /\
  only_guards_ran s s1 /\
  (forall q' w, q' ∈ phases E to from ->
                exists ph guards, q' w = map (LGuard ph) guards ++ [LCheck]).
Proof.
  split; [|split].
  - exact (navigate_superseded to from s s0 s1 pre post q gs
             Hphases Hpre Hq Hgs Hstale).
  - eapply only_guards_ran_trans.
    + pose proof (run_phases_only_guards E to from pre s) as H.
      rewrite Hpre in H. exact H.
    + pose proof (runGuardQueue_only_guards E to from gs s0) as H.
      rewrite Hgs in H. exact H.
  - intros q' w Hq'. exact (phase_ends_with_check E to from q' w Hq').
Qed.

(** C1, as amended.  A navigation to a target without redirect record
    that is no duplicate runs its guard phases.  If, when the guards of
    one of its phases are through, the target is no longer the pending
    location -- another navigation was started meanwhile -- and these
    guards have all let the navigation pass, it settles with
    [NAVIGATION_CANCELLED]: it calls neither [push] nor [replace] of the
    history, leaves the current location to the other navigations, and
    only notifies the [afterEach] callbacks.  [finalizeNavigation] for a
    target that is not the pending location returns the failure and
    changes nothing. *)
Theorem superseded_navigation_settles_cancelled
    (fuel : nat) (to : RouteLocationRaw) (original : option RouteLocation)
    (s s0 s2 : Run) (target : RouteLocation) (w1 : World)
    (pre post : list (World -> list Lazy)) (q : World -> list Lazy)
    (gs : list Lazy)
    (Hresolve : resolve E to (world s) = (inr target, w1))
    (Hredirect : last_redirect E target = None)
    (Hdistinct : negb (truthy (option_force to))
                 && isSameRouteLocation E (currentRoute (world s))
                      (set_redirectedFrom original target) = false)
    (Hphases : phases E (set_redirectedFrom original target)
                 (currentRoute (world s)) = pre ++ q :: post)
    (Hpre : run_phases E (set_redirectedFrom original target)
              (currentRoute (world s)) pre
              (set_world (set_pendingLocation
                            (set_redirectedFrom original target) w1) s)
            = (Fulfilled tt, s0))
    (Hq : q (world s0) = gs ++ [LCheck])
    (Hgs : runGuardQueue E (set_redirectedFrom original target)
             (currentRoute (world s)) gs s0 = (Fulfilled tt, s2))
    (Hstale : same_object (pendingLocation (world s2))
                (set_redirectedFrom original target) = false) :
  let from := currentRoute (world s) in
  let toLocation := set_redirectedFrom original target in
  let failure := NAVIGATION_CANCELLED from toLocation in
  let r := pushWithRedirect E (S fuel) to original s in
  fst r = Resolves (Some failure) /\
  snd r = triggerAfterEach toLocation from (Some failure) s2 /\
  world (snd r) = world s2 /\
  Forall (fun e => ~ is_history_event e)
         (drop (length (trace s)) (trace (snd r))) /\
  (forall isPush replace data,
      finalizeNavigation E toLocation from isPush replace data s2
      = (Some failure, s2)).
Proof.
  intros from toLocation failure r. subst from toLocation failure r.
  destruct (resolve_allocates E to (world s) target w1 Hresolve) as (-> & _ & _).
  set (toLocation := set_redirectedFrom original target) in *.
  set (from := currentRoute (world s)) in *.
  assert (pushWithRedirect E (S fuel) to original s
          = (Resolves (Some (NAVIGATION_CANCELLED from toLocation)),
             triggerAfterEach toLocation from
               (Some (NAVIGATION_CANCELLED from toLocation)) s2)) as ->.
  { cbn [pushWithRedirect]. rewrite Hresolve.
    cbn [set_world world set_pendingLocation currentRoute bump_tok].
    rewrite Hredirect. fold from toLocation. rewrite Hdistinct.
    pose proof (navigate_superseded toLocation from _ s0 s2 pre post q gs
                  Hphases Hpre Hq Hgs Hstale) as Hnav.
    match goal with
    | |- context [navigate E toLocation from ?st] =>
        change st with
          (set_world (set_pendingLocation toLocation (bump_tok (world s))) s)
    end.
    rewrite Hnav. reflexivity. }
  cbn [fst snd]. split; [done|]. split; [done|]. split; [done|].
  split; [|intros; now apply finalize_stale].
  assert (only_guards_ran s s2) as (evs & Hevs & Hall).
  { eapply only_guards_ran_trans;
      [|pose proof (runGuardQueue_only_guards E toLocation from gs s0) as H;
        rewrite Hgs in H; exact H].
    pose proof (run_phases_only_guards E toLocation from pre
                  (set_world (set_pendingLocation toLocation (bump_tok (world s))) s))
      as H.
    rewrite Hpre in H. exact H. }
  unfold triggerAfterEach, emit. cbn [trace]. rewrite Hevs, <- app_assoc.
  rewrite drop_app_length. apply Forall_app. split.
  - eapply Forall_impl; [exact Hall|]. intros [] He; cbn in *; tauto.
  - apply Forall_forall. intros e (cb & -> & _)%list_elem_of_fmap. cbn. tauto.
Qed.

End SupersededNavigation.

Section RedirectCounter.
Import Router.
Context (E : Env).


End RedirectCounter.

(** ** The controller theorems at work on the small route table *)
Section RouterScenarios.
Import Router Scenario.
Local Open Scope string_scope.

(** The router stands at [/a] and is told to go to [/a]. *)
Lemma duplicated_navigation_short_circuits_witness :
  let s := start (router_at [10%nat] "/a") in
  let from := location_of 1%nat "/a" in
  let toLocation := location_of 2%nat "/a" in
  resolve quiet (RawString "/a") (world s) = (inr toLocation, bump_tok (world s)) /\
  last_redirect quiet toLocation = None /\
  truthy (option_force (RawString "/a")) = false /\
  Router.isSameRouteLocation quiet (currentRoute (world s)) toLocation = true /\
  fst (push quiet 1%nat (RawString "/a") s)
  = Resolves (Some (NAVIGATION_DUPLICATED from toLocation)) /\
  trace (snd (push quiet 1%nat (RawString "/a") s))
  = [EvScroll from from true false;
     EvAfterEach 7%nat toLocation from
       (Some (NAVIGATION_DUPLICATED from toLocation))].
Proof.
  intros s from toLocation.
  assert (resolve quiet (RawString "/a") (world s)
          = (inr toLocation, bump_tok (world s))) as H1 by (vm_compute; reflexivity).
  assert (last_redirect quiet toLocation = None) as H2 by reflexivity.
  assert (Router.isSameRouteLocation quiet (currentRoute (world s))
            (set_redirectedFrom None toLocation) = true) as H4
      by (vm_compute; reflexivity).
  pose proof (duplicated_navigation_short_circuits quiet 0%nat (RawString "/a")
                None s toLocation (bump_tok (world s)) H1 H2 eq_refl H4)
    as (R1 & R2 & _).
  split; [exact H1|]. split; [exact H2|]. split; [reflexivity|].
  split; [exact H4|]. split; [exact R1|]. exact R2.
Defined.

(** The first navigation of a router whose [beforeEach] guards are [13]
    and [gs]: while guard [13] is pending, [push('/b')] is called and
    runs to its end. *)
Definition race (gs : list GuardId) : Outcome * Run :=
  push racing 1%nat (RawString "/a") (start (fresh_router (13%nat :: gs))).

Definition race_target : RouteLocation := location_of 1%nat "/a".

(** The state of the navigation to [/a] when its queue of [beforeEach]
    guards starts, and when the guards [13] and [10] of that queue are
    through. *)
Definition race_started (gs : list GuardId) : Run :=
  start (set_pendingLocation race_target
           (bump_tok (fresh_router (13%nat :: gs)))).

Definition race_guarded : Run :=
  snd (runGuardQueue racing race_target START_LOCATION_NORMALIZED
         [LGuard BeforeEach 13%nat; LGuard BeforeEach 10%nat]
         (race_started [10%nat])).

(** The claim C1 as it was stated fails: [push('/b')] is called while
    the navigation to [/a] is in its [beforeEach] phase, and the next
    guard of that phase refuses the navigation to [/a], which settles
    with [NAVIGATION_ABORTED], not [NAVIGATION_CANCELLED]; the navigation
    to [/b] is the one that is persisted. *)
Lemma superseded_navigation_may_abort :
  let after13 :=
    snd (guardToPromiseFn racing BeforeEach 13%nat race_target
           START_LOCATION_NORMALIZED (race_started [15%nat])) in
  path (pendingLocation (world after13)) = "/b" /\
  same_object (pendingLocation (world after13)) race_target = false /\
  fst (race [15%nat])
  = Resolves (Some (NAVIGATION_ABORTED START_LOCATION_NORMALIZED race_target)) /\
  path (currentRoute (world (snd (race [15%nat])))) = "/b" /\
  MemoryHistory.queue (routerHistory (world (snd (race [15%nat])))) = ["/b"].
Proof. vm_compute. repeat split; reflexivity. Qed.

Lemma superseded_navigation_settles_cancelled_witness :
  let s := start (fresh_router [13%nat; 10%nat]) in
  let r := pushWithRedirect racing 1%nat (RawString "/a") None s in
  same_object (pendingLocation (world race_guarded)) race_target = false /\
  fst r
  = Resolves (Some (NAVIGATION_CANCELLED START_LOCATION_NORMALIZED race_target)) /\
  Forall (fun e => ~ is_history_event e) (drop (length (trace s)) (trace (snd r))) /\
  path (currentRoute (world (snd r))) = "/b" /\
  MemoryHistory.queue (routerHistory (world (snd r))) = ["/b"].
Proof.
  intros s r.
  assert (same_object (pendingLocation (world race_guarded)) race_target = false)
    as Hstale by (vm_compute; reflexivity).
  pose proof (superseded_navigation_settles_cancelled racing 0%nat (RawString "/a")
                None s (race_started [10%nat]) race_guarded race_target
                (bump_tok (fresh_router [13%nat; 10%nat]))
                [leave_queue racing race_target START_LOCATION_NORMALIZED]
                [update_queue racing race_target START_LOCATION_NORMALIZED;
                 (fun _ => beforeEnter_queue racing race_target
                             START_LOCATION_NORMALIZED);
                 (fun _ => enter_queue racing race_target
                             START_LOCATION_NORMALIZED);
                 beforeResolve_queue]
                beforeEach_queue
                [LGuard BeforeEach 13%nat; LGuard BeforeEach 10%nat]) as H.
  cbv zeta in H. fold r in H.
  destruct H as (H1 & H2 & H3 & H4 & _);
    try (vm_compute; reflexivity).
  split; [exact Hstale|]. split; [exact H1|]. split; [exact H4|].
  rewrite H3. vm_compute. split; reflexivity.
Defined.

(** The claim C3 as it was stated fails: after guard [13] has settled the
    target [/a] is no longer the pending location, and yet guard [10],
    which follows it in the same phase, is invoked. *)
Lemma guard_runs_after_supersession :
  let after13 :=
    snd (guardToPromiseFn racing BeforeEach 13%nat race_target
           START_LOCATION_NORMALIZED (race_started [10%nat])) in
  same_object (pendingLocation (world after13)) race_target = false /\
  trace (snd (navigate racing race_target START_LOCATION_NORMALIZED
                (race_started [10%nat])))
  = [EvGuard BeforeEach 13%nat; EvGuard BeforeEach 10%nat].
Proof. vm_compute. split; reflexivity. Qed.

Lemma phase_check_cancels_witness :
  navigate racing race_target START_LOCATION_NORMALIZED (race_started [10%nat])
  = (Fulfilled (Some (NAVIGATION_CANCELLED START_LOCATION_NORMALIZED
                        race_target)),
     race_guarded) /\
  trace race_guarded = [EvGuard BeforeEach 13%nat; EvGuard BeforeEach 10%nat].
Proof.
  split; [|vm_compute; reflexivity].
  apply (phase_check_cancels racing race_target START_LOCATION_NORMALIZED
           (race_started [10%nat]) (race_started [10%nat]) race_guarded
           [leave_queue racing race_target START_LOCATION_NORMALIZED]
           [update_queue racing race_target START_LOCATION_NORMALIZED;
            (fun _ => beforeEnter_queue racing race_target
                        START_LOCATION_NORMALIZED);
            (fun _ => enter_queue racing race_target
                        START_LOCATION_NORMALIZED);
            beforeResolve_queue]
           beforeEach_queue
           [LGuard BeforeEach 13%nat; LGuard BeforeEach 10%nat]);
    vm_compute; reflexivity.
Defined.

End RouterScenarios.

(** ** The order of the leave guards *)

Section LeaveGuardOrder.
Import Router Scenario.

(** The records of [from] that [to] does not match, from the root to the
    leaf. *)
Definition leaving (to from : RouteLocation) : list RecordId :=
  filter (fun r => negb (mem r (matched to))) (matched from).

Lemma extractChangingRecords_loop (to from : RouteLocation) (n : nat) :
  (foldl (fun '(leavingRecords, updatingRecords, enteringRecords) i =>
           let '(leavingRecords, updatingRecords) :=
             match matched from !! i with
             | Some recordFrom =>
                 if negb (mem recordFrom (matched to))
                 then (leavingRecords ++ [recordFrom], updatingRecords)
                 else (leavingRecords, updatingRecords ++ [recordFrom])
             | None => (leavingRecords, updatingRecords)
             end in
           let enteringRecords :=
             match matched to !! i with
             | Some recordTo =>
                 if negb (mem recordTo (matched from))
                 then enteringRecords ++ [recordTo]
                 else enteringRecords
             | None => enteringRecords
             end in
           (leavingRecords, updatingRecords, enteringRecords))
        ([], [], []) (seq 0 n)).1.1
  = filter (fun r => negb (mem r (matched to))) (take n (matched from)).
Proof.
  induction n as [|n IH]; [reflexivity|].
  rewrite seq_S, foldl_app. cbn [foldl Nat.add].
  match goal with |- context [foldl ?f ?a (seq 0 n)] =>
    destruct (foldl f a (seq 0 n)) as [[l u] e] end.
  cbn [fst] in IH. subst l.
  destruct (matched from !! n) as [r|] eqn:Hr.
  - rewrite (take_S_r _ _ _ Hr), filter_app, filter_cons, filter_nil.
    destruct (negb (mem r (matched to))); cbn.
    + rewrite decide_True by done. reflexivity.
    + rewrite decide_False by (intros []). now rewrite app_nil_r.
  - apply lookup_ge_None in Hr. rewrite !take_ge by lia. reflexivity.
Qed.

Lemma extractChangingRecords_leaving (to from : RouteLocation) :
  (extractChangingRecords to from).1.1 = leaving to from.
Proof.
  unfold extractChangingRecords, leaving.
  rewrite extractChangingRecords_loop, take_ge by lia. reflexivity.
Qed.

(** The router stands at [/parent/child], matched by the records [3] and
    its child [4]; their components declare the leave guards [33] and
    [44], and the leave guards [30] and [40] were added to the records
    themselves. *)
Definition nested_router : World :=
  with_leaveGuards (<[3%nat := [30%nat]]> (<[4%nat := [40%nat]]> ∅))
    (router_at [10%nat] "/parent/child"%string).

(** C4.  The queue of the leave phase holds the leave guards that the
    components of the leaving records declare, the leaf's first, and
    after them the leave guards added to the leaving records, the
    root's first; the check for a superseded navigation ends it.  When
    the router leaves [/parent/child] for [/a], the guard [30] of the
    parent record runs before the guard [40] of its child, whereas the
    guard [44] of the child's component runs before the guard [33] of
    the parent's. *)
Theorem record_leave_guards_run_root_to_leaf :
  (forall (E : Env) (to from : RouteLocation) (w : World),
      leave_queue E to from w
      = map (LGuard Leave)
          (extractComponentsGuards E (rev (leaving to from)) beforeRouteLeave
           ++ record_guards (leaveGuards w) (leaving to from))
        ++ [LCheck]) /\
  (let to := location_of 2%nat "/a"%string in
   let from := currentRoute nested_router in
   let r := push nested_views 1%nat (RawString "/a"%string)
              (start nested_router) in
   matched from = [3%nat; 4%nat] /\
   leaving to from = [3%nat; 4%nat] /\
   leave_queue nested_views to from nested_router
   = [LGuard Leave 44%nat; LGuard Leave 33%nat;
      LGuard Leave 30%nat; LGuard Leave 40%nat; LCheck] /\
   fst r = Resolves None /\
   take 5 (trace (snd r))
   = [EvGuard Leave 44%nat; EvGuard Leave 33%nat;
      EvGuard Leave 30%nat; EvGuard Leave 40%nat;
      EvGuard BeforeEach 10%nat]).
Proof.
  split.
  - intros E to from w. unfold leave_queue.
    pose proof (extractChangingRecords_leaving to from) as H.
    destruct (extractChangingRecords to from) as [[l u] e].
    cbn [fst] in H. subst l. reflexivity.
  - vm_compute. repeat split; reflexivity.
Qed.

End LeaveGuardOrder.

(** ** Redirects that follow one another *)

Section RedirectChains.
Import Router Scenario.
Local Open Scope string_scope.

(** A record that redirects to its own path: every call of
    [pushWithRedirect] makes the next one, whatever the number of calls
    allowed. *)
Lemma record_redirect_to_itself_never_settles (fuel : nat) :
  forall (to : RouteLocationRaw) (original : option RouteLocation) (s : Run),
    o_path (locationAsObject to) = Some "/loop" ->
    fst (pushWithRedirect quiet fuel to original s) = OutOfFuel.
Proof.
  induction fuel as [|fuel IH]; intros to original s Hto; [reflexivity|].
  cbn [pushWithRedirect]. unfold resolve.
  cbn [Router.resolve_location quiet]. unfold resolve_location at 1.
  rewrite Hto. cbn -[pushWithRedirect]. apply IH. reflexivity.
Qed.

(** A router at [/a] whose only [beforeEach] guard is [g]. *)
Definition guarded_router (g : GuardId) : World :=
  with_beforeGuards [g] (router_at [10%nat] "/a").





End RedirectChains.

(** ** [extractChangingRecords] *)

Section ChangingRecords.
Import Router.

Lemma extractChangingRecords_all (to from : RouteLocation) (n : nat) :
  foldl (fun '(leavingRecords, updatingRecords, enteringRecords) i =>
           let '(leavingRecords, updatingRecords) :=
             match matched from !! i with
             | Some recordFrom =>
                 if negb (mem recordFrom (matched to))
                 then (leavingRecords ++ [recordFrom], updatingRecords)
                 else (leavingRecords, updatingRecords ++ [recordFrom])
             | None => (leavingRecords, updatingRecords)
             end in
           let enteringRecords :=
             match matched to !! i with
             | Some recordTo =>
                 if negb (mem recordTo (matched from))
                 then enteringRecords ++ [recordTo]
                 else enteringRecords
             | None => enteringRecords
             end in
           (leavingRecords, updatingRecords, enteringRecords))
        ([], [], []) (seq 0 n)
  = (filter (fun r => negb (mem r (matched to))) (take n (matched from)),
     filter (fun r => mem r (matched to)) (take n (matched from)),
     filter (fun r => negb (mem r (matched from))) (take n (matched to))).
Proof.
  induction n as [|n IH]; [reflexivity|].
  rewrite seq_S, foldl_app, IH. cbn [foldl Nat.add]. clear IH.
  assert (Hstep : forall (P : RecordId -> bool) (l : list RecordId) r,
             l !! n = Some r ->
             filter P (take (S n) l)
             = filter P (take n l) ++ (if P r then [r] else [])).
  { intros P l r Hr.
    rewrite (take_S_r _ _ _ Hr), filter_app, filter_cons, filter_nil.
    destruct (P r); cbn; [rewrite decide_True by done|
                          rewrite decide_False by (intros [])]; done. }
  assert (Hend : forall (P : RecordId -> bool) (l : list RecordId),
             l !! n = None -> filter P (take (S n) l) = filter P (take n l)).
  { intros P l Hr. apply lookup_ge_None in Hr. now rewrite !take_ge by lia. }
  assert (Hto : filter (fun r => negb (mem r (matched from)))
                       (take (S n) (matched to))
                = match matched to !! n with
                  | Some recordTo =>
                      if negb (mem recordTo (matched from))
                      then filter (fun r => negb (mem r (matched from)))
                                  (take n (matched to)) ++ [recordTo]
                      else filter (fun r => negb (mem r (matched from)))
                                  (take n (matched to))
                  | None => filter (fun r => negb (mem r (matched from)))
                                   (take n (matched to))
                  end).
  { destruct (matched to !! n) as [r|] eqn:Hr.
    - rewrite (Hstep _ _ _ Hr).
      destruct (mem r (matched from)); cbn [negb]; now rewrite ?app_nil_r.
    - now rewrite (Hend _ _ Hr). }
  rewrite Hto. clear Hto.
  destruct (matched from !! n) as [r|] eqn:Hr.
  - rewrite !(Hstep _ _ _ Hr).
    destruct (mem r (matched to)); cbn [negb]; now rewrite app_nil_r.
  - now rewrite !(Hend _ _ Hr).
Qed.

Lemma mem_elem_of (r : RecordId) (l : list RecordId) : mem r l <-> r ∈ l.
Proof.
  unfold mem. rewrite Is_true_true, existsb_exists. split.
  - intros (x & Hx & Heq). apply Nat.eqb_eq in Heq. subst.
    now apply list_elem_of_In.
  - intros H. exists r. split; [now apply list_elem_of_In|apply Nat.eqb_refl].
Qed.

(** [extractChangingRecords(to, from)] sorts the matched records into
    three lists, each in the order of the array it comes from: the
    records of [from] that [to] does not match, the records of [from]
    that [to] matches as well, and the records of [to] that [from] does
    not match.  Every record of [from] is in exactly one of the first
    two; a record is entering only if it is not in [from]. *)
Theorem extractChangingRecords_sorts_records (to from : RouteLocation) :
  let '(leavingRecords, updatingRecords, enteringRecords) :=
    extractChangingRecords to from in
  leavingRecords = filter (fun r => negb (mem r (matched to))) (matched from) /\
  updatingRecords = filter (fun r => mem r (matched to)) (matched from) /\
  enteringRecords = filter (fun r => negb (mem r (matched from))) (matched to) /\
  leavingRecords ++ updatingRecords ≡ₚ matched from /\
  (forall r, r ∈ leavingRecords <-> r ∈ matched from /\ r ∉ matched to) /\
  (forall r, r ∈ updatingRecords <-> r ∈ matched from /\ r ∈ matched to) /\
  (forall r, r ∈ enteringRecords <-> r ∈ matched to /\ r ∉ matched from).
Proof.
  unfold extractChangingRecords.
  rewrite extractChangingRecords_all, !take_ge by lia.
  split; [done|]. split; [done|]. split; [done|]. split; [|split; [|split]].
  - induction (matched from) as [|x l IH]; [done|].
    rewrite !filter_cons. destruct (mem x (matched to)); cbn [negb].
    + rewrite decide_False by (intros []). rewrite decide_True by done.
      rewrite <- Permutation_middle. now f_equiv.
    + rewrite decide_True by done. rewrite decide_False by (intros []).
      cbn. now f_equiv.
  - intros r. rewrite list_elem_of_filter, <- (mem_elem_of r (matched to)).
    destruct (mem r (matched to)); cbn; tauto.
  - intros r. rewrite list_elem_of_filter, <- (mem_elem_of r (matched to)).
    tauto.
  - intros r. rewrite list_elem_of_filter, <- (mem_elem_of r (matched from)).
    destruct (mem r (matched from)); cbn; tauto.
Qed.

End ChangingRecords.
(** ** What a navigation comes to *)

Section NavigationOutcomes.
Import Router.
Context (E : Env).

(** Brings [pushWithRedirect] to the point where [navigate] has
    settled. *)
Ltac reach_navigate Hresolve Hredirect Hdistinct Hnavigate :=
  cbn [pushWithRedirect]; rewrite Hresolve;
  cbn [set_world world set_pendingLocation currentRoute bump_tok];
  rewrite Hredirect, Hdistinct;
  match goal with
  | |- context [navigate E ?t ?f ?st] =>
      match type of Hnavigate with
      | navigate _ _ _ ?st' = _ => change st with st'
      end
  end;
  rewrite Hnavigate.

(** A navigation whose guards have all let it pass and that is still
    the pending one is confirmed: the history gets the new location, by
    [replace] when the caller asked for it or when this is the first
    navigation of the router and by [push] otherwise; the current route
    becomes the target; the scroll behaviour is due; the router is
    ready from now on (the history listener is attached when it was not
    ready yet); and the [afterEach] callbacks are called, with no
    failure, after all of this.  The leave and update guards registered
    on the records that are left are dropped. *)
Theorem confirmed_navigation_effects
    (fuel : nat) (to : RouteLocationRaw) (original : option RouteLocation)
    (s s2 : Run) (target : RouteLocation) (w1 : World)
    (Hresolve : resolve E to (world s) = (inr target, w1))
    (Hredirect : last_redirect E target = None)
    (Hdistinct : negb (truthy (option_force to))
                 && isSameRouteLocation E (currentRoute (world s))
                      (set_redirectedFrom original target) = false)
    (Hnavigate :
       navigate E (set_redirectedFrom original target) (currentRoute (world s))
         (set_world (set_pendingLocation
                       (set_redirectedFrom original target) w1) s)
       = (Fulfilled None, s2))
    (Hpending : same_object (pendingLocation (world s2))
                  (set_redirectedFrom original target) = true) :
  let from := currentRoute (world s) in
  let toLocation := set_redirectedFrom original target in
  let first := same_object from START_LOCATION_NORMALIZED in
  let replaces := option_replace to || first in
  let h := routerHistory (world s2) in
  let h' :=
    if replaces then MemoryHistory.replace (fullPath toLocation) h
    else MemoryHistory.push (fullPath toLocation) h in
  let leaving := (extractChangingRecords toLocation from).1.1 in
  let r := pushWithRedirect E (S fuel) to original s in
  fst r = Resolves None /\
  currentRoute (world (snd r)) = toLocation /\
  routerHistory (world (snd r))
  = (if ready (world s2) then h' else MemoryHistory.listen 0 h') /\
  ready (world (snd r)) = true /\
  leaveGuards (world (snd r))
  = clear_guards leaving (leaveGuards (world s2)) /\
  updateGuards (world (snd r))
  = clear_guards leaving (updateGuards (world s2)) /\
  trace (snd r)
  = trace s2
    ++ [EvHistory
          (if replaces
           then HistoryReplace (fullPath toLocation) first (option_state to)
           else HistoryPush (fullPath toLocation) (option_state to))]
    ++ (if isBrowser E && hasScrollBehavior E
        then [EvScroll toLocation from true first] else [])
    ++ (if ready (world s2) then [] else [EvReady None])
    ++ map (fun cb => EvAfterEach cb toLocation from None)
           (afterGuards (world s2)).
Proof.
  intros from toLocation first replaces h h' leaving r.
  subst r h' h replaces first leaving.
  destruct (resolve_allocates E to (world s) target w1 Hresolve) as (-> & _ & _).
  reach_navigate Hresolve Hredirect Hdistinct Hnavigate.
  fold from toLocation in Hpending |- *.
  unfold finalizeNavigation, checkCanceledNavigation.
  rewrite Hpending. cbn [negb].
  destruct (extractChangingRecords toLocation from) as [[l u] e]. cbn [fst].
  unfold handleScroll, markAsReady, triggerAfterEach, emit.
  destruct (option_replace to || same_object from START_LOCATION_NORMALIZED);
    destruct (isBrowser E), (hasScrollBehavior E), (ready (world s2)) eqn:Hready;
    cbn [negb orb andb world trace set_world set_currentRoute set_routerHistory
         set_record_guards set_ready ready fst snd currentRoute routerHistory
         leaveGuards updateGuards afterGuards];
    rewrite ?Hready;
    cbn [negb orb andb world trace set_world set_currentRoute set_routerHistory
         set_record_guards set_ready ready fst snd currentRoute routerHistory
         leaveGuards updateGuards afterGuards];
    rewrite <- ?app_assoc; repeat split; first [reflexivity|assumption].
Qed.

(** A navigation that a guard refuses does not reject: [push] resolves
    with the [NAVIGATION_ABORTED] failure.  After the guards the router
    does nothing but call the [afterEach] callbacks with the failure;
    the history, the current route and the readiness of the router are
    as the guards left them. *)
Theorem aborted_navigation_resolves_with_failure
    (fuel : nat) (to : RouteLocationRaw) (original : option RouteLocation)
    (s s2 : Run) (target f t : RouteLocation) (w1 : World)
    (Hresolve : resolve E to (world s) = (inr target, w1))
    (Hredirect : last_redirect E target = None)
    (Hdistinct : negb (truthy (option_force to))
                 && isSameRouteLocation E (currentRoute (world s))
                      (set_redirectedFrom original target) = false)
    (Hnavigate :
       navigate E (set_redirectedFrom original target) (currentRoute (world s))
         (set_world (set_pendingLocation
                       (set_redirectedFrom original target) w1) s)
       = (Rejected (Failure (NAVIGATION_ABORTED f t)), s2)) :
  let from := currentRoute (world s) in
  let toLocation := set_redirectedFrom original target in
  let r := pushWithRedirect E (S fuel) to original s in
  fst r = Resolves (Some (NAVIGATION_ABORTED f t)) /\
  world (snd r) = world s2 /\
  trace (snd r)
  = trace s2
    ++ map (fun cb => EvAfterEach cb toLocation from
                        (Some (NAVIGATION_ABORTED f t)))
           (afterGuards (world s2)).
Proof.
  intros from toLocation r. subst r.
  destruct (resolve_allocates E to (world s) target w1 Hresolve) as (-> & _ & _).
  reach_navigate Hresolve Hredirect Hdistinct Hnavigate.
  cbn [handled_failure]. unfold triggerAfterEach, emit. cbn. done.
Qed.

(** An error that is no navigation failure (a guard threw, or called
    [next] with an error) rejects [push] with that error.  The router
    is marked as ready with the error if it was not ready yet, every
    [onError] handler is called with it, in registration order, and the
    [afterEach] callbacks are not called; the current route and the
    history queue are as the guards left them. *)
Theorem unknown_error_rejects_navigation
    (fuel : nat) (to : RouteLocationRaw) (original : option RouteLocation)
    (s s2 : Run) (target : RouteLocation) (w1 : World) (msg : string)
    (Hresolve : resolve E to (world s) = (inr target, w1))
    (Hredirect : last_redirect E target = None)
    (Hdistinct : negb (truthy (option_force to))
                 && isSameRouteLocation E (currentRoute (world s))
                      (set_redirectedFrom original target) = false)
    (Hnavigate :
       navigate E (set_redirectedFrom original target) (currentRoute (world s))
         (set_world (set_pendingLocation
                       (set_redirectedFrom original target) w1) s)
       = (Rejected (OtherError msg), s2)) :
  let r := pushWithRedirect E (S fuel) to original s in
  fst r = Rejects (OtherError msg) /\
  currentRoute (world (snd r)) = currentRoute (world s2) /\
  MemoryHistory.queue (routerHistory (world (snd r)))
  = MemoryHistory.queue (routerHistory (world s2)) /\
  MemoryHistory.position (routerHistory (world (snd r)))
  = MemoryHistory.position (routerHistory (world s2)) /\
  ready (world (snd r)) = true /\
  trace (snd r)
  = trace s2
    ++ (if ready (world s2) then [] else [EvReady (Some (OtherError msg))])
    ++ map (fun cb => EvError cb (OtherError msg)) (errorHandlers (world s2)).
Proof.
  intros r. subst r.
  destruct (resolve_allocates E to (world s) target w1 Hresolve) as (-> & _ & _).
  reach_navigate Hresolve Hredirect Hdistinct Hnavigate.
  cbn [handled_failure]. unfold triggerError, markAsReady, emit.
  destruct (ready (world s2)) eqn:Hready; cbn; rewrite ?Hready, ?app_nil_r;
    rewrite <- ?app_assoc; done.
Qed.

End NavigationOutcomes.
(** ** The guards of a navigation, phase after phase *)

Section PhaseOrder.
Import Router.
Context (E : Env).

(** The guard lets the navigation pass and leaves the router as it
    is. *)
Definition passes (to from : RouteLocation) (w : World) (g : GuardId) : Prop :=
  guard E g to from w = (GuardVoid, w) \/
  guard E g to from w = (GuardBoolean true, w) \/
  guard E g to from w = (GuardCallback, w).

Definition queue_guards (l : list Lazy) : list GuardId :=
  flat_map (fun x => match x with LGuard _ g => [g] | LCheck => [] end) l.

Definition queue_events (l : list Lazy) : list Event :=
  flat_map (fun x => match x with LGuard ph g => [EvGuard ph g] | LCheck => [] end) l.

Lemma emit_nil (s : Run) : emit [] s = s.
Proof. destruct s. unfold emit. cbn. now rewrite app_nil_r. Qed.

Lemma emit_app (a b : list Event) (s : Run) : emit (a ++ b) s = emit b (emit a s).
Proof. unfold emit. cbn. now rewrite app_assoc. Qed.

Lemma runGuardQueue_passing (to from : RouteLocation) (l : list Lazy) (s : Run) :
  same_object (pendingLocation (world s)) to = true ->
  Forall (passes to from (world s)) (queue_guards l) ->
  runGuardQueue E to from l s = (Fulfilled tt, emit (queue_events l) s).
Proof.
  intros Hpending. revert s Hpending.
  induction l as [|x l IH]; intros s Hpending Hall.
  - cbn. now rewrite emit_nil.
  - destruct x as [ph g|].
    + cbn [queue_guards flat_map app] in Hall. apply Forall_cons in Hall.
      destruct Hall as [Hg Hall].
      cbn [runGuardQueue run_lazy queue_events flat_map].
      unfold guardToPromiseFn.
      assert (exists ret, guard E g to from (world s) = (ret, world s) /\
                          (ret = GuardVoid \/ ret = GuardBoolean true \/
                           ret = GuardCallback)) as (ret & -> & Hret).
      { destruct Hg as [Hg|[Hg|Hg]]; rewrite Hg; eauto 6. }
      change ({| world := world s; trace := trace s ++ [EvGuard ph g] |})
        with (emit [EvGuard ph g] s).
      assert (runGuardQueue E to from l (emit [EvGuard ph g] s)
              = (Fulfilled tt, emit (queue_events l) (emit [EvGuard ph g] s)))
        as Hrest by (apply IH; assumption).
      rewrite emit_app.
      destruct Hret as [->|[->| ->]]; exact Hrest.
    + cbn [runGuardQueue run_lazy queue_events flat_map app].
      unfold checkCanceledNavigationAndReject, checkCanceledNavigation.
      rewrite Hpending. cbn [negb]. now apply IH.
Qed.

Lemma run_phases_passing (to from : RouteLocation)
    (queues : list (World -> list Lazy)) (s : Run) :
  same_object (pendingLocation (world s)) to = true ->
  Forall (fun q => Forall (passes to from (world s)) (queue_guards (q (world s))))
         queues ->
  run_phases E to from queues s
  = (Fulfilled tt,
     emit (flat_map (fun q => queue_events (q (world s))) queues) s).
Proof.
  intros Hpending. revert s Hpending.
  induction queues as [|q queues IH]; intros s Hpending Hall.
  - cbn. now rewrite emit_nil.
  - apply Forall_cons in Hall. destruct Hall as [Hq Hall].
    cbn [run_phases flat_map].
    rewrite (runGuardQueue_passing to from _ s Hpending Hq), emit_app.
    exact (IH (emit (queue_events (q (world s))) s) Hpending Hall).
Qed.

Lemma queue_events_guards (ph : GuardPhase) (gs : list GuardId) :
  queue_events (map (LGuard ph) gs ++ [LCheck]) = map (EvGuard ph) gs.
Proof.
  unfold queue_events. rewrite flat_map_app. cbn. rewrite app_nil_r.
  induction gs as [|g gs IH]; [done|]. cbn. now rewrite IH.
Qed.

Lemma queue_guards_guards (ph : GuardPhase) (gs : list GuardId) :
  queue_guards (map (LGuard ph) gs ++ [LCheck]) = gs.
Proof.
  unfold queue_guards. rewrite flat_map_app. cbn. rewrite app_nil_r.
  induction gs as [|g gs IH]; [done|]. cbn. now rewrite IH.
Qed.

(** When the target is the pending location and every guard that the
    navigation meets lets it pass without touching the router,
    [navigate] settles without failure and has invoked, one after the
    other: the [beforeRouteLeave] guards of the components of the
    records that are left, the leaf's first, then the leave guards
    registered on these records, the root's first; the [beforeEach]
    guards in registration order; the [beforeRouteUpdate] guards of the
    components of the records that stay, then the update guards
    registered on them, from the root down; the [beforeEnter] guards of
    the records that are entered; the [beforeRouteEnter] guards of
    their components; and the [beforeResolve] guards in registration
    order.  Nothing else happened. *)
Theorem navigate_runs_phases_in_order (to from : RouteLocation) (s : Run)
    (Hpending : same_object (pendingLocation (world s)) to = true) :
  let w := world s in
  let leaving := filter (fun r => negb (mem r (matched to))) (matched from) in
  let staying_from := filter (fun r => mem r (matched to)) (matched from) in
  let staying_to := filter (fun r => mem r (matched from)) (matched to) in
  let entering := filter (fun r => negb (mem r (matched from))) (matched to) in
  let invoked :=
    map (EvGuard Leave)
        (extractComponentsGuards E (rev leaving) beforeRouteLeave
         ++ record_guards (leaveGuards w) leaving)
    ++ map (EvGuard BeforeEach) (beforeGuards w)
    ++ map (EvGuard Update)
           (extractComponentsGuards E staying_to beforeRouteUpdate
            ++ record_guards (updateGuards w) staying_from)
    ++ map (EvGuard BeforeEnter) (beforeEnter_guards E to from)
    ++ map (EvGuard Enter)
           (extractComponentsGuards E entering beforeRouteEnter)
    ++ map (EvGuard BeforeResolve) (beforeResolveGuards w) in
  Forall (fun e => match e with
                   | EvGuard _ g => passes to from w g
                   | _ => True
                   end) invoked ->
  navigate E to from s = (Fulfilled None, emit invoked s).
Proof.
  intros w leaving staying_from staying_to entering invoked Hall.
  assert (Hleave : leave_queue E to from w
                   = map (LGuard Leave)
                       (extractComponentsGuards E (rev leaving) beforeRouteLeave
                        ++ record_guards (leaveGuards w) leaving) ++ [LCheck]).
  { unfold leave_queue.
    pose proof (extractChangingRecords_sorts_records to from) as H.
    destruct (extractChangingRecords to from) as [[l u] e].
    destruct H as (-> & _). reflexivity. }
  assert (Hupdate : update_queue E to from w
                    = map (LGuard Update)
                        (extractComponentsGuards E staying_to beforeRouteUpdate
                         ++ record_guards (updateGuards w) staying_from)
                      ++ [LCheck]).
  { unfold update_queue.
    pose proof (extractChangingRecords_sorts_records to from) as H.
    destruct (extractChangingRecords to from) as [[l u] e].
    destruct H as (_ & -> & _). reflexivity. }
  assert (Hguards : forall ph gs,
             Forall (fun e => match e with
                              | EvGuard _ g => passes to from w g
                              | _ => True
                              end) (map (EvGuard ph) gs) ->
             Forall (passes to from w) gs).
  { intros ph gs H. now rewrite Forall_map in H. }
  subst invoked. rewrite !Forall_app in Hall.
  destruct Hall as (H1 & H2 & H3 & H4 & H5 & H6).
  unfold navigate.
  rewrite (run_phases_passing to from (phases E to from) s Hpending).
  - cbn [catch_canceled]. do 2 f_equal.
    unfold phases. cbn [flat_map]. fold w. rewrite Hleave, Hupdate.
    unfold beforeEach_queue, beforeEnter_queue, enter_queue, beforeResolve_queue.
    rewrite !queue_events_guards, app_nil_r. reflexivity.
  - unfold phases.
    repeat apply Forall_cons_2; try apply Forall_nil_2; fold w;
      rewrite ?Hleave, ?Hupdate;
      unfold beforeEach_queue, beforeEnter_queue, enter_queue,
        beforeResolve_queue;
      rewrite queue_guards_guards; eauto.
Qed.

End PhaseOrder.
(** ** The outcomes on the small route table *)

Section OutcomeScenarios.
Import Router Scenario.
Local Open Scope string_scope.

(** The first navigation of a router, to [/a]: the entry the history
    starts with is replaced, not kept below the new one. *)
Lemma confirmed_navigation_effects_witness :
  let s := start (fresh_router [10%nat]) in
  let r := pushWithRedirect quiet 1%nat (RawString "/a") None s in
  fst r = Resolves None /\
  currentRoute (world (snd r)) = location_of 1%nat "/a" /\
  routerHistory (world (snd r))
  = MemoryHistory.mkState [0%nat] ["/a"] 0 /\
  ready (world (snd r)) = true.
Proof.
  intros s r.
  pose proof (confirmed_navigation_effects quiet 0%nat (RawString "/a") None s
                (snd (navigate quiet (location_of 1%nat "/a")
                        START_LOCATION_NORMALIZED
                        (set_world (set_pendingLocation (location_of 1%nat "/a")
                                      (bump_tok (world s))) s)))
                (location_of 1%nat "/a") (bump_tok (world s))) as H.
  cbv zeta in H. fold r in H.
  destruct H as (H1 & H2 & H3 & H4 & _); try (vm_compute; reflexivity).
  split; [exact H1|]. split; [exact H2|]. split; [|exact H4].
  rewrite H3. vm_compute. reflexivity.
Defined.

(** Guard [11] refuses every navigation. *)
Lemma aborted_navigation_resolves_with_failure_witness :
  let s := start (guarded_router 11%nat) in
  let from := location_of 1%nat "/a" in
  let target := location_of 2%nat "/b" in
  let r := pushWithRedirect quiet 1%nat (RawString "/b") None s in
  fst r = Resolves (Some (NAVIGATION_ABORTED from target)) /\
  currentRoute (world (snd r)) = from /\
  MemoryHistory.queue (routerHistory (world (snd r))) = ["/a"] /\
  trace (snd r)
  = [EvGuard BeforeEach 11%nat;
     EvAfterEach 7%nat target from (Some (NAVIGATION_ABORTED from target))].
Proof.
  intros s from target r.
  pose proof (aborted_navigation_resolves_with_failure quiet 0%nat
                (RawString "/b") None s
                (snd (navigate quiet target from
                        (set_world (set_pendingLocation target
                                      (bump_tok (world s))) s)))
                target from target (bump_tok (world s))) as H.
  cbv zeta in H. fold r in H.
  destruct H as (H1 & H2 & H3); try (vm_compute; reflexivity).
  split; [exact H1|]. rewrite H2, H3. vm_compute. repeat split; reflexivity.
Defined.

(** A router whose guards all fail with an error. *)
Definition throwing : Env :=
  {| DEV := true; isBrowser := true; hasScrollBehavior := true;
     Router.resolve_location := resolve_location;
     Router.isSameRouteLocation := Scenario.isSameRouteLocation;
     record_redirect := redirect_of;
     record_beforeEnter := fun _ => None;
     component_guards := fun _ _ => [];
     guard := fun _ _ _ w => (GuardError "boom", w) |}.

Lemma unknown_error_rejects_navigation_witness :
  let w := bump_tok (bump_tok
             {| pendingLocation := START_LOCATION_NORMALIZED;
                currentRoute := START_LOCATION_NORMALIZED;
                routerHistory := MemoryHistory.init;
                beforeGuards := [10%nat]; beforeResolveGuards := [];
                afterGuards := [7%nat]; errorHandlers := [8%nat; 9%nat];
                leaveGuards := ∅; updateGuards := ∅; redirect_count := ∅;
                ready := false; next_tok := 1 |}) in
  let r := pushWithRedirect throwing 1%nat (RawString "/a") None (start w) in
  fst r = Rejects (OtherError "boom") /\
  currentRoute (world (snd r)) = START_LOCATION_NORMALIZED /\
  ready (world (snd r)) = true /\
  trace (snd r)
  = [EvGuard BeforeEach 10%nat; EvReady (Some (OtherError "boom"));
     EvError 8%nat (OtherError "boom"); EvError 9%nat (OtherError "boom")].
Proof.
  intros w r.
  pose proof (unknown_error_rejects_navigation throwing 0%nat
                (RawString "/a") None (start w)
                (snd (navigate throwing (location_of 3%nat "/a")
                        START_LOCATION_NORMALIZED
                        (set_world (set_pendingLocation (location_of 3%nat "/a")
                                      (bump_tok w)) (start w))))
                (location_of 3%nat "/a") (bump_tok w) "boom") as H.
  cbv zeta in H. fold r in H.
  destruct H as (H1 & H2 & _ & _ & H5 & H6); try (vm_compute; reflexivity).
  split; [exact H1|]. split; [rewrite H2; vm_compute; reflexivity|].
  split; [exact H5|]. rewrite H6. vm_compute. reflexivity.
Defined.

(** Leaving [/parent/child] for [/a]. *)
Lemma navigate_runs_phases_in_order_witness :
  let to := location_of 2%nat "/a" in
  let from := currentRoute nested_router in
  let s := start (set_pendingLocation to (bump_tok nested_router)) in
  navigate nested_views to from s
  = (Fulfilled None,
     emit [EvGuard Leave 44%nat; EvGuard Leave 33%nat; EvGuard Leave 30%nat;
           EvGuard Leave 40%nat; EvGuard BeforeEach 10%nat] s).
Proof.
  intros to from s.
  pose proof (navigate_runs_phases_in_order nested_views to from s eq_refl) as H.
  cbv zeta in H. rewrite H.
  - vm_compute. reflexivity.
  - vm_compute. repeat constructor.
Defined.

End OutcomeScenarios.

(** ** Navigations that the history starts *)

Section HistoryNavigation.
Import Router HistoryListener.
Context (E : Env).

(** The router right after the history has moved by [d] entries, before
    its listener is called. *)
Definition moved (d : Z) (s : Run) : Run :=
  set_world
    (set_routerHistory (fst (MemoryHistory.go d true (routerHistory (world s))))
                       (world s)) s.

Lemma history_go_calls_listener (fuel : nat) (d : Z) (s : Run) :
  MemoryHistory.listeners (routerHistory (world s)) = [0%nat] ->
  history_go E fuel d s
  = match listener E fuel
            (MemoryHistory.location (routerHistory (world (moved d s))))
            {| MemoryHistory.info_type := MemoryHistory.pop;
               MemoryHistory.direction :=
                 if d <? 0 then MemoryHistory.back else MemoryHistory.forward;
               MemoryHistory.delta := d |}
            (moved d s) with
    | (Delivered, s') => (Delivered, s')
    | r => r
    end.
Proof.
  intros Hl. unfold history_go, moved, MemoryHistory.go.
  unfold MemoryHistory.triggerListeners.
  cbn [MemoryHistory.listeners fst]. rewrite Hl.
  cbn [map deliver MemoryHistory.n_listener MemoryHistory.n_to
       MemoryHistory.n_info Nat.eqb].
  match goal with |- match ?x with _ => _ end = match ?y with _ => _ end =>
    change x with y; destruct y as [[| |] ?] end; reflexivity.
Qed.

(** A guard refuses a navigation that the history started by moving
    [d] entries ([d] is not 0), and no guard touched the history.  The
    router then moves the history by [-d] entries without calling the
    listeners, keeps its current route and calls the [afterEach]
    callbacks with the failure.  Since the memory history clamps both
    moves, the history is back on the entry it came from when the
    first move stayed inside the queue; when it was clamped, the
    position is the result of the two clamped moves. *)
Theorem refused_history_navigation_moves_back
    (fuel : nat) (d : Z) (s s2 : Run) (to : string)
    (toLocation f t : RouteLocation) (w1 : World)
    (Hlisteners : MemoryHistory.listeners (routerHistory (world s)) = [0%nat])
    (Hd : d <> 0)
    (Hinv : 0 <= MemoryHistory.position (routerHistory (world s))
            < Z.of_nat (length (MemoryHistory.queue (routerHistory (world s)))))
    (Hto : MemoryHistory.location (routerHistory (world (moved d s))) = Some to)
    (Hresolve : resolve E (RawString to) (world (moved d s))
                = (inr toLocation, w1))
    (Hnavigate :
       navigate E toLocation (currentRoute (world s))
         (set_world (set_pendingLocation toLocation w1) (moved d s))
       = (Rejected (Failure (NAVIGATION_ABORTED f t)), s2))
    (Hquiet : routerHistory (world s2) = routerHistory (world (moved d s))) :
  let h := routerHistory (world s) in
  let last := Z.of_nat (length (MemoryHistory.queue h)) - 1 in
  let p := MemoryHistory.position h in
  let r := history_go E fuel d s in
  fst r = Delivered /\
  currentRoute (world (snd r)) = currentRoute (world s2) /\
  MemoryHistory.queue (routerHistory (world (snd r))) = MemoryHistory.queue h /\
  MemoryHistory.position (routerHistory (world (snd r)))
  = Z.max 0 (Z.min (Z.max 0 (Z.min (p + d) last) - d) last) /\
  (0 <= p + d <= last ->
   MemoryHistory.position (routerHistory (world (snd r))) = p) /\
  trace (snd r)
  = trace s2
    ++ map (fun cb => EvAfterEach cb toLocation (currentRoute (world s))
                        (Some (NAVIGATION_ABORTED f t)))
           (afterGuards (world s2)).
Proof.
  intros h last p r. subst r.
  rewrite (history_go_calls_listener fuel d s Hlisteners).
  unfold listener. rewrite Hto, Hresolve.
  destruct (resolve_allocates E _ _ _ _ Hresolve) as (-> & _ & _).
  cbn [set_world world set_pendingLocation currentRoute bump_tok moved
       set_routerHistory MemoryHistory.delta] in *.
  rewrite Hnavigate.
  unfold revert_history. destruct (Z.eqb_spec d 0) as [|_]; [done|].
  unfold triggerAfterEach, emit, MemoryHistory.go.
  cbn [fst snd set_world world trace set_routerHistory routerHistory
       currentRoute afterGuards MemoryHistory.queue MemoryHistory.position].
  rewrite Hquiet.
  cbn [MemoryHistory.queue MemoryHistory.position MemoryHistory.go fst].
  fold h p last. fold h p last in Hinv.
  repeat split; try reflexivity.
  intros Hrange.
  cbn [routerHistory set_routerHistory MemoryHistory.position
       MemoryHistory.queue].
  subst last. fold h p in Hrange |- *. lia.
Qed.

(** A navigation that the history started and that no guard stops is
    accepted as it is: the router calls neither [push] nor [replace] of
    the history (the history is already on the entry), makes the target
    its current route, handles the scroll as for a navigation that is no
    push, and calls the [afterEach] callbacks without failure.  Whether
    the target equals the current route is not looked at: there is no
    duplicate check on this path. *)
Theorem confirmed_history_navigation
    (fuel : nat) (d : Z) (s s2 : Run) (to : string)
    (toLocation : RouteLocation) (w1 : World)
    (Hlisteners : MemoryHistory.listeners (routerHistory (world s)) = [0%nat])
    (Hto : MemoryHistory.location (routerHistory (world (moved d s))) = Some to)
    (Hresolve : resolve E (RawString to) (world (moved d s))
                = (inr toLocation, w1))
    (Hnavigate :
       navigate E toLocation (currentRoute (world s))
         (set_world (set_pendingLocation toLocation w1) (moved d s))
       = (Fulfilled None, s2))
    (Hpending : same_object (pendingLocation (world s2)) toLocation = true) :
  let from := currentRoute (world s) in
  let first := same_object from START_LOCATION_NORMALIZED in
  let r := history_go E fuel d s in
  fst r = Delivered /\
  currentRoute (world (snd r)) = toLocation /\
  routerHistory (world (snd r))
  = (if ready (world s2) then routerHistory (world s2)
     else MemoryHistory.listen 0 (routerHistory (world s2))) /\
  trace (snd r)
  = trace s2
    ++ (if isBrowser E && hasScrollBehavior E
        then [EvScroll toLocation from false first] else [])
    ++ (if ready (world s2) then [] else [EvReady None])
    ++ map (fun cb => EvAfterEach cb toLocation from None)
           (afterGuards (world s2)).
Proof.
  intros from first r. subst r first.
  rewrite (history_go_calls_listener fuel d s Hlisteners).
  unfold listener. rewrite Hto, Hresolve.
  destruct (resolve_allocates E _ _ _ _ Hresolve) as (-> & _ & _).
  cbn [set_world world set_pendingLocation currentRoute bump_tok moved
       set_routerHistory MemoryHistory.delta] in *.
  rewrite Hnavigate. fold from.
  unfold finalizeNavigation, checkCanceledNavigation.
  rewrite Hpending. cbn [negb].
  destruct (extractChangingRecords toLocation from) as [[l u] e].
  unfold handleScroll, markAsReady, triggerAfterEach, emit.
  destruct (isBrowser E), (hasScrollBehavior E), (ready (world s2)) eqn:Hready;
    cbn [negb orb andb world trace set_world set_currentRoute set_routerHistory
         set_record_guards set_ready ready fst snd currentRoute routerHistory
         leaveGuards updateGuards afterGuards];
    rewrite ?Hready;
    cbn [negb orb andb world trace set_world set_currentRoute set_routerHistory
         set_record_guards set_ready ready fst snd currentRoute routerHistory
         leaveGuards updateGuards afterGuards];
    rewrite <- ?app_assoc, ?app_nil_r; repeat split;
    first [reflexivity|assumption].
Qed.

End HistoryNavigation.
(** ** The history listener on the small route table *)

Section HistoryScenarios.
Import Router HistoryListener Scenario.
Local Open Scope string_scope.

(** A router that went to [/a], [/b] and [/parent/child]. *)
Definition three_entries : World :=
  world (snd (push quiet 2 (RawString "/parent/child")
     (start (world (snd (push quiet 2 (RawString "/b")
        (start (router_at [10%nat] "/a")))))))).

(** The same router after the history went back one entry, to [/b]. *)
Definition back_at_b : World :=
  world (snd (history_go quiet 2 (-1) (start three_entries))).

Lemma confirmed_history_navigation_witness :
  let s := start three_entries in
  let r := history_go quiet 2 (-1) s in
  fst r = Delivered /\
  currentRoute (world (snd r)) = location_of 4%nat "/b" /\
  routerHistory (world (snd r))
  = MemoryHistory.mkState [0%nat] ["/a"; "/b"; "/parent/child"] 1 /\
  forallb (fun e => match e with EvHistory _ => false | _ => true end)
          (trace (snd r)) = true.
Proof.
  intros s r.
  set (toLocation := location_of 4%nat "/b").
  pose proof (confirmed_history_navigation quiet 2 (-1) s
                (snd (navigate quiet toLocation (currentRoute (world s))
                        (set_world (set_pendingLocation toLocation
                                      (bump_tok (world (moved (-1) s))))
                                   (moved (-1) s))))
                "/b" toLocation (bump_tok (world (moved (-1) s)))) as H.
  cbv zeta in H. fold r in H.
  destruct H as (H1 & H2 & H3 & H4); try (vm_compute; reflexivity).
  split; [exact H1|]. split; [exact H2|]. split.
  - rewrite H3. vm_compute. reflexivity.
  - vm_compute. reflexivity.
Defined.

(** At [/b], the middle one of three entries, with a guard that
    refuses the navigations to [/a].  Going back one entry is refused
    and the history returns to [/b].  Going back five entries is
    clamped to one, refused, and answered by five entries forward,
    clamped to one: the history is on [/parent/child] while the current
    route still is [/b]. *)
Lemma refused_history_navigation_moves_back_witness :
  let s := start (with_beforeGuards [15%nat] back_at_b) in
  let one := history_go quiet 2 (-1) s in
  let five := history_go quiet 2 (-5) s in
  MemoryHistory.position (routerHistory (world s)) = 1 /\
  path (currentRoute (world s)) = "/b" /\
  MemoryHistory.position (routerHistory (world (snd one))) = 1 /\
  path (currentRoute (world (snd one))) = "/b" /\
  MemoryHistory.position (routerHistory (world (snd five))) = 2 /\
  MemoryHistory.location (routerHistory (world (snd five)))
  = Some "/parent/child" /\
  path (currentRoute (world (snd five))) = "/b".
Proof.
  intros s one five.
  set (toLocation := location_of 5%nat "/a").
  set (from := location_of 4%nat "/b").
  assert (Hinv : 0 <= MemoryHistory.position (routerHistory (world s))
                 < Z.of_nat (length (MemoryHistory.queue
                                       (routerHistory (world s)))))
    by (vm_compute; split; [discriminate|reflexivity]).
  assert (Hrange : 0 <= MemoryHistory.position (routerHistory (world s)) + -1
                   <= Z.of_nat (length (MemoryHistory.queue
                                          (routerHistory (world s)))) - 1)
    by (vm_compute; split; discriminate).
  unshelve epose proof
    (refused_history_navigation_moves_back quiet 2 (-1) s
       (snd (navigate quiet toLocation (currentRoute (world s))
               (set_world (set_pendingLocation toLocation
                             (bump_tok (world (moved (-1) s))))
                          (moved (-1) s))))
       "/a" toLocation from toLocation
       (bump_tok (world (moved (-1) s))) _ _ Hinv _ _ _ _) as H;
    [vm_compute; reflexivity | discriminate | vm_compute; reflexivity
    | vm_compute; reflexivity | vm_compute; reflexivity
    | vm_compute; reflexivity |].
  unshelve epose proof
    (refused_history_navigation_moves_back quiet 2 (-5) s
       (snd (navigate quiet toLocation (currentRoute (world s))
               (set_world (set_pendingLocation toLocation
                             (bump_tok (world (moved (-5) s))))
                          (moved (-5) s))))
       "/a" toLocation from toLocation
       (bump_tok (world (moved (-5) s))) _ _ Hinv _ _ _ _) as H';
    [vm_compute; reflexivity | discriminate | vm_compute; reflexivity
    | vm_compute; reflexivity | vm_compute; reflexivity
    | vm_compute; reflexivity |].
  cbv zeta in H, H'. fold one in H. fold five in H'.
  destruct H as (_ & H2 & _ & _ & H5 & _).
  destruct H' as (_ & H2' & _ & H4' & _ & _).
  specialize (H5 Hrange).
  split; [vm_compute; reflexivity|]. split; [vm_compute; reflexivity|].
  split; [rewrite H5; vm_compute; reflexivity|].
  split; [rewrite H2; vm_compute; reflexivity|].
  split; [rewrite H4'; vm_compute; reflexivity|].
  split; [vm_compute; reflexivity|].
  rewrite H2'. vm_compute. reflexivity.
Defined.

End HistoryScenarios.

(** ** More on the memory history *)

Section MemoryHistoryMore.
Import MemoryHistory MemoryHistoryTeardown.

(** After any sequence of calls, [replace(to)] overwrites the current
    entry and stays on it; like [push], it drops every entry after the
    current one, so the replaced entry becomes the last of the queue. *)
Theorem memory_replace_overwrites_current (cs : list call) (to : HistoryLocation) :
  let s := run cs in
  position (replace to s) = position s /\
  queue (replace to s) = take (Z.to_nat (position s)) (queue s) ++ [to] /\
  location (replace to s) = Some to /\
  Z.of_nat (length (queue (replace to s))) = position s + 1.
Proof.
  intros s. pose proof (history_inv_run cs) as H. fold s in H.
  unfold history_inv in H. unfold replace.
  set (s1 := {| listeners := listeners s;
                queue := JsArray.splice_one (queue s) (position s);
                position := position s - 1 |}).
  assert (Hq1 : queue s1
                = take (Z.to_nat (position s)) (queue s)
                  ++ drop (S (Z.to_nat (position s))) (queue s)).
  { subst s1. cbn [queue]. unfold JsArray.splice_one, JsArray.splice_start.
    destruct (Z.ltb_spec (position s) 0); [lia|].
    now rewrite Z.min_l by lia. }
  destruct (history_inv_setLocation to s1) as (_ & Hq & Hp).
  { subst s1. cbn [position]. rewrite Hq1. cbn [queue position].
    rewrite length_app, length_take, length_drop. lia. }
  assert (Hqueue : queue (setLocation to s1)
                   = take (Z.to_nat (position s)) (queue s) ++ [to]).
  { rewrite Hq, Hq1. subst s1. cbn [position].
    replace (position s - 1 + 1) with (position s) by lia.
    rewrite take_app_le by (rewrite length_take; lia).
    rewrite take_take. f_equal. f_equal. lia. }
  assert (Hpos : position (setLocation to s1) = position s).
  { rewrite Hp. subst s1. cbn [position]. lia. }
  split; [exact Hpos|]. split; [exact Hqueue|]. split.
  - unfold location, JsArray.get. rewrite Hpos, Hqueue.
    destruct (Z.ltb_spec (position s) 0); [lia|].
    rewrite lookup_app_r by (rewrite length_take; lia).
    rewrite length_take.
    replace (Z.to_nat (position s) - Z.to_nat (position s) `min` length (queue s))%nat
      with 0%nat by lia. done.
  - rewrite Hqueue, length_app, length_take. cbn. lia.
Qed.

(** After any sequence of calls, a move by [d] entries that stays
    inside the queue is undone by the move by [-d] entries: the history
    is in the state it was in.  (A move that is clamped is not: see the
    position that [go] computes.) *)
Theorem memory_go_there_and_back (cs : list call) (d : Z) (t t' : bool) :
  let s := run cs in
  0 <= position s + d < Z.of_nat (length (queue s)) ->
  fst (go (- d) t' (fst (go d t s))) = s.
Proof.
  intros s Hrange. pose proof (history_inv_run cs) as H. fold s in H.
  unfold history_inv in H. unfold go.
  destruct t, t'; cbn [fst queue position listeners];
    destruct s as [l q p]; cbn [queue position listeners] in *;
    f_equal; lia.
Qed.

Lemma memory_go_there_and_back_witness :
  let cs := [Push "/a"; Push "/b"; Push "/c"]%string in
  position (run cs) = 3 /\
  fst (go 2 false (fst (go (-2) true (run cs)))) = run cs /\
  position (fst (go 5 false (fst (go (-5) true (run cs))))) = 3 /\
  position (fst (go 2 false (fst (go (-5) true (run cs))))) = 2.
Proof.
  intros cs. split; [reflexivity|]. split; [|split; reflexivity].
  exact (memory_go_there_and_back cs (-2) true false ltac:(vm_compute; split; [discriminate|reflexivity])).
Defined.

Lemma indexOf_lookup (l : list nat) (cb i : nat) :
  MemoryHistoryTeardown.indexOf l cb = Some i ->
  l !! i = Some cb /\ forall j, (j < i)%nat -> l !! j <> Some cb.
Proof.
  revert i. induction l as [|x l IH]; intros i; cbn; [done|].
  destruct (Nat.eqb_spec x cb) as [->|Hne].
  - intros [= <-]. split; [done|]. intros j Hj. lia.
  - destruct (MemoryHistoryTeardown.indexOf l cb) as [k|] eqn:Hk; [|done].
    intros [= <-]. destruct (IH k eq_refl) as [Hk1 Hk2]. split; [done|].
    intros [|j] Hj; cbn; [congruence|]. apply Hk2. lia.
Qed.

Lemma indexOf_absent (l : list nat) (cb : nat) :
  MemoryHistoryTeardown.indexOf l cb = None <-> cb ∉ l.
Proof.
  induction l as [|x l IH]; cbn.
  - split; [intros _; apply not_elem_of_nil|done].
  - rewrite not_elem_of_cons. destruct (Nat.eqb_spec x cb) as [->|Hne].
    + split; [done|]. intros [? _]. done.
    + destruct (MemoryHistoryTeardown.indexOf l cb) as [k|] eqn:Hk; cbn.
      * split; [done|]. intros [_ H]. now apply IH in H.
      * split; [|done]. intros _. split; [congruence|]. now apply IH.
Qed.

Lemma indexOf_app_present (l l' : list nat) (cb i : nat) :
  MemoryHistoryTeardown.indexOf l cb = Some i ->
  MemoryHistoryTeardown.indexOf (l ++ l') cb = Some i.
Proof.
  revert i. induction l as [|x l IH]; intros i; cbn; [done|].
  destruct (Nat.eqb x cb); [done|].
  destruct (MemoryHistoryTeardown.indexOf l cb) as [k|]; [|done].
  intros [= <-]. now rewrite (IH k eq_refl).
Qed.

Lemma indexOf_app_absent (l : list nat) (cb : nat) :
  MemoryHistoryTeardown.indexOf l cb = None ->
  MemoryHistoryTeardown.indexOf (l ++ [cb]) cb = Some (length l).
Proof.
  induction l as [|x l IH]; cbn; [now rewrite Nat.eqb_refl|].
  destruct (Nat.eqb x cb); [done|].
  destruct (MemoryHistoryTeardown.indexOf l cb) as [k|]; [done|].
  intros _. now rewrite IH.
Qed.

(** The teardown that [listen(callback)] returns removes the first
    registration of the callback that the history holds.  If the
    callback was not registered before, the history is as it was before
    [listen]; if it was, it is the older registration that goes and the
    new one stays, at the end of the list.  Queue and position are not
    touched, and a teardown for a callback that is not registered (any
    more) does nothing. *)
Theorem memory_teardown_removes_first_registration (s : state) (cb : nat) :
  listeners (teardown cb (listen cb s))
  = match MemoryHistoryTeardown.indexOf (listeners s) cb with
    | Some i => delete i (listeners s) ++ [cb]
    | None => listeners s
    end /\
  queue (teardown cb (listen cb s)) = queue s /\
  position (teardown cb (listen cb s)) = position s /\
  (cb ∉ listeners s -> teardown cb s = s).
Proof.
  assert (Hqp : queue (teardown cb (listen cb s)) = queue s /\
                position (teardown cb (listen cb s)) = position s).
  { unfold teardown.
    destruct (MemoryHistoryTeardown.indexOf (listeners (listen cb s)) cb); done. }
  split; [|split; [apply Hqp|split; [apply Hqp|]]].
  - unfold teardown, listen, JsArray.push. cbn [listeners].
    destruct (MemoryHistoryTeardown.indexOf (listeners s) cb) as [i|] eqn:Hi.
    + rewrite (indexOf_app_present _ [cb] _ _ Hi). cbn [listeners].
      destruct (indexOf_lookup _ _ _ Hi) as [Hl _].
      apply lookup_lt_Some in Hl.
      unfold JsArray.splice_one, JsArray.splice_start.
      destruct (Z.ltb_spec (Z.of_nat i) 0); [lia|].
      rewrite Z.min_l by (rewrite length_app; lia). rewrite Nat2Z.id.
      rewrite take_app_le, drop_app_le by lia.
      rewrite app_assoc. f_equal. now rewrite delete_take_drop.
    + rewrite (indexOf_app_absent _ _ Hi). cbn [listeners].
      unfold JsArray.splice_one, JsArray.splice_start.
      destruct (Z.ltb_spec (Z.of_nat (length (listeners s))) 0); [lia|].
      rewrite Z.min_l by (rewrite length_app; lia). rewrite Nat2Z.id.
      rewrite take_app_length. rewrite drop_ge by (rewrite length_app; cbn; lia).
      now rewrite app_nil_r.
  - intros Hcb. unfold teardown.
    now rewrite (proj2 (indexOf_absent _ _) Hcb).
Qed.

End MemoryHistoryMore.

(** ** What [resolve] of the matcher hands back *)

Section ResolvedLocations.
Import Matcher.
Context {host : Host}.



(** What [paramsFromLocation] leaves under a key. *)
Definition taken_over (params : PathParams) (k : string)
    : option RouteParamValue :=
  if String.eqb k "__proto__" then None
  else match params !! k with
       | Some v => Some v
       | None => if inherited_key k then Some (PInherited k) else None
       end.

Lemma paramsFromLocation_step (params newParams : PathParams) (x k : string) :
  (if key_in_params params x
   then set_param x (param_at params x) newParams
   else newParams) !! k
  = if decide (k = x) then
      match taken_over params k with
      | Some v => Some v
      | None => newParams !! k
      end
    else newParams !! k.
Proof.
  unfold key_in_params, set_param, param_at, taken_over, PathParams in *.
  destruct (decide (k = x)) as [->|Hne].
  - destruct (String.eqb x "__proto__").
    + now destruct (params !! x), (inherited_key x).
    + destruct (params !! x) as [v|]; cbn [default from_option id].
      * now rewrite lookup_insert_eq.
      * destruct (inherited_key x); [|done]. now rewrite lookup_insert_eq.
  - destruct (match params !! x with Some _ => true | None => inherited_key x end);
      [|done].
    destruct (String.eqb x "__proto__"); [done|].
    now rewrite lookup_insert_ne by done.
Qed.

Lemma paramsFromLocation_lookup (params : PathParams) (keys : list string)
    (k : string) :
  paramsFromLocation params keys !! k
  = if decide (k ∈ keys) then taken_over params k else None.
Proof.
  unfold paramsFromLocation.
  induction keys as [|x keys IH] using rev_ind.
  - cbn [foldl]. unfold PathParams. rewrite lookup_empty.
    now rewrite decide_False by apply not_elem_of_nil.
  - rewrite foldl_app. cbn [foldl]. rewrite paramsFromLocation_step, IH.
    destruct (decide (k = x)) as [->|Hne].
    + rewrite (decide_True (P := x ∈ keys ++ [x]))
        by (apply elem_of_app; right; apply list_elem_of_singleton; done).
      destruct (taken_over params x); [done|].
      now destruct (decide (x ∈ keys)).
    + destruct (decide (k ∈ keys)) as [Hin|Hout].
      * now rewrite decide_True by (apply elem_of_app; now left).
      * rewrite decide_False; [done|].
        rewrite elem_of_app, list_elem_of_singleton. tauto.
Qed.


(** The names of the parameters a matcher cannot do without. *)
Definition required_keys (m : RouteRecordMatcher) : list string :=
  map k_name (filter (fun k => optional k = false) (keys (parser m))).

(** The params of a resolved location, by the form of the request, for
    every key but [__proto__], which no assignment creates.
    With a name: the params given, and for the keys that are not
    given, the param of the current location if the key is a required
    one of the named matcher (the other params of the current location
    are dropped); the test is [key in params], so that for a required
    key that the current params do not own but [Object.prototype] has
    a property for, the value found there is taken over.  With a path:
    what the matcher parses out of the path, the params given being
    ignored.  With neither: the params given, and every param of the
    current location that is not overridden. *)
Theorem resolved_params_by_request
    (st : state) (location : MatcherLocationRaw)
    (currentLocation res : MatcherLocation) (k : string)
    (Hres : resolve st location currentLocation = inr res)
    (Hkey : k <> "__proto__"%string) :
  let given := default ∅ (l_params location) in
  loc_params res !! k
  = match truthy_name (l_name location), l_path location with
    | Some n, _ =>
        match given !! k with
        | Some v => Some v
        | None =>
            match matcherMap st !! n with
            | Some m =>
                if decide (k ∈ required_keys m)
                then match loc_params currentLocation !! k with
                     | Some v => Some v
                     | None =>
                         if inherited_key k then Some (PInherited k)
                         else None
                     end
                else None
            | None => None
            end
        end
    | None, Some p =>
        match find_by_path st p with
        | Some m => default ∅ (parse (parser m) p) !! k
        | None => None
        end
    | None, None =>
        match given !! k with
        | Some v => Some v
        | None => loc_params currentLocation !! k
        end
    end.
Proof.
  intros given. unfold resolve in Hres. unfold PathParams in *.
  destruct (truthy_name (l_name location)) as [n|].
  - destruct (matcherMap st !! n) as [m|]; [|done].
    destruct (stringify (parser m) _); [done|].
    injection Hres as <-. cbn [loc_params]. unfold assign.
    fold given. rewrite lookup_union.
    rewrite paramsFromLocation_lookup. fold (required_keys m).
    unfold taken_over.
    destruct (String.eqb_spec k "__proto__") as [Hp|_]; [done|].
    unfold PathParams.
    destruct (given !! k), (decide (k ∈ required_keys m)); try reflexivity;
      match goal with
      | |- context [@lookup ?a ?b ?c ?d k (loc_params currentLocation)] =>
          destruct (@lookup a b c d k (loc_params currentLocation))
      end; try reflexivity; destruct (inherited_key k); reflexivity.
  - destruct (l_path location) as [p|].
    + destruct (find_by_path st p) as [m|]; injection Hres as <-; done.
    + destruct (match truthy_name (loc_name currentLocation) with
                | Some n => matcherMap st !! n
                | None => find_by_path st (loc_path currentLocation)
                end) as [m|]; [|done].
      destruct (stringify (parser m) _); [done|].
      injection Hres as <-. cbn [loc_params]. unfold assign.
      fold given. rewrite lookup_union.
      unfold PathParams.
      destruct (given !! k);
        match goal with
        | |- context [@lookup ?a ?b ?c ?d k (loc_params currentLocation)] =>
            destruct (@lookup a b c d k (loc_params currentLocation))
        end; reflexivity.
Qed.

End ResolvedLocations.
(** ** Resolved locations on small route tables *)

Section ResolvedWitnesses.
Import Matcher SpecParser.
Local Open Scope string_scope.
#[local] Existing Instance plain_host.



(** A path compiler whose parsers ask for the one param [toString] and
    take whatever is found under it. *)
Definition lenient : Env :=
  {| Matcher.tokensToParser := fun p _ =>
       {| re_test := String.eqb p; score := [];
          keys := [mkKey "toString" false false];
          parse := fun _ => Some ∅;
          stringify := fun _ => inr p |};
     Matcher.comparePathParserScore := fun _ _ => 0;
     userOptions := mkPartial None None None |}.

Definition lenient_route : state :=
  run lenient [AddRoute (route "/t" (Some "t")) None].

(** From [/x] with the params [a] and [b], the route named [user],
    whose path is [/:a], is asked for without params; and from the
    start location, which has no params, the route named [t], which
    asks for the param [toString]. *)
Lemma resolved_params_by_request_witness :
  let current :=
    mkLocation None "/x" (<["a" := PStr "x"]> (<["b" := PStr "y"]> ∅)) [] ∅ in
  "a" <> "__proto__" /\
  match resolve two_routes (by_name "user") current with
  | inr res =>
      loc_path res = "/x" /\
      loc_params res !! "a" = Some (PStr "x") /\
      loc_params res !! "b" = None
  | inl _ => False
  end /\
  match resolve lenient_route (by_name "t") start with
  | inr res =>
      loc_params res !! "toString" = Some (PInherited "toString")
  | inl _ => False
  end.
Proof.
  intros current.
  assert ("a" <> "__proto__") as Ha' by discriminate.
  assert ("b" <> "__proto__") as Hb' by discriminate.
  assert ("toString" <> "__proto__") as Ht' by discriminate.
  split; [exact Ha'|]. split.
  - destruct (resolve two_routes (by_name "user") current) as [e|res] eqn:Hres;
      [vm_compute in Hres; discriminate|].
    pose proof (resolved_params_by_request _ _ _ res "a" Hres Ha') as Ha.
    pose proof (resolved_params_by_request _ _ _ res "b" Hres Hb') as Hb.
    cbv zeta in Ha, Hb. rewrite Ha, Hb.
    vm_compute in Hres. injection Hres as <-.
    vm_compute. repeat split; reflexivity.
  - destruct (resolve lenient_route (by_name "t") start) as [e|res] eqn:Hres;
      [vm_compute in Hres; discriminate|].
    pose proof (resolved_params_by_request _ _ _ res "toString" Hres Ht') as Ht.
    cbv zeta in Ht. rewrite Ht. vm_compute. reflexivity.
Defined.

End ResolvedWitnesses.
(** ** Removing twice *)

Section RemoveTwice.
Import Matcher.
Context (E : Env).

(** After any sequence of [addRoute] and [removeRoute] calls:
    [removeRoute] of a name that is not in the name index, or of a
    matcher that is not in the sequence, changes nothing; hence a
    second [removeRoute] with the same argument changes nothing, the
    first one having taken the name out of the index and the matcher
    out of the sequence. *)
Theorem removeRoute_twice_is_once (cs : list call)
    (ref : RouteRecordName + RouteRecordMatcher) :
  let st := run E cs in
  (match ref with
   | inl n => matcherMap st !! n = None
   | inr m => indexOf (matchers st) m = None
   end -> removeRoute ref st = st) /\
  match ref with
  | inl n => matcherMap (removeRoute ref st) !! n = None
  | inr m => indexOf (matchers (removeRoute ref st)) m = None
  end /\
  removeRoute ref (removeRoute ref st) = removeRoute ref st.
Proof.
  intros st. pose proof (run_wf E cs) as Hwf. fold st in Hwf.
  assert (Hnoop : forall s,
             match ref with
             | inl n => matcherMap s !! n = None
             | inr m => indexOf (matchers s) m = None
             end -> removeRoute ref s = s).
  { intros s H. destruct ref as [n|m]; cbn [removeRoute].
    - rewrite removeName_unfold. now rewrite H.
    - rewrite removeMatcher_unfold. now rewrite H. }
  assert (Hgone : match ref with
                  | inl n => matcherMap (removeRoute ref st) !! n = None
                  | inr m => indexOf (matchers (removeRoute ref st)) m = None
                  end).
  { destruct ref as [n|m]; cbn [removeRoute].
    - rewrite removeName_unfold.
      destruct (matcherMap st !! n) as [matcher|] eqn:Hn; [|exact Hn].
      cbv zeta.
      match goal with
      | |- matcherMap (foldl ?f (foldl ?f ?s0 ?l1) ?l2) !! n = None =>
          pose proof (removeAll_shrinks l1 s0) as S1;
          pose proof (removeAll_shrinks l2 (foldl f s0 l1)) as S2;
          pose proof (shrinks_map _ _ (shrinks_trans _ _ _ S1 S2)) as Hsub
      end.
      eapply lookup_weaken_None; [|exact Hsub].
      cbn [matcherMap set_matchers set_matcherMap]. apply lookup_delete_eq.
    - apply indexOf_None.
      apply (removeMatcher_closed (length (matchers st)) st m);
        [lia|apply Hwf]. }
  split; [apply Hnoop|]. split; [exact Hgone|]. apply Hnoop. exact Hgone.
Qed.

End RemoveTwice.
Section RemoveTwiceWitness.
Import Matcher SpecParser.
Local Open Scope string_scope.

Lemma removeRoute_twice_is_once_witness :
  let cs := [AddRoute (route "/:a" (Some "user")) None;
             AddRoute (route "/fixed" (Some "fixed")) None] in
  removeRoute (inl "nobody") (run env cs) = run env cs /\
  map (fun m => path (record m)) (matchers (removeRoute (inl "user") (run env cs)))
  = ["/fixed"] /\
  removeRoute (inl "user") (removeRoute (inl "user") (run env cs))
  = removeRoute (inl "user") (run env cs).
Proof.
  intros cs.
  destruct (removeRoute_twice_is_once env cs (inl "nobody")) as (H1 & _ & _).
  destruct (removeRoute_twice_is_once env cs (inl "user")) as (_ & _ & H3).
  split; [apply H1; vm_compute; reflexivity|].
  split; [vm_compute; reflexivity|exact H3].
Defined.

End RemoveTwiceWitness.

(** ** Query strings *)

Section SplitFacts.
Import Query.
Local Open Scope string_scope.

(** The character occurs in the string. *)
Fixpoint contains (c : Ascii.ascii) (s : string) : bool :=
  match s with
  | EmptyString => false
  | String x rest => Ascii.eqb x c || contains c rest
  end.

Lemma append_cons (x : Ascii.ascii) (a b : string) :
  String x a ++ b = String x (a ++ b).
Proof. reflexivity. Qed.

Lemma append_empty (b : string) : "" ++ b = b.
Proof. reflexivity. Qed.

Lemma append_assoc (a b c : string) : (a ++ b) ++ c = a ++ (b ++ c).
Proof.
  induction a as [|x a IH]; [reflexivity|].
  rewrite !append_cons. now rewrite IH.
Qed.

Lemma append_empty_r (a : string) : a ++ "" = a.
Proof.
  induction a as [|x a IH]; [reflexivity|]. rewrite append_cons. now rewrite IH.
Qed.

Lemma length_append (a b : string) :
  String.length (a ++ b) = (String.length a + String.length b)%nat.
Proof.
  induction a as [|x a IH]; [reflexivity|].
  rewrite append_cons. cbn [String.length]. now rewrite IH.
Qed.

Lemma contains_app c a b : contains c (a ++ b) = contains c a || contains c b.
Proof.
  induction a as [|x a IH]; [done|].
  rewrite append_cons. cbn [contains]. rewrite IH. now rewrite orb_assoc.
Qed.

Lemma split_nonempty c s : split c s <> [].
Proof.
  destruct s as [|x s]; cbn; [done|].
  destruct (Ascii.eqb x c); [done|]. now destruct (split c s).
Qed.

Lemma split_without c s : contains c s = false -> split c s = [s].
Proof.
  induction s as [|x s IH]; cbn; [done|].
  destruct (Ascii.eqb x c); cbn; [done|]. intros H. now rewrite (IH H).
Qed.

Lemma split_at_first c a b :
  contains c a = false ->
  split c (a ++ String c b) = a :: split c b.
Proof.
  induction a as [|x a IH].
  - intros _. rewrite append_empty. cbn [split]. now rewrite Ascii.eqb_refl.
  - rewrite append_cons. cbn [split contains].
    destruct (Ascii.eqb x c); cbn [orb]; [done|]. intros H. now rewrite (IH H).
Qed.

(** The pieces joined by the separator. *)
Fixpoint join (c : Ascii.ascii) (l : list string) : string :=
  match l with
  | [] => ""
  | [x] => x
  | x :: rest => x ++ String c (join c rest)
  end.

Lemma split_join c (l : list string) :
  l <> [] -> Forall (fun x => contains c x = false) l ->
  split c (join c l) = l.
Proof.
  induction l as [|x l IH]; [done|]. intros _ Hall.
  apply Forall_cons in Hall as [Hx Hl].
  destruct l as [|y l]; [now apply split_without|].
  cbn [join]. rewrite (split_at_first c x _ Hx). f_equal.
  now apply IH.
Qed.

Lemma join_cons c (x y : string) (l : list string) :
  join c (x :: y :: l) = x ++ String c (join c (y :: l)).
Proof. reflexivity. Qed.

Lemma join_app c (l1 l2 : list string) :
  l1 <> [] -> l2 <> [] ->
  join c (l1 ++ l2)%list = join c l1 ++ String c (join c l2).
Proof.
  induction l1 as [|x l1 IH]; [done|]. intros _ H2.
  destruct l1 as [|y l1].
  - destruct l2 as [|z l2]; [done|]. reflexivity.
  - change (join c (x :: (y :: l1 ++ l2)%list)
            = join c (x :: y :: l1) ++ String c (join c l2)).
    rewrite !join_cons.
    change (join c (y :: (l1 ++ l2)%list))
      with (join c ((y :: l1) ++ l2)%list).
    rewrite IH by done. now rewrite append_assoc, append_cons.
Qed.

End SplitFacts.
Section QueryFacts.
Import Query.
Local Open Scope string_scope.

Context {Number : Type}.
Context (number_truthy : Number -> bool) (number_to_string : Number -> string).
Context (decode : string -> string).
Context (encodeQueryProperty : string + Number -> string).
Context (inherited : string -> bool).

Local Notation "'encoded'" :=
  (encoded_value number_truthy number_to_string encodeQueryProperty)
  (only parsing).
Local Notation "'normalized'" := (normalize_value number_to_string)
  (only parsing).
Local Notation "'stringify'" :=
  (stringifyQuery number_truthy number_to_string encodeQueryProperty)
  (only parsing).
Local Notation "'parse'" := (parseQuery decode inherited) (only parsing).
Local Notation "'normalize'" := (normalizeQuery number_to_string)
  (only parsing).

(** One parameter of the query string. *)
Definition piece (key : string) (v : option string) : string :=
  key ++ match v with Some text => "=" ++ text | None => "" end.

(** The values that an entry contributes a parameter for. *)
Definition entry_values (e : @RawEntry Number) : list (option string) :=
  match e with
  | RawOne RUndefined => []
  | RawOne v => [encoded v]
  | RawMany l => map encoded l
  end.

Definition pieces (entry : string * @RawEntry Number) : list string :=
  map (piece (encodeQueryProperty (inl (fst entry)))) (entry_values (snd entry)).

Definition tail_join (l : list string) : string :=
  match l with [] => "" | _ => "&" ++ join "&" l end.

Lemma tail_join_cons (p : string) (l : list string) :
  tail_join (p :: l) = "&" ++ p ++ tail_join l.
Proof.
  unfold tail_join. destruct l as [|y l].
  - cbn [join]. now rewrite append_empty_r.
  - now rewrite join_cons.
Qed.

Lemma append_values_rest (key : string) (vs : list (option string)) :
  forall search,
    append_values key false vs search
    = search ++ tail_join (map (piece key) vs).
Proof.
  induction vs as [|v vs IH]; intros search.
  - cbn. now rewrite append_empty_r.
  - cbn [append_values map]. rewrite IH, tail_join_cons. unfold piece.
    destruct v as [text|]; rewrite ?append_assoc, ?append_empty_r; reflexivity.
Qed.

Lemma append_values_first (key : string) (v : option string)
    (vs : list (option string)) (search : string) :
  append_values key true (v :: vs) search
  = search ++ join "&" (map (piece key) (v :: vs)).
Proof.
  cbn [append_values map]. rewrite append_values_rest.
  assert (join "&" (piece key v :: map (piece key) vs)
          = piece key v ++ tail_join (map (piece key) vs)) as ->.
  { unfold tail_join. destruct (map (piece key) vs) as [|y l].
    - cbn [join]. now rewrite append_empty_r.
    - now rewrite join_cons. }
  unfold piece. rewrite append_empty.
  destruct v as [text|]; rewrite ?append_assoc, ?append_empty_r; reflexivity.
Qed.

(** What an entry adds to the string built so far. *)
Lemma stringify_entry_pieces (search : string) (entry : string * @RawEntry Number) :
  entry_values (snd entry) <> [] ->
  stringify_entry number_truthy number_to_string encodeQueryProperty search entry
  = (if Nat.eqb (String.length search) 0 then search else search ++ "&")
    ++ join "&" (pieces entry).
Proof.
  destruct entry as [key e]. unfold pieces, stringify_entry. cbn [fst snd].
  intros Hne. destruct e as [v|l].
  - destruct v as [s| |n|]; cbn [entry_values] in *;
      try (rewrite append_values_first; reflexivity); [|done].
    cbn [encoded_value map join]. unfold piece. now rewrite append_empty_r.
  - cbn [entry_values] in *. destruct l as [|v l]; [done|].
    cbn [map]. now rewrite append_values_first.
Qed.

Lemma join_length_head c (x : string) (l : list string) :
  (String.length x <= String.length (join c (x :: l)))%nat.
Proof.
  destruct l as [|y l]; [done|]. rewrite join_cons, length_append. lia.
Qed.

(** A query without a gap: no entry is [undefined] or an empty array,
    and the key of the first entry does not encode to the empty
    string. *)
Definition gapless (q : @LocationQueryRaw Number) : Prop :=
  Forall (fun entry => entry_values (snd entry) <> []) q /\
  match q with
  | (key, _) :: _ => encodeQueryProperty (inl key) <> ""
  | [] => True
  end.

Lemma flat_map_pieces_head (q : @LocationQueryRaw Number) :
  gapless q -> q <> [] ->
  exists p P, flat_map pieces q = p :: P /\
              exists value rest key,
                q = (key, value) :: rest /\
                p = piece (encodeQueryProperty (inl key)) (default None (head (entry_values value))).
Proof.
  intros [Hall Hhead] Hne. destruct q as [|[key value] rest]; [done|].
  apply Forall_cons in Hall as [Hv _]. cbn [snd] in Hv.
  cbn [flat_map]. unfold pieces at 1. cbn [fst snd].
  destruct (entry_values value) as [|v vs] eqn:Hvs; [done|].
  cbn [map app]. eexists _, _. split; [reflexivity|].
  exists value, rest, key. split; [reflexivity|]. now rewrite Hvs.
Qed.

Lemma stringifyQuery_joins (q : @LocationQueryRaw Number) :
  gapless q -> stringify q = join "&" (flat_map pieces q).
Proof.
  unfold stringifyQuery.
  induction q as [|entry q IH] using rev_ind; [reflexivity|].
  intros [Hall Hhead]. apply Forall_app in Hall as [Hall Hentry].
  apply Forall_cons in Hentry as [Hentry _].
  rewrite foldl_app. cbn [foldl]. rewrite flat_map_app. cbn [flat_map].
  rewrite app_nil_r.
  rewrite (stringify_entry_pieces _ entry Hentry).
  destruct q as [|first q].
  - reflexivity.
  - assert (Hq : gapless (first :: q)).
    { split; [exact Hall|]. destruct first. exact Hhead. }
    rewrite (IH Hq).
    destruct (flat_map_pieces_head (first :: q) Hq ltac:(done))
      as (p & P & HP & value & rest & key & Heq & Hp).
    injection Heq as -> ->. rewrite HP.
    assert (Hlen : (0 < String.length (join "&" (p :: P)))%nat).
    { pose proof (join_length_head "&" p P) as Hle.
      assert (0 < String.length p)%nat; [|lia].
      rewrite Hp. unfold piece. rewrite length_append.
      destruct Hq as [_ Hk]. cbn in Hk.
      destruct (encodeQueryProperty (inl key)); [done|cbn; lia]. }
    destruct (Nat.eqb_spec (String.length (join "&" (p :: P))) 0) as [H0|_];
      [lia|].
    rewrite append_assoc.
    change ("&" ++ join "&" (pieces entry))
      with (String "&"%char (join "&" (pieces entry))).
    symmetry. apply join_app; [done|].
    unfold pieces. destruct (entry_values (snd entry)); [done|done].
Qed.

(** The string does not hold a separator of the query syntax. *)
Definition clean (s : string) : Prop :=
  contains "&" s = false /\ contains "=" s = false.

(** What the round trip needs of the encoder and of the decoder, on the
    keys and the values that occur. *)
Definition key_ok (key : string) : Prop :=
  clean (encodeQueryProperty (inl key)) /\
  decode (encodeQueryProperty (inl key)) = key /\
  inherited key = false /\ is_proto key = false.

Definition value_ok (v : @RawValue Number) : Prop :=
  match encoded v with
  | Some text => clean text /\ Some (decode text) = normalized v
  | None => True
  end.

Definition entry_ok (entry : string * @RawEntry Number) : Prop :=
  key_ok (fst entry) /\
  match snd entry with
  | RawOne RUndefined => False
  | RawOne v => value_ok v
  | RawMany l => (2 <= length l)%nat /\ Forall value_ok l
  end.

(** [query[key]] after the parameter [key=value] has been read. *)
Definition add_value (query : LocationQuery) (key : string)
    (value : option string) : LocationQuery :=
  match query !! key with
  | Some (Many l) => <[key := Many (l ++ [value])]> query
  | Some (Single v) => <[key := Many [v; value]]> query
  | None => <[key := Single value]> query
  end.

Lemma encoded_normalized_none (v : @RawValue Number) :
  encoded v = None -> normalized v = None.
Proof. destruct v; cbn; congruence. Qed.

Lemma parse_param_piece (query : LocationQuery) (key : string)
    (v : @RawValue Number) :
  key_ok key -> value_ok v ->
  parse_param decode inherited (Some query)
    (piece (encodeQueryProperty (inl key)) (encoded v))
  = Some (add_value query key (normalized v)).
Proof.
  intros ((Hk1 & Hk2) & Hdec & Hinh & Hproto) Hv.
  unfold parse_param, piece, value_ok, add_value in *.
  destruct (encoded v) as [text|] eqn:Henc.
  - destruct Hv as ((Ht1 & Ht2) & Hnorm).
    change ("=" ++ text) with (String "="%char text).
    rewrite (split_at_first "=" _ text Hk2), (split_without "=" text Ht2).
    cbn [lookup list_lookup default option_map from_option id]. rewrite Hdec, <- Hnorm.
    destruct (query !! key) as [[x|l]|]; [done|done|].
    now rewrite Hinh, Hproto.
  - rewrite append_empty_r, (split_without "=" _ Hk2).
    cbn [lookup list_lookup default option_map from_option id].
    rewrite Hdec, (encoded_normalized_none v Henc).
    destruct (query !! key) as [[x|l]|]; [done|done|].
    now rewrite Hinh, Hproto.
Qed.

Lemma parse_params_many (key : string) (vs : list (@RawValue Number)) :
  key_ok key -> Forall value_ok vs ->
  forall (query : LocationQuery) (l : list (option string)),
    query !! key = Some (Many l) ->
    foldl (parse_param decode inherited) (Some query)
          (map (piece (encodeQueryProperty (inl key))) (map encoded vs))
    = Some (<[key := Many (l ++ map normalized vs)]> query).
Proof.
  intros Hk Hvs. induction Hvs as [|v vs Hv Hvs IH]; intros query l Hq.
  - cbn. rewrite app_nil_r. unfold LocationQuery in *. now rewrite insert_id.
  - cbn [map foldl]. rewrite (parse_param_piece query key v Hk Hv).
    unfold add_value. rewrite Hq.
    rewrite (IH _ (l ++ [normalized v])%list) by apply lookup_insert_eq.
    unfold LocationQuery in *. rewrite insert_insert_eq.
    now rewrite <- app_assoc.
Qed.

(** The value an entry is normalized to. *)
Definition normalized_entry (e : @RawEntry Number) : QueryValue :=
  match e with
  | RawOne v => Single (normalized v)
  | RawMany l => Many (map normalized l)
  end.

Lemma parse_entry (query : LocationQuery) (entry : string * @RawEntry Number) :
  entry_ok entry -> query !! fst entry = None ->
  foldl (parse_param decode inherited) (Some query) (pieces entry)
  = Some (<[fst entry := normalized_entry (snd entry)]> query).
Proof.
  destruct entry as [key e]. unfold entry_ok, pieces. cbn [fst snd].
  intros [Hk He] Hfresh. destruct e as [v|l].
  - assert (entry_values (RawOne v) = [encoded v]) as ->
        by (destruct v; [reflexivity|reflexivity|reflexivity|done]).
    assert (value_ok v) as Hv by (destruct v; done).
    cbn [map foldl]. rewrite (parse_param_piece query key v Hk Hv).
    unfold add_value. now rewrite Hfresh.
  - destruct He as [Hlen Hall]. cbn [entry_values normalized_entry].
    destruct l as [|v1 [|v2 l]]; cbn [length] in Hlen; [lia|lia|].
    apply Forall_cons in Hall as [Hv1 Hall].
    apply Forall_cons in Hall as [Hv2 Hall].
    cbn [map foldl]. rewrite (parse_param_piece query key v1 Hk Hv1).
    unfold add_value at 1. rewrite Hfresh.
    rewrite (parse_param_piece _ key v2 Hk Hv2).
    unfold add_value. unfold LocationQuery in *. rewrite lookup_insert_eq.
    rewrite (parse_params_many key l Hk Hall _ [normalized v1; normalized v2])
      by apply lookup_insert_eq.
    unfold LocationQuery in *. now rewrite !insert_insert_eq.
Qed.

Lemma parse_entries (q : @LocationQueryRaw Number) :
  Forall entry_ok q -> NoDup q.*1 ->
  forall query : LocationQuery,
    (forall key, key ∈ q.*1 -> query !! key = None) ->
    foldl (parse_param decode inherited) (Some query) (flat_map pieces q)
    = Some (foldl (fun m entry => <[fst entry := normalized_entry (snd entry)]> m)
                  query q).
Proof.
  intros Hall. induction Hall as [|entry q Hentry Hall IH]; intros Hnd query Hfresh.
  - reflexivity.
  - cbn [flat_map foldl]. rewrite foldl_app.
    cbn [fmap list_fmap] in Hnd. apply NoDup_cons in Hnd as [Hnotin Hnd].
    rewrite (parse_entry query entry Hentry)
      by (apply Hfresh; cbn; apply elem_of_cons; now left).
    apply IH; [exact Hnd|].
    intros key Hkey. unfold LocationQuery in *. rewrite lookup_insert_ne.
    + apply Hfresh. cbn. apply elem_of_cons. now right.
    + intros Heq. apply Hnotin. now rewrite Heq.
Qed.

Lemma set_property_fresh {V} (key : string) (value : V) (o : list (string * V)) :
  key ∉ o.*1 -> set_property key value o = (o ++ [(key, value)])%list.
Proof.
  induction o as [|[k v] o IH]; [done|]. cbn [fmap list_fmap fst].
  rewrite not_elem_of_cons. intros [Hne Hnotin]. cbn [set_property].
  destruct (String.eqb_spec k key) as [->|_]; [done|].
  cbn. now rewrite (IH Hnotin).
Qed.

Lemma normalizeQuery_maps (q : @LocationQueryRaw Number) :
  Forall entry_ok q -> NoDup q.*1 ->
  normalize (Some q)
  = Some (map (fun entry => (fst entry, normalized_entry (snd entry))) q).
Proof.
  unfold normalizeQuery. cbn [default from_option id].
  induction q as [|entry q IH] using rev_ind; [reflexivity|].
  intros Hall Hnd. apply Forall_app in Hall as [Hall Hentry].
  apply Forall_cons in Hentry as [Hentry _].
  rewrite fmap_app in Hnd. apply NoDup_app in Hnd as (Hnd & Hdisj & _).
  rewrite foldl_app, (IH Hall Hnd), map_app. cbn [foldl map].
  destruct entry as [key e]. destruct Hentry as [(_ & _ & _ & Hproto) He].
  cbn [fst snd] in *. unfold normalize_entry.
  assert (Hfresh : key ∉ (map (fun entry : string * @RawEntry Number =>
                                 (fst entry, normalized_entry (snd entry))) q).*1).
  { intros Hin. apply (Hdisj key); [|cbn; apply elem_of_cons; now left].
    apply list_elem_of_fmap in Hin as ([k v] & -> & Hin).
    apply list_elem_of_fmap in Hin as ([k' e'] & [= -> ->] & Hin).
    apply list_elem_of_fmap. now exists (k', e'). }
  destruct e as [v|l].
  - destruct v; try done; rewrite Hproto;
      now rewrite (set_property_fresh _ _ _ Hfresh).
  - rewrite Hproto. now rewrite (set_property_fresh _ _ _ Hfresh).
Qed.

Lemma list_to_map_foldl (q : @LocationQueryRaw Number) :
  NoDup q.*1 ->
  foldl (fun (m : LocationQuery) entry =>
           <[fst entry := normalized_entry (snd entry)]> m) ∅ q
  = list_to_map (map (fun entry => (fst entry, normalized_entry (snd entry))) q).
Proof.
  induction q as [|entry q IH] using rev_ind; [reflexivity|].
  rewrite fmap_app. intros (Hnd & Hdisj & _)%NoDup_app.
  rewrite foldl_app, map_app. cbn [foldl map]. unfold LocationQuery in *.
  rewrite list_to_map_snoc; [now rewrite IH|].
  intros Hin. apply (Hdisj (fst entry)); [|cbn; apply elem_of_cons; now left].
  apply list_elem_of_fmap in Hin as ([k v] & -> & Hin).
  apply list_elem_of_fmap in Hin as ([k' e'] & [= -> ->] & Hin).
  apply list_elem_of_fmap. now exists (k', e').
Qed.

Lemma gapless_of_entries (q : @LocationQueryRaw Number) :
  Forall entry_ok q ->
  match q with
  | (key, _) :: _ => encodeQueryProperty (inl key) <> ""
  | [] => True
  end ->
  gapless q.
Proof.
  intros Hentries Hfirst. split; [|exact Hfirst].
  eapply Forall_impl; [exact Hentries|]. intros [key e] [_ He].
  cbn [snd] in *. destruct e as [v|l].
  - destruct v; done.
  - destruct He as [Hlen _]. destruct l; cbn in *; [lia|done].
Qed.

Lemma pieces_clean (q : @LocationQueryRaw Number) :
  Forall entry_ok q ->
  Forall (fun x => contains "&" x = false) (flat_map pieces q).
Proof.
  intros Hentries.
  apply Forall_flat_map. eapply Forall_impl; [exact Hentries|].
  intros [k' e'] [((Hk1 & _) & _) He']. unfold pieces. cbn [fst snd] in *.
  apply Forall_map.
  assert (Hvals : Forall (fun v => match v with
                                   | Some text => contains "&" text = false
                                   | None => True
                                   end) (entry_values e')).
  { destruct e' as [v|l].
    - destruct v; try done; cbn [entry_values]; repeat constructor;
        unfold value_ok in He';
        match goal with
        | |- match ?x with _ => _ end => destruct x; [apply He'|done]
        end.
    - cbn [entry_values]. apply Forall_map. destruct He' as [_ Hall].
      eapply Forall_impl; [exact Hall|]. intros v Hv. unfold value_ok in Hv.
      destruct (encoded v); [apply Hv|done]. }
  eapply Forall_impl; [exact Hvals|]. intros v Hv. unfold piece.
  rewrite contains_app, Hk1. destruct v as [text|]; [|done].
  change ("=" ++ text) with (String "="%char text). cbn [contains orb].
  exact Hv.
Qed.

(** A string that does not start with a question mark is cut at every
    [&], and the parameters are read from left to right. *)
Lemma parseQuery_joined (c : Ascii.ascii) (tail : string) (P : list string) :
  c <> "?"%char ->
  Forall (fun x => contains "&" x = false) (String c tail :: P) ->
  parse (join "&" (String c tail :: P))
  = foldl (parse_param decode inherited) (Some ∅) (String c tail :: P).
Proof.
  intros Hc Hclean.
  assert (exists tail', join "&" (String c tail :: P) = String c tail')
    as (tail' & Hjoin).
  { destruct P as [|y P]; [cbn [join]; eauto|].
    rewrite join_cons, append_cons. eauto. }
  unfold parseQuery. rewrite Hjoin.
  assert (String.eqb (String c tail') "" = false) as -> by reflexivity.
  assert (String.eqb (String c tail') "?" = false) as ->.
  { cbn. destruct (Ascii.eqb_spec c "?"); [done|reflexivity]. }
  cbn [orb String.get]. destruct (Ascii.eqb_spec c "?") as [|_]; [done|].
  rewrite <- Hjoin.
  now rewrite (split_join "&" (String c tail :: P) ltac:(done) Hclean).
Qed.

Lemma first_piece (q : @LocationQueryRaw Number) (key : string)
    (e : @RawEntry Number) (rest : @LocationQueryRaw Number) (c : Ascii.ascii)
    (k' : string) :
  q = (key, e) :: rest -> gapless q ->
  encodeQueryProperty (inl key) = String c k' ->
  exists tail P, flat_map pieces q = String c tail :: P.
Proof.
  intros Hq Hgap Henc.
  destruct (flat_map_pieces_head q Hgap ltac:(now rewrite Hq))
    as (p & P & HP & value & rest' & key' & Heq & Hp).
  rewrite Hq in Heq. injection Heq as <- <- <-.
  rewrite HP, Hp. unfold piece. rewrite Henc, append_cons. eauto.
Qed.

(** The query string of [stringifyQuery] parses back to the normalized
    query, for a query whose keys are distinct, of which no entry is
    [undefined], or an array of fewer than two values, whose first key
    encodes to text that is not empty and does not start with a
    question mark, and on whose keys and values the encoder yields no
    [&] and no [=] and the decoder undoes the encoder (a falsy value is
    written as it is, and must decode to itself); no key may be a
    property name of [Object.prototype]. *)
Theorem parseQuery_stringifyQuery_round_trip (q : @LocationQueryRaw Number)
    (Hentries : Forall entry_ok q)
    (Hkeys : NoDup q.*1)
    (Hfirst : match q with
              | (key, _) :: _ =>
                  match encodeQueryProperty (inl key) with
                  | String c _ => c <> "?"%char
                  | EmptyString => False
                  end
              | [] => True
              end) :
  parseQuery decode inherited
    (stringifyQuery number_truthy number_to_string encodeQueryProperty q)
  = list_to_map <$> normalizeQuery number_to_string (Some q).
Proof.
  rewrite (normalizeQuery_maps q Hentries Hkeys). cbn [fmap option_fmap option_map].
  assert (Hgap : gapless q).
  { apply gapless_of_entries; [exact Hentries|].
    destruct q as [|[key e] q]; [done|].
    destruct (encodeQueryProperty (inl key)); done. }
  rewrite (stringifyQuery_joins q Hgap).
  destruct q as [|[key e] rest] eqn:Hq; [reflexivity|].
  rewrite <- Hq in Hentries, Hkeys, Hgap |- *.
  destruct (encodeQueryProperty (inl key)) as [|c k'] eqn:Henc; [done|].
  destruct (first_piece q key e rest c k' Hq Hgap Henc) as (tail & P & HP).
  pose proof (pieces_clean q Hentries) as Hclean.
  rewrite HP in Hclean |- *.
  rewrite (parseQuery_joined c tail P Hfirst Hclean), <- HP.
  rewrite (parse_entries q Hentries Hkeys ∅)
    by (intros; apply lookup_empty).
  now rewrite (list_to_map_foldl q Hkeys).
Qed.

(** An entry whose value is [undefined] writes no parameter, but the
    [&] that separates it from the entries before it is written all the
    same; [normalizeQuery] drops the entry.  So when such an entry
    follows a query that makes the round trip, the query string ends
    with [&] and parses back to the normalized query with one more
    key, the decoded empty string, holding [null]. *)
Theorem undefined_entry_leaves_separator (q : @LocationQueryRaw Number)
    (key : string)
    (Hentries : Forall entry_ok q)
    (Hkeys : NoDup q.*1)
    (Hfirst : match q with
              | (key, _) :: _ =>
                  match encodeQueryProperty (inl key) with
                  | String c _ => c <> "?"%char
                  | EmptyString => False
                  end
              | [] => False
              end)
    (Hempty : decode "" ∉ q.*1)
    (Hplain : inherited (decode "") = false /\ is_proto (decode "") = false) :
  let q' := (q ++ [(key, RawOne RUndefined)])%list in
  stringifyQuery number_truthy number_to_string encodeQueryProperty q'
  = stringifyQuery number_truthy number_to_string encodeQueryProperty q
    ++ "&" /\
  normalizeQuery number_to_string (Some q')
  = normalizeQuery number_to_string (Some q) /\
  parseQuery decode inherited
    (stringifyQuery number_truthy number_to_string encodeQueryProperty q')
  = (fun m => <[decode "" := Single None]> (list_to_map m))
      <$> normalizeQuery number_to_string (Some q).
Proof.
  intros q'. subst q'.
  assert (Hgap : gapless q).
  { apply gapless_of_entries; [exact Hentries|].
    destruct q as [|[k e] q]; [done|].
    destruct (encodeQueryProperty (inl k)); done. }
  destruct q as [|[k e] rest] eqn:Hq; [done|].
  rewrite <- Hq in Hentries, Hkeys, Hgap, Hempty |- *.
  destruct (encodeQueryProperty (inl k)) as [|c k'] eqn:Henc; [done|].
  destruct (first_piece q k e rest c k' Hq Hgap Henc) as (tail & P & HP).
  pose proof (pieces_clean q Hentries) as Hclean.
  assert (Hstr : stringify (q ++ [(key, RawOne RUndefined)])%list
                 = stringify q ++ "&").
  { unfold stringifyQuery. rewrite foldl_app. cbn [foldl stringify_entry].
    fold (stringify q). rewrite (stringifyQuery_joins q Hgap), HP.
    destruct (join "&" (String c tail :: P)) eqn:Hj; [|reflexivity].
    destruct P; [discriminate Hj|]. rewrite join_cons, append_cons in Hj.
    discriminate Hj. }
  split; [exact Hstr|]. split.
  - unfold normalizeQuery. cbn [default from_option id].
    rewrite foldl_app. cbn [foldl].
    destruct (foldl _ (Some []) q); reflexivity.
  - rewrite Hstr, (stringifyQuery_joins q Hgap), HP.
    assert (join "&" (String c tail :: P) ++ "&"
            = join "&" (String c tail :: (P ++ [""])%list)) as ->.
    { change (String c tail :: (P ++ [""])%list)
        with ((String c tail :: P) ++ [""])%list.
      now rewrite join_app by done. }
    rewrite parseQuery_joined; [|exact Hfirst|].
    2: { change (String c tail :: (P ++ [""])%list)
           with ((String c tail :: P) ++ [""])%list.
         rewrite HP in Hclean. apply Forall_app. split; [exact Hclean|].
         now repeat constructor. }
    change (String c tail :: (P ++ [""])%list)
      with ((String c tail :: P) ++ [""])%list.
    rewrite foldl_app, <- HP.
    rewrite (parse_entries q Hentries Hkeys ∅) by (intros; apply lookup_empty).
    rewrite (list_to_map_foldl q Hkeys), (normalizeQuery_maps q Hentries Hkeys).
    cbn [foldl fmap option_fmap option_map parse_param split].
    cbn [lookup list_lookup default option_map from_option id].
    unfold LocationQuery in *.
    rewrite (not_elem_of_list_to_map_1 _ (decode "")).
    + destruct Hplain as [-> ->]. reflexivity.
    + intros Hin. apply Hempty.
      apply list_elem_of_fmap in Hin as ([k1 v1] & -> & Hin).
      apply list_elem_of_fmap in Hin as ([k2 e2] & [= -> ->] & Hin).
      apply list_elem_of_fmap. now exists (k2, e2).
Qed.

(** [normalizeQuery] on a query with distinct keys, none of them
    [__proto__]: the entries whose value is [undefined] are dropped,
    the others are kept in their order, with every number turned into
    its string and every [undefined] inside an array into [null];
    [normalizeQuery(undefined)] is the empty query. *)
Theorem normalizeQuery_drops_undefined (q : @LocationQueryRaw Number)
    (Hkeys : NoDup q.*1)
    (Hproto : Forall (fun entry => is_proto (fst entry) = false) q) :
  normalizeQuery number_to_string None = Some [] /\
  normalizeQuery number_to_string (Some q)
  = Some (omap (fun entry =>
                  match snd entry with
                  | RawOne RUndefined => None
                  | e => Some (fst entry, normalized_entry e)
                  end) q).
Proof.
  split; [reflexivity|].
  unfold normalizeQuery. cbn [default from_option id].
  induction q as [|entry q IH] using rev_ind; [reflexivity|].
  apply Forall_app in Hproto as [Hproto Hentry].
  apply Forall_cons in Hentry as [Hentry _].
  rewrite fmap_app in Hkeys. apply NoDup_app in Hkeys as (Hnd & Hdisj & _).
  rewrite foldl_app, (IH Hnd Hproto), omap_app. cbn [foldl].
  destruct entry as [key e]. cbn [fst snd] in *. unfold normalize_entry.
  set (kept := omap _ q).
  assert (Hfresh : key ∉ kept.*1).
  { intros Hin. apply (Hdisj key); [|cbn; apply elem_of_cons; now left].
    apply list_elem_of_fmap in Hin as ([k v] & -> & Hin).
    apply list_elem_of_omap in Hin as ([k' e'] & Hin & Hsome).
    apply list_elem_of_fmap. exists (k', e'). split; [|exact Hin].
    cbn [fst snd] in *. destruct e' as [[]|]; congruence. }
  destruct e as [v|l].
  - destruct v; cbn [omap list_omap snd fst]; rewrite ?app_nil_r; try done;
      rewrite Hentry; now rewrite (set_property_fresh _ _ _ Hfresh).
  - cbn [omap list_omap snd fst]. rewrite Hentry.
    now rewrite (set_property_fresh _ _ _ Hfresh).
Qed.

(** The question mark in front of the query string is optional: as
    long as [search] does not itself start with a question mark,
    [parseQuery('?' + search)] is [parseQuery(search)]; the empty
    string and the lone question mark give the empty query. *)
Theorem parseQuery_leading_question_mark (search : string)
    (Hsearch : match search with
               | String c _ => c <> "?"%char
               | EmptyString => True
               end) :
  parseQuery decode inherited "" = Some ∅ /\
  parseQuery decode inherited "?" = Some ∅ /\
  parseQuery decode inherited ("?" ++ search)
  = parseQuery decode inherited search.
Proof.
  split; [reflexivity|]. split; [reflexivity|].
  destruct search as [|c tail]; [reflexivity|].
  change ("?" ++ String c tail) with (String "?"%char (String c tail)).
  unfold parseQuery.
  assert (String.eqb (String c tail) "" = false) as -> by reflexivity.
  assert (String.eqb (String c tail) "?" = false) as ->.
  { cbn. destruct (Ascii.eqb_spec c "?"); [done|reflexivity]. }
  assert (String.eqb (String "?"%char (String c tail)) "" = false) as ->
      by reflexivity.
  assert (String.eqb (String "?"%char (String c tail)) "?" = false) as ->
      by reflexivity.
  cbn [orb String.get slice1]. rewrite Ascii.eqb_refl.
  destruct (Ascii.eqb_spec c "?") as [|_]; [done|]. reflexivity.
Qed.

End QueryFacts.
(** ** Query strings with an encoder that changes nothing *)

Section QueryWitnesses.
Import Query.
Local Open Scope string_scope.

(** Three numbers are enough here. *)
Inductive SmallNumber := Zero | One | Two.

Definition small_truthy (n : SmallNumber) : bool :=
  match n with Zero => false | _ => true end.

Definition small_to_string (n : SmallNumber) : string :=
  match n with Zero => "0" | One => "1" | Two => "2" end.

Definition plain_encode (text : string + SmallNumber) : string :=
  match text with inl s => s | inr n => small_to_string n end.

Definition plain_decode (text : string) : string := text.

Definition some_inherited (key : string) : bool :=
  String.eqb key "toString" || String.eqb key "constructor"
  || String.eqb key "valueOf" || String.eqb key "hasOwnProperty".

Definition sample_query : @LocationQueryRaw SmallNumber :=
  [("a", RawOne (RString "x"));
   ("b", RawMany [RString "1"; RNull; RNumber Zero]);
   ("c", RawOne RNull)].

Lemma sample_query_ok :
  Forall (entry_ok small_truthy small_to_string plain_decode plain_encode
                   some_inherited) sample_query.
Proof.
  unfold sample_query.
  repeat (apply Forall_cons_2; [vm_compute; repeat split; try lia;
                                repeat (apply Forall_cons_2 || apply Forall_nil_2);
                                repeat split|]).
  apply Forall_nil_2.
Qed.

Lemma sample_query_keys : NoDup sample_query.*1.
Proof. apply (bool_decide_unpack _). vm_compute. reflexivity. Qed.

Lemma parseQuery_stringifyQuery_round_trip_witness :
  stringifyQuery small_truthy small_to_string plain_encode sample_query
  = "a=x&b=1&b&b=0&c" /\
  parseQuery plain_decode some_inherited
    (stringifyQuery small_truthy small_to_string plain_encode sample_query)
  = Some (list_to_map [("a", Single (Some "x"));
                       ("b", Many [Some "1"; None; Some "0"]);
                       ("c", Single None)]).
Proof.
  split; [reflexivity|].
  rewrite (parseQuery_stringifyQuery_round_trip small_truthy small_to_string
             plain_decode plain_encode some_inherited sample_query
             sample_query_ok sample_query_keys);
    [reflexivity|vm_compute; discriminate].
Defined.

Lemma undefined_entry_leaves_separator_witness :
  let q' : @LocationQueryRaw SmallNumber :=
    (sample_query ++ [("d", RawOne RUndefined)])%list in
  stringifyQuery small_truthy small_to_string plain_encode q'
  = "a=x&b=1&b&b=0&c&" /\
  normalizeQuery small_to_string (Some q')
  = normalizeQuery small_to_string (Some sample_query) /\
  parseQuery plain_decode some_inherited
    (stringifyQuery small_truthy small_to_string plain_encode q')
  = Some (list_to_map [("a", Single (Some "x"));
                       ("b", Many [Some "1"; None; Some "0"]);
                       ("c", Single None);
                       ("", Single None)]).
Proof.
  intros q'.
  unshelve epose proof
    (undefined_entry_leaves_separator small_truthy small_to_string
       plain_decode plain_encode some_inherited sample_query "d"
       sample_query_ok sample_query_keys _ _ _) as H;
    [vm_compute; discriminate
    |vm_compute; intros Hin; repeat (apply elem_of_cons in Hin as [Hin|Hin];
                                     [discriminate Hin|]);
     now apply elem_of_nil in Hin
    |split; reflexivity|].
  cbv zeta in H. fold q' in H. destruct H as (H1 & H2 & H3).
  split; [rewrite H1; reflexivity|]. split; [exact H2|].
  rewrite H3. vm_compute. reflexivity.
Defined.

Lemma normalizeQuery_drops_undefined_witness :
  let q : @LocationQueryRaw SmallNumber :=
    [("a", RawOne (RNumber Two)); ("u", RawOne RUndefined);
     ("l", RawMany [RUndefined; RString "s"])] in
  normalizeQuery small_to_string (Some q)
  = Some [("a", Single (Some "2")); ("l", Many [None; Some "s"])].
Proof.
  intros q.
  unshelve epose proof
    (normalizeQuery_drops_undefined small_to_string q _ _) as [_ H];
    [apply (bool_decide_unpack _); vm_compute; reflexivity
    |repeat (apply Forall_cons_2; [reflexivity|]); apply Forall_nil_2|].
  rewrite H. reflexivity.
Defined.

Lemma parseQuery_leading_question_mark_witness :
  parseQuery plain_decode some_inherited "?a=1&a=2"
  = parseQuery plain_decode some_inherited "a=1&a=2" /\
  parseQuery plain_decode some_inherited "a=1&a=2"
  = Some (list_to_map [("a", Many [Some "1"; Some "2"])]) /\
  parseQuery plain_decode some_inherited "a=1&toString=2" = None.
Proof.
  split; [|split; vm_compute; reflexivity].
  apply (parseQuery_leading_question_mark plain_decode some_inherited "a=1&a=2").
  discriminate.
Defined.

End QueryWitnesses.

(** ** [createHref]: what is left of the base *)
Section HrefFacts.
Import HistoryCommon.
Local Open Scope string_scope.

(** No character of [s] is a [#]. *)
Definition hash_free (s : string) : Prop :=
  forall c, In c (list_ascii_of_string s) -> c <> "#"%char.

Lemma after_hash_free s : hash_free s -> after_hash s = None.
Proof.
  induction s as [|c s IH]; intros H; [reflexivity|]. cbn.
  destruct (Ascii.eqb_spec c "#") as [->|_].
  - exfalso. apply (H "#"%char); [now left|reflexivity].
  - apply IH. intros d Hd. apply H. now right.
Qed.

Lemma after_hash_first pre rest :
  hash_free pre -> after_hash (pre ++ String "#" rest) = Some rest.
Proof.
  induction pre as [|c pre IH]; intros H; [reflexivity|].
  change (String c pre ++ String "#" rest)
    with (String c (pre ++ String "#" rest)). cbn.
  destruct (Ascii.eqb_spec c "#") as [->|_].
  - exfalso. apply (H "#"%char); [now left|reflexivity].
  - apply IH. intros d Hd. apply H. now right.
Qed.

(** [createHref] drops what the base holds before its first [#]: a base
    without [#] is prefixed to the location as it is, and of a base
    [pre # rest] only [# rest] is kept, whether [pre] is empty or not. *)
Theorem createHref_keeps_base_from_first_hash
    (pre rest : string) (location : MemoryHistory.HistoryLocation)
    (Hpre : hash_free pre) :
  createHref pre location = pre ++ location /\
  createHref (pre ++ String "#" rest) location
  = String "#" rest ++ location.
Proof.
  unfold createHref, replace_before_hash. split.
  - destruct pre as [|c pre]; [reflexivity|].
    destruct (Ascii.eqb_spec c "#") as [->|_].
    + exfalso. apply (Hpre "#"%char); [now left|reflexivity].
    + rewrite after_hash_free; [reflexivity|].
      intros d Hd. apply Hpre. now right.
  - destruct pre as [|c pre]; [reflexivity|].
    change (String c pre ++ String "#" rest)
      with (String c (pre ++ String "#" rest)). cbv beta iota.
    destruct (Ascii.eqb_spec c "#") as [->|_].
    + exfalso. apply (Hpre "#"%char); [now left|reflexivity].
    + rewrite after_hash_first; [reflexivity|].
      intros d Hd. apply Hpre. now right.
Qed.

Lemma createHref_keeps_base_from_first_hash_witness :
  hash_free "/folder/" /\
  createHref "/folder/" "/users" = "/folder//users" /\
  createHref "/folder/#/app" "/users" = "#/app/users".
Proof.
  assert (hash_free "/folder/") as H.
  { intros c Hc. cbn in Hc.
    repeat (destruct Hc as [<-|Hc]; [discriminate|]). destruct Hc. }
  split; [exact H|].
  exact (createHref_keeps_base_from_first_hash "/folder/" "/app" "/users" H).
Defined.

End HrefFacts.

(** ** The listeners of the HTML5 history *)
Section WebHistoryFacts.
Import MemoryHistory WebHistory.
Context {Browser : Type}.
Context (stripBase : string -> string -> string).
Context (replace :
  HistoryLocation -> HistoryLocation * option StateEntry * Browser ->
  HistoryLocation * option StateEntry * Browser * bool).
Context (base : string).

Lemma direction_of_sign (d : Z) :
  (direction_of d = forward <-> 0 < d) /\
  (direction_of d = back <-> d < 0) /\
  (direction_of d = unknown <-> d = 0).
Proof.
  unfold direction_of.
  destruct (Z.eqb_spec d 0); destruct (Z.ltb_spec 0 d);
    repeat split; intros; try discriminate; try lia; reflexivity.
Qed.

(** [go(delta, false)] silences one [popstate] event.  When the current
    location is not the empty text, the next event that carries a state
    is taken in (location and state follow the event) but no listener is
    called and the pause is over; the event after that is reported to
    every listener, once each in registration order, from the location
    of the first event to that of the second, with the difference of
    the two positions as delta and its sign as direction. *)
Theorem go_without_trigger_silences_one_popstate
    (s : state Browser) (d : Z) (ev1 ev2 : StateEntry)
    (location1 location2 : Location)
    (Hcurrent : currentLocation s <> ""%string) :
  let s1 := fst (go d false s) in
  let r1 := popStateHandler stripBase replace base (Some ev1) location1 s1 in
  let r2 :=
    popStateHandler stripBase replace base (Some ev2) location2 (fst r1) in
  let to1 := createCurrentLocation stripBase base location1 in
  let to2 := createCurrentLocation stripBase base location2 in
  let dd := e_position ev2 - e_position ev1 in
  snd (go d false s) = d /\
  snd r1 = Notified [] /\
  fst r1 = {| currentLocation := to1; historyState := Some ev1;
              browser := browser s; pauseState := None;
              listeners := listeners s; teardowns := teardowns s;
              attached := attached s |} /\
  snd r2 =
    Notified
      (map (fun cb =>
              mkNotification cb (Some to2) (Some to1)
                {| info_type := pop; direction := direction_of dd;
                   delta := dd |})
           (listeners s)) /\
  (direction_of dd = forward <-> e_position ev1 < e_position ev2) /\
  (direction_of dd = back <-> e_position ev2 < e_position ev1) /\
  (direction_of dd = unknown <-> e_position ev2 = e_position ev1).
Proof.
  intros s1 r1 r2 to1 to2 dd.
  assert (paused s1 (currentLocation s1) = true) as Hp.
  { unfold paused, s1. cbn. rewrite String.eqb_refl.
    destruct (String.eqb_spec (currentLocation s) ""); done. }
  assert (r1 = ({| currentLocation := to1; historyState := Some ev1;
                   browser := browser s; pauseState := None;
                   listeners := listeners s; teardowns := teardowns s;
                   attached := attached s |}, Notified [])) as Hr1.
  { unfold r1, popStateHandler. rewrite Hp. reflexivity. }
  split; [reflexivity|]. split; [now rewrite Hr1|]. split; [now rewrite Hr1|].
  split.
  - unfold r2. rewrite Hr1. reflexivity.
  - pose proof (direction_of_sign dd) as (H1 & H2 & H3). unfold dd in *.
    rewrite H1, H2, H3. repeat split; lia.
Qed.

(** A pause that is not consumed.  An event is swallowed only when it
    arrives at the location at which the listeners were paused: after a
    pause at [p], an event with a state that finds the history at
    another location is reported to the listeners, and so is every
    event without a state, for which [replace] is called; either way
    the pause stays armed. *)
Theorem pause_waits_for_its_location
    (s : state Browser) (p : HistoryLocation) (ev : option StateEntry)
    (location : Location)
    (Hpause : pauseState s = Some p)
    (Hcase : ev = None \/ p <> currentLocation s) :
  let r := popStateHandler stripBase replace base ev location s in
  pauseState (fst r) = Some p /\
  listeners (fst r) = listeners s /\
  match ev with
  | Some st =>
      currentLocation (fst r) = createCurrentLocation stripBase base location /\
      historyState (fst r) = Some st /\
      exists dd,
        dd = match historyState s with
             | Some fs => e_position st - e_position fs
             | None => 0
             end /\
        snd r = Notified (call_listeners (fst r) (currentLocation s) dd)
  | None =>
      let '(loc', st', b', threw) :=
        replace (createCurrentLocation stripBase base location)
                (currentLocation s, historyState s, browser s) in
      currentLocation (fst r) = loc' /\ historyState (fst r) = st' /\
      snd r = if threw then Threw
              else Notified (call_listeners (fst r) (currentLocation s) 0)
  end.
Proof.
  intros r. unfold r, popStateHandler. destruct ev as [st|].
  - destruct Hcase as [?|Hne]; [done|].
    assert (paused s (currentLocation s) = false) as ->.
    { unfold paused. rewrite Hpause.
      destruct (String.eqb_spec p (currentLocation s)); [done|].
      apply andb_false_r. }
    cbn. repeat split; [done|]. eexists. split; reflexivity.
  - destruct (replace _ _) as [[[loc' st'] b'] threw].
    destruct threw; cbn; repeat split; done.
Qed.

(** *** [destroy] *)

(** Every registration still held has its teardown in [teardowns]. *)
Definition teardowns_cover (s : state Browser) : Prop :=
  listeners s ⊆+ teardowns s.

Lemma teardown_listeners (cb : nat) (s : state Browser) :
  listeners (teardown cb s)
  = match MemoryHistoryTeardown.indexOf (listeners s) cb with
    | Some i => delete i (listeners s)
    | None => listeners s
    end /\
  teardowns (teardown cb s) = teardowns s /\
  currentLocation (teardown cb s) = currentLocation s /\
  historyState (teardown cb s) = historyState s /\
  pauseState (teardown cb s) = pauseState s /\
  browser (teardown cb s) = browser s.
Proof.
  unfold teardown.
  destruct (MemoryHistoryTeardown.indexOf (listeners s) cb) as [i|] eqn:Hi;
    [|done].
  cbn. repeat split. apply splice_one_index.
Qed.

Lemma teardown_all (ts : list nat) (s : state Browser) :
  listeners s ⊆+ ts ->
  listeners (foldl (fun s cb => teardown cb s) s ts) = [].
Proof.
  revert s. induction ts as [|cb ts IH]; intros s Hsub; cbn.
  - now apply submseteq_nil_r.
  - apply IH. destruct (teardown_listeners cb s) as (-> & _).
    destruct (MemoryHistoryTeardown.indexOf (listeners s) cb) as [i|] eqn:Hi.
    + destruct (indexOf_lookup _ _ _ Hi) as [Hl _].
      pose proof (delete_Permutation _ _ _ Hl) as Hperm.
      rewrite Hperm in Hsub. now apply (submseteq_app_inv_l _ _ [cb]).
    + apply indexOf_absent in Hi.
      apply submseteq_cons_r in Hsub as [H|(l' & Hperm & _)]; [exact H|].
      exfalso. apply Hi. rewrite Hperm. now left.
Qed.

Lemma teardown_all_keeps (ts : list nat) (s : state Browser) :
  let s' := foldl (fun s cb => teardown cb s) s ts in
  currentLocation s' = currentLocation s /\
  historyState s' = historyState s /\
  pauseState s' = pauseState s /\
  browser s' = browser s.
Proof.
  revert s. induction ts as [|cb ts IH]; intros s; cbn; [done|].
  destruct (IH (teardown cb s)) as (-> & -> & -> & ->).
  destruct (teardown_listeners cb s) as (_ & _ & -> & -> & -> & ->). done.
Qed.

Lemma exec_covers (s : state Browser) (c : call) :
  teardowns_cover s -> teardowns_cover (exec stripBase replace base s c).
Proof.
  unfold teardowns_cover. intros H. destruct c as [cb|cb|d t|ev location|]; cbn.
  - unfold JsArray.push. now apply submseteq_app.
  - destruct (teardown_listeners cb s) as (-> & -> & _).
    destruct (MemoryHistoryTeardown.indexOf (listeners s) cb) as [i|]; [|done].
    etrans; [|exact H]. apply sublist_submseteq, sublist_delete.
  - now destruct t.
  - unfold popstate. destruct (attached s); [|done].
    unfold popStateHandler. destruct ev as [st|].
    + now destruct (paused s (currentLocation s)).
    + destruct (replace _ _) as [[[loc' st'] b'] threw]. now destruct threw.
  - now rewrite (teardown_all _ _ H).
Qed.

Lemma run_covers (cs : list call) (s : state Browser) :
  teardowns_cover s ->
  teardowns_cover (foldl (exec stripBase replace base) s cs).
Proof.
  revert s. induction cs as [|c cs IH]; intros s H; [exact H|].
  cbn [foldl]. apply IH, exec_covers, H.
Qed.

(** After any sequence of [listen], teardown, [go], [popstate] and
    [destroy] calls, [destroy] leaves no listener behind, whichever
    teardowns were called before and however often a callback was
    registered; it forgets the teardowns and detaches the handler, so
    that a later [popstate] changes nothing and calls nobody; location,
    state and pause are left as they were. *)
Theorem destroy_leaves_no_listener
    (loc : HistoryLocation) (st : option StateEntry) (b : Browser)
    (cs : list call) :
  let s := foldl (exec stripBase replace base) (start loc st b) cs in
  destroy s = {| currentLocation := currentLocation s;
                 historyState := historyState s;
                 browser := browser s; pauseState := pauseState s;
                 listeners := []; teardowns := []; attached := false |} /\
  forall ev location,
    popstate stripBase replace base ev location (destroy s)
    = (destroy s, Notified []).
Proof.
  intros s.
  assert (teardowns_cover s) as Hcov.
  { unfold s. apply run_covers. unfold teardowns_cover. done. }
  assert (destroy s = {| currentLocation := currentLocation s;
                 historyState := historyState s;
                 browser := browser s; pauseState := pauseState s;
                 listeners := []; teardowns := []; attached := false |}) as Hd.
  { unfold destroy. rewrite (teardown_all _ _ Hcov).
    destruct (teardown_all_keeps (teardowns s) s) as (-> & -> & -> & ->).
    reflexivity. }
  split; [exact Hd|]. intros ev location. rewrite Hd. reflexivity.
Qed.

End WebHistoryFacts.

(** *** Instances *)
Section WebHistoryWitnesses.
Import MemoryHistory WebHistory.

(** A [stripBase] for an empty base and a [replace] that only moves the
    current location. *)
Definition plain_strip (pathname base : string) : string := pathname.

Definition replace_current (to : HistoryLocation)
    (shared : HistoryLocation * option StateEntry * unit)
    : HistoryLocation * option StateEntry * unit * bool :=
  (to, snd (fst shared), snd shared, false).

Definition entry_at (loc : HistoryLocation) (pos : Z) : StateEntry :=
  {| e_back := None; e_current := loc; e_forward := None;
     e_position := pos; e_replaced := false; e_scroll := ScrollNull |}.

Definition at_path (p : string) : Location :=
  {| pathname := p; search := ""%string; hash := ""%string |}.

Lemma go_without_trigger_silences_one_popstate_witness :
  let s :=
    listen 7 (listen 5 (start "/c"%string (Some (entry_at "/c" 3)) tt)) in
  let r1 :=
    popStateHandler plain_strip replace_current ""%string
      (Some (entry_at "/b" 2)) (at_path "/b") (fst (go (-1) false s)) in
  let r2 :=
    popStateHandler plain_strip replace_current ""%string
      (Some (entry_at "/a" 1)) (at_path "/a") (fst r1) in
  currentLocation s <> ""%string /\
  snd r1 = Notified [] /\
  pauseState (fst r1) = None /\
  snd r2 =
    Notified
      [mkNotification 5 (Some "/a"%string) (Some "/b"%string)
         {| info_type := pop; direction := back; delta := -1 |};
       mkNotification 7 (Some "/a"%string) (Some "/b"%string)
         {| info_type := pop; direction := back; delta := -1 |}].
Proof.
  intros s r1 r2.
  assert (currentLocation s <> ""%string) as Hcur by discriminate.
  split; [exact Hcur|].
  pose proof (go_without_trigger_silences_one_popstate
                plain_strip replace_current ""%string s (-1)
                (entry_at "/b" 2) (entry_at "/a" 1)
                (at_path "/b") (at_path "/a") Hcur) as H.
  cbv zeta in H. fold r1 in H. fold r2 in H.
  destruct H as (_ & H1 & H2 & H3 & _).
  split; [exact H1|]. split; [now rewrite H2|].
  etrans; [exact H3|]. reflexivity.
Defined.

Lemma pause_waits_for_its_location_witness :
  let s : state unit :=
    {| currentLocation := "/b"%string;
       historyState := Some (entry_at "/b" 2); browser := tt;
       pauseState := Some "/a"%string; listeners := [5%nat];
       teardowns := [5%nat]; attached := true |} in
  let r :=
    popStateHandler plain_strip replace_current ""%string
      (Some (entry_at "/c" 3)) (at_path "/c") s in
  pauseState s = Some "/a"%string /\
  pauseState (fst r) = Some "/a"%string /\
  snd r =
    Notified
      [mkNotification 5 (Some "/c"%string) (Some "/b"%string)
         {| info_type := pop; direction := forward; delta := 1 |}].
Proof.
  intros s r. split; [reflexivity|].
  assert ("/a"%string <> currentLocation s) as Hne by discriminate.
  pose proof (pause_waits_for_its_location
                plain_strip replace_current ""%string s "/a"%string
                (Some (entry_at "/c" 3)) (at_path "/c") eq_refl
                (or_intror Hne)) as H.
  cbv zeta in H. fold r in H.
  destruct H as (H1 & _ & H).
  destruct H as (_ & _ & dd & -> & H2).
  split; [exact H1|]. etrans; [exact H2|]. reflexivity.
Defined.

End WebHistoryWitnesses.

(** ** The router's route table: [addRoute], [hasRoute], [removeRoute] *)
Section RouteTable.
Import Matcher.
Context (E : Env) {build : RouterRoutes.Build}.

(** Adding a named canonical record puts its matcher in the sequence and
    hands it the name, whether the name was taken or not. *)
Lemma addRoute_registers record parent k st :
  registry_wf st ->
  truthy_name (raw_name record) = Some k ->
  isAliasRecord_opt parent = false ->
  exists new,
    fst (addRoute E record parent None st) = Some new /\
    matcherMap (snd (addRoute E record parent None st)) !! k = Some new /\
    registered (snd (addRoute E record parent None st)) new /\
    new ∈ matchers (snd (addRoute E record parent None st)) /\
    (next_id st <= mid new)%nat /\
    name (Matcher.record new) = raw_name record /\
    Matcher.parent new = parent.
Proof.
  intros Hwf Hk Hpar. destruct record as [p n a r m o cs].
  cbn [raw_name] in Hk. cbn [addRoute].
  unfold normalizeRouteRecord. cbn [fresh option_map].
  set (main := set_aliasOf None _).
  pose proof (alias_records_allocates main (rid main)
                (aliases_of (mkRaw p n a r m o cs)) (snd (fresh st)))
    as (A1 & A2 & A3 & A4 & A5 & A6).
  pose proof (alias_records_sound registry_wf fresh_wf main (rid main)
                (aliases_of (mkRaw p n a r m o cs)) _ (fresh_wf st Hwf))
    as (Hwf1 & _).
  pose proof (alias_records_aliasOf main (rid main)
                (aliases_of (mkRaw p n a r m o cs)) (snd (fresh st))) as Hcopies.
  cbn [fresh snd] in A1, A2, A3, A4, A5, A6, Hwf1, Hcopies.
  destruct (alias_records main (rid main) _ _) as [copies st1].
  cbn [fst snd matchers matcherMap children_of alias_of inserted next_id]
    in A1, A2, A3, A4, A5, A6.
  cbn [fst snd] in *.
  set (loopf := fun matcher orig st =>
                  match cs with Some _ => _ | None => _ end).
  cbn [foldl].
  (* the first turn of the loop: the canonical record *)
  set (step := addRoute_step E (mkRaw p n a r m o cs) parent true
                 (mergeOptions (globalOptions E) o) loopf).
  set (v0 := {| originalRecord := None; originalMatcher := None;
                loop_state := st1 |}).
  assert (exists new st5,
             step v0 main = {| originalRecord := Some new;
                               originalMatcher := Some new;
                               loop_state := st5 |} /\
             mid new = next_id st1 /\
             name (Matcher.record new) = n /\
             Matcher.parent new = parent /\
             registry_wf st5 /\
             matcherMap st5 !! k = Some new /\
             registered st5 new /\
             new ∈ matchers st5)
    as (new & st5 & Hstep & Hmid & Hname & Hparent & Hwf5 & Hmap5 & Hnew5
        & Hin5).
  { unfold step, addRoute_step. cbn [loop_state originalRecord originalMatcher v0].
    set (nr' := match parent with Some _ => _ | None => _ end).
    assert (aliasOf nr' = None /\ name nr' = n) as (Hal & Hnm).
    { unfold nr'. destruct parent as [pp|]; [|done].
      destruct (negb _); done. }
    pose proof (createRouteRecordMatcher_spec E registry_wf fresh_wf
                  push_child_wf nr' parent
                  (mergeOptions (globalOptions E) o) st1 Hwf1) as Hc.
    pose proof (create_matcher_shape E nr' parent
                  (mergeOptions (globalOptions E) o) st1) as Hsh.
    pose proof (create_extends E nr' parent
                  (mergeOptions (globalOptions E) o) st1) as [Hc1 Hc2].
    assert (heap_grows st1
              (snd (createRouteRecordMatcher E nr' parent
                      (mergeOptions (globalOptions E) o) st1))) as Hheap.
    { unfold createRouteRecordMatcher. cbn.
      destruct parent as [pp|]; [|intros x y H; exact H].
      intros x y H. apply push_child_heap_grows. exact H. }
    cbn zeta in Hc.
    destruct (createRouteRecordMatcher E nr' parent _ st1) as [matcher st2].
    cbn [fst snd] in *. destruct Hc as (Hm & Hwf2 & HG2 & Hn2 & Hl2).
    assert (isAliasRecord matcher = false) as Hna.
    { rewrite Hsh. cbn. rewrite Hal. now destruct parent. }
    cbn [default raw_name]. rewrite Nat.eqb_refl. cbn [negb]. rewrite Hk, Hna.
    cbn [andb negb].
    cbn [removeRoute].
    pose proof (removeName_shrinks k st2) as S3.
    set (st3 := removeName k st2) in *.
    pose proof (shrinks_wf _ _ S3 Hwf2) as Hwf3.
    destruct (children_loop_sound E cs matcher None st3 Hwf3) as (Hwf4 & HG4).
    fold (loopf matcher None st3) in Hwf4, HG4.
    set (st4 := loopf matcher None st3) in *.
    exists matcher, (insertMatcher E matcher st4).
    split; [reflexivity|]. split; [exact Hm|].
    split; [now rewrite Hsh|]. split; [now rewrite Hsh|].
    assert ((next_id st3 <= next_id st4)%nat) as Hn4 by apply HG4.
    assert (next_id st3 = next_id st2) as Hn3 by apply S3.
    assert (inserted st3 = inserted st2) as Hl3 by apply S3.
    split.
    { apply insertMatcher_wf; [exact Hwf4| |lia].
      destruct HG4 as [_ (l & -> & Hl) _]. rewrite Hl3, Hl2.
      intros [H|H]%elem_of_app.
      - apply (wf_log_bound _ Hwf1) in H. lia.
      - specialize (Hl _ H). lia. }
    split.
    { apply insertMatcher_names; [|exact Hna]. rewrite Hsh. cbn.
      now rewrite Hnm. }
    split; [apply insertMatcher_registered; now left|].
    cbn [insertMatcher matchers set_matchers].
    apply splice_insert_elem. now left. }
  rewrite Hstep.
  (* the remaining turns: the alias copies *)
  pose proof (addRoute_loop_quiet E (mkRaw p n a r m o cs) parent true
                (mergeOptions (globalOptions E) o) loopf copies) as Hq.
  pose proof (addRoute_loop_sound E registry_wf shrinks_wf fresh_wf
                push_child_wf push_alias_wf (insertMatcher_wf E) wf_log_bound
                (mkRaw p n a r m o cs) parent true
                (mergeOptions (globalOptions E) o) loopf copies) as Hs.
  fold step in Hq, Hs.
  set (v1 := {| originalRecord := Some new; originalMatcher := Some new;
                loop_state := st5 |}) in *.
  assert (Forall (aliased parent) copies) as Hal.
  { eapply Forall_impl; [exact Hcopies|]. intros nr Hnr. left.
    eexists. exact Hnr. }
  assert (forall matcher orig s,
             isAliasRecord matcher = true -> extends s (loopf matcher orig s))
    as Hquiet.
  { intros matcher orig s Ha. unfold loopf. now apply (children_loop_quiet E). }
  assert (forall matcher orig, sound registry_wf (loopf matcher orig)) as Hsound.
  { intros matcher orig s Hs'. unfold loopf. now apply (children_loop_sound E). }
  destruct (Hq Hal Hquiet v1 (mk_is_Some _ _ eq_refl)) as (Hext & Hom).
  destruct (Hs Hsound v1 Hwf5) as (_ & HG).
  cbn [loop_state originalMatcher v1] in Hext, Hom, HG.
  cbn [fst snd].
  exists new. split; [exact Hom|].
  split; [now rewrite (extends_map _ _ Hext)|].
  split; [eapply extends_registered; eassumption|].
  split; [now apply (extends_matchers _ _ Hext)|].
  split; [lia|]. split; [exact Hname|exact Hparent].
Qed.


(** After any sequence of calls on the matcher, [router.addRoute] of a
    record with a name [k], at top level or under a parent given by
    name, leaves [hasRoute(k)] true: the name index hands [k] to the new
    matcher, whose record is among [getRoutes()] and whose parent is the
    matcher the parent name stood for; a parent name that is not
    registered is not reported, the record is added at top level.
    [removeRoute(k)] right after it does not warn, does what the function
    returned by [addRoute] does, and leaves [hasRoute(k)] false with the
    new matcher out of the sequence. *)
Theorem router_addRoute_then_hasRoute
    (cs : list call) (parentName : option RouteRecordName)
    (record : RouteRecordRaw) (k : RouteRecordName)
    (Hname : truthy_name (raw_name record) = Some k) :
  let st := run E cs in
  let added :=
    match parentName with
    | Some p => RouterRoutes.addRoute E (inl p) (Some record) st
    | None => RouterRoutes.addRoute E (inr record) None st
    end in
  exists new st',
    added = Some (Some new, st') /\
    RouterRoutes.hasRoute st' k = true /\
    getRecordMatcher st' k = Some new /\
    Matcher.record new ∈ RouterRoutes.getRoutes st' /\
    name (Matcher.record new) = raw_name record /\
    Matcher.parent new = (parentName ≫= getRecordMatcher st) /\
    RouterRoutes.removeRoute k st' = (RouterRoutes.remover (Some new) st', false) /\
    RouterRoutes.hasRoute (RouterRoutes.remover (Some new) st') k = false /\
    ~ registered (RouterRoutes.remover (Some new) st') new.
Proof.
  intros st added. pose proof (run_wf E cs) as Hwf. fold st in Hwf.
  set (parent := parentName ≫= getRecordMatcher st).
  assert (added = Some (addRoute E record parent None st)) as Hadded.
  { unfold added, parent. destruct parentName as [p|]; reflexivity. }
  assert (isAliasRecord_opt parent = false) as Hcanonical.
  { unfold parent. destruct parentName as [p|]; [|reflexivity]. cbn.
    unfold getRecordMatcher.
    destruct (matcherMap st !! p) as [m|] eqn:Hm; [|reflexivity].
    apply (wf_index st Hwf p m Hm). }
  destruct (addRoute_registers record parent k st Hwf Hname Hcanonical)
    as (new & Hnew & Hmap & Hreg & Hin & _ & Hn & Hp).
  destruct (addRoute_wf E record parent None st Hwf) as (Hwf' & _).
  destruct (addRoute E record parent None st) as [res st'] eqn:Hres.
  cbn [fst snd] in *. subst res.
  exists new, st'. split; [exact Hadded|].
  assert (truthy_name (name (Matcher.record new)) = Some k) as Hk
      by now rewrite Hn.
  unfold RouterRoutes.hasRoute, RouterRoutes.removeRoute,
    RouterRoutes.remover, RouterRoutes.getRoutes, getRecordMatcher, getRoutes.
  rewrite Hmap.
  cbn [removeRoute]. rewrite (removeMatcher_unmaps st' new k Hreg Hk).
  repeat split; try done.
  - apply list_elem_of_fmap. now exists new.
  - apply removeMatcher_cascades; [apply Hwf'|]. now apply chain_here.
Qed.

End RouteTable.

Section RouteTableWitness.
Import Matcher.

(** A development build. *)
Definition development : RouterRoutes.Build := {| RouterRoutes.DEV := true |}.
#[local] Existing Instance development.

Lemma router_addRoute_then_hasRoute_witness :
  let st :=
    run SpecParser.env
        [AddRoute (SpecParser.route "/users" (Some "users"%string)) None] in
  truthy_name (raw_name (SpecParser.route "profile" (Some "profile"%string)))
  = Some "profile"%string /\
  exists new st',
    RouterRoutes.addRoute SpecParser.env (inl "users"%string)
      (Some (SpecParser.route "profile" (Some "profile"%string))) st
    = Some (Some new, st') /\
    RouterRoutes.hasRoute st' "profile" = true /\
    Matcher.parent new = getRecordMatcher st "users" /\
    RouterRoutes.hasRoute (fst (RouterRoutes.removeRoute "profile" st'))
      "profile" = false.
Proof.
  intros st. split; [reflexivity|].
  destruct (router_addRoute_then_hasRoute SpecParser.env
              [AddRoute (SpecParser.route "/users" (Some "users"%string)) None]
              (Some "users"%string)
              (SpecParser.route "profile" (Some "profile"%string))
              "profile"%string eq_refl)
    as (new & st' & H1 & H2 & _ & _ & _ & H3 & H4 & H5 & _).
  exists new, st'. split; [exact H1|]. split; [exact H2|].
  split; [exact H3|]. rewrite H4. exact H5.
Defined.

End RouteTableWitness.

(** ** References held by the registry and its client are genuine *)
Section GenuineReferences.
Import Matcher.
Context (E : Env).

(** [c] lists the matchers created so far, each once: whatever the
    sequence, the ownership lists and the name index hold is one of
    them, and the name index only holds matchers of the sequence. *)
Record genuine (c : list RouteRecordMatcher) (st : state) : Prop := mkGenuine {
  g_nodup : NoDup (mid <$> c);
  g_bound : forall x, x ∈ c -> (mid x < next_id st)%nat;
  g_matchers : forall x, x ∈ matchers st -> x ∈ c;
  g_children :
    forall i l x, children_of st !! i = Some l -> x ∈ l -> x ∈ c;
  g_alias : forall i l x, alias_of st !! i = Some l -> x ∈ l -> x ∈ c;
  g_index : forall k m, matcherMap st !! k = Some m -> m ∈ matchers st
}.

Lemma same_identity (c : list RouteRecordMatcher) x y :
  NoDup (mid <$> c) -> x ∈ c -> y ∈ c -> mid x = mid y -> x = y.
Proof.
  induction c as [|z c IH]; intros Hnd Hx Hy Heq; [inv Hx|].
  rewrite fmap_cons in Hnd. apply NoDup_cons in Hnd as [Hz Hnd].
  apply elem_of_cons in Hx as [->|Hx]; apply elem_of_cons in Hy as [->|Hy].
  - done.
  - exfalso. apply Hz. rewrite Heq. apply list_elem_of_fmap. eauto.
  - exfalso. apply Hz. rewrite <- Heq. apply list_elem_of_fmap. eauto.
  - now apply IH.
Qed.

Lemma indexOf_lookup_mid l m i :
  indexOf l m = Some i -> exists y, l !! i = Some y /\ mid y = mid m.
Proof.
  revert i. induction l as [|x l IH]; intros i; cbn; [done|].
  destruct (Nat.eqb_spec (mid x) (mid m)) as [Heq|Hne].
  - intros [= <-]. eauto.
  - destruct (indexOf l m) as [j|]; cbn; [|done].
    intros [= <-]. now apply IH.
Qed.

(** [indexOf] finds the object it is given. *)
Lemma indexOf_genuine c st x i :
  genuine c st -> x ∈ c -> indexOf (matchers st) x = Some i ->
  matchers st !! i = Some x.
Proof.
  intros G Hx Hi. destruct (indexOf_lookup_mid _ _ _ Hi) as (y & Hy & Hmid).
  rewrite Hy. f_equal.
  apply (same_identity c); [apply G| |exact Hx|exact Hmid].
  apply (g_matchers c st G). eapply list_elem_of_lookup_2. exact Hy.
Qed.

Lemma get_children_genuine c st o x :
  genuine c st -> x ∈ get_children st o -> x ∈ c.
Proof.
  intros G. unfold get_children.
  destruct (children_of st !! mid o) as [l|] eqn:Hl; cbn.
  - apply (g_children c st G _ _ x Hl).
  - intros H. inv H.
Qed.

Lemma get_alias_genuine c st o x :
  genuine c st -> x ∈ get_alias st o -> x ∈ c.
Proof.
  intros G. unfold get_alias.
  destruct (alias_of st !! mid o) as [l|] eqn:Hl; cbn.
  - apply (g_alias c st G _ _ x Hl).
  - intros H. inv H.
Qed.

Lemma detach_genuine c st x i :
  registry_wf st -> genuine c st -> x ∈ c ->
  indexOf (matchers st) x = Some i ->
  genuine c (detach i x st).
Proof.
  intros Hwf G Hx Hi. pose proof (indexOf_genuine c st x i G Hx Hi) as Hl.
  pose proof (detach_shrinks st x i) as [S1 S2 S3 S4 S5 S6].
  assert (matchers (detach i x st) = delete i (matchers st)) as Hms.
  { unfold detach. destruct (truthy_name _); cbn; apply splice_one_index. }
  assert (NoDup (matchers st)) as Hnd.
  { eapply NoDup_fmap_1, (wf_nodup st Hwf). }
  constructor.
  - apply G.
  - intros y Hy. rewrite S5. now apply (g_bound c st G).
  - intros y Hy. apply (g_matchers c st G).
    eapply sublist_subseteq; eassumption.
  - rewrite S3. apply G.
  - rewrite S4. apply G.
  - intros k m Hk. rewrite Hms.
    assert (matcherMap st !! k = Some m) as Hk0.
    { eapply lookup_weaken; eassumption. }
    apply (NoDup_delete_elem _ i x m Hnd Hl).
    split; [now apply (g_index c st G k)|]. intros ->.
    destruct (wf_index st Hwf k x Hk0) as [Hname _].
    unfold detach in Hk. rewrite Hname in Hk. cbn in Hk.
    now rewrite lookup_delete_eq in Hk.
Qed.

(** The matcher branch of [removeRoute], called on a genuine reference,
    whether it is in the sequence or not. *)
Lemma removeMatcher_genuine c n :
  forall st x, (length (matchers st) <= n)%nat ->
    registry_wf st -> genuine c st -> x ∈ c ->
    genuine c (removeMatcher x st).
Proof.
  induction n as [|n IH]; intros st x Hlen Hwf G Hx;
    rewrite removeMatcher_unfold;
    destruct (indexOf (matchers st) x) as [i|] eqn:Hi; try done.
  - apply indexOf_lt in Hi. lia.
  - pose proof (detach_length st x i Hi) as Hd.
    pose proof (detach_genuine c st x i Hwf G Hx Hi) as G1.
    pose proof (shrinks_wf _ _ (detach_shrinks st x i) Hwf) as Hwf1.
    assert (forall l s, (length (matchers s) <= n)%nat -> registry_wf s ->
              genuine c s -> (forall y, y ∈ l -> y ∈ c) ->
              genuine c (foldl (fun s x => removeMatcher x s) s l) /\
              registry_wf (foldl (fun s x => removeMatcher x s) s l) /\
              (length (matchers (foldl (fun s x => removeMatcher x s) s l))
               <= n)%nat) as Hall.
    { induction l as [|y l IHl]; intros s Hs Hwfs Gs Hin; cbn [foldl];
        [done|].
      apply IHl.
      - pose proof (shrinks_length _ _ (removeMatcher_shrinks y s)). lia.
      - eapply shrinks_wf; [apply removeMatcher_shrinks|exact Hwfs].
      - apply IH; try done. apply Hin. now left.
      - intros z Hz. apply Hin. now right. }
    destruct (Hall (get_children st x) (detach i x st)) as (G2 & Hwf2 & Hl2);
      [lia|done|done|intros y; apply (get_children_genuine c st x y G)|].
    apply (Hall (get_alias st x)); try done.
    intros y. apply (get_alias_genuine c st x y G).
Qed.

Lemma removeRoute_matcher_genuine c st x :
  registry_wf st -> genuine c st -> x ∈ c ->
  genuine c (removeRoute (inr x) st).
Proof. intros. now apply (removeMatcher_genuine c (length (matchers st))). Qed.

(** In the name branch [matchers.indexOf(matcher)] is never [-1]: the
    name stands for a matcher of the sequence, and the branch does what
    the matcher branch does on it. *)
Lemma removeRoute_name_genuine c st k :
  registry_wf st -> genuine c st ->
  genuine c (removeRoute (inl k) st) /\
  forall m, matcherMap st !! k = Some m ->
    m ∈ matchers st /\
    removeRoute (inl k) st = removeRoute (inr m) st.
Proof.
  intros Hwf G.
  destruct (matcherMap st !! k) as [m|] eqn:Hk.
  - pose proof (g_index c st G k m Hk) as Hin.
    assert (registered st m) as Hreg.
    { apply list_elem_of_fmap. eauto. }
    destruct (wf_index st Hwf k m Hk) as [Hname _].
    rewrite (removeName_as_matcher st k m Hk Hreg Hname).
    split.
    + apply removeRoute_matcher_genuine; try done.
      now apply (g_matchers c st G).
    + intros ? [= <-]. done.
  - split; [|done]. cbn [removeRoute]. rewrite removeName_unfold, Hk. exact G.
Qed.

Lemma fresh_genuine c st : genuine c st -> genuine c (snd (fresh st)).
Proof.
  intros [G1 G2 G3 G4 G5 G6]. constructor; cbn; try done.
  intros x Hx. specialize (G2 x Hx). lia.
Qed.

Lemma alias_records_genuine c main target aliases st :
  genuine c st -> genuine c (snd (alias_records main target aliases st)).
Proof.
  revert st. induction aliases as [|a rest IH]; intros st G; cbn; [done|].
  specialize (IH (snd (fresh st)) (fresh_genuine c st G)). cbn in IH.
  now destruct (alias_records main target rest _) as [rs st2].
Qed.

Lemma push_alias_genuine c o m st :
  genuine c st -> m ∈ c -> genuine c (push_alias o m st).
Proof.
  intros G Hm. destruct G as [G1 G2 G3 G4 G5 G6].
  constructor; cbn; try done.
  intros i l x Hl Hx. destruct (decide (i = mid o)) as [->|Hne].
  - rewrite lookup_insert_eq in Hl. injection Hl as <-.
    unfold JsArray.push in Hx. apply elem_of_app in Hx as [Hx|Hx].
    + apply (get_alias_genuine c st o x); [now constructor|exact Hx].
    + apply list_elem_of_singleton in Hx as ->. exact Hm.
  - rewrite lookup_insert_ne in Hl by done. eapply G5; eassumption.
Qed.

Lemma push_child_genuine c o m st :
  genuine c st -> m ∈ c -> genuine c (push_child o m st).
Proof.
  intros G Hm. destruct G as [G1 G2 G3 G4 G5 G6].
  constructor; cbn; try done.
  intros i l x Hl Hx. destruct (decide (i = mid o)) as [->|Hne].
  - rewrite lookup_insert_eq in Hl. injection Hl as <-.
    unfold JsArray.push in Hx. apply elem_of_app in Hx as [Hx|Hx].
    + apply (get_children_genuine c st o x); [now constructor|exact Hx].
    + apply list_elem_of_singleton in Hx as ->. exact Hm.
  - rewrite lookup_insert_ne in Hl by done. eapply G4; eassumption.
Qed.

Lemma genuine_more c m st :
  genuine c st -> (forall x, x ∈ c -> (mid x < mid m)%nat) ->
  (mid m < next_id st)%nat -> genuine (c ++ [m]) st.
Proof.
  intros [G1 G2 G3 G4 G5 G6] Hnew Hlt. constructor; try done.
  - rewrite fmap_app. apply NoDup_app. split; [done|].
    split; [|apply NoDup_singleton].
    intros i (x & -> & Hx)%list_elem_of_fmap Hi. cbn in Hi.
    apply list_elem_of_singleton in Hi. specialize (Hnew x Hx). lia.
  - intros x [Hx| ->%list_elem_of_singleton]%elem_of_app; auto.
  - intros x Hx. apply elem_of_app. left. auto.
  - intros i l x Hl Hx. apply elem_of_app. left. eauto.
  - intros i l x Hl Hx. apply elem_of_app. left. eauto.
Qed.

(** The new matcher joins the list. *)
Lemma create_genuine c r parent options st :
  genuine c st ->
  genuine (c ++ [fst (createRouteRecordMatcher E r parent options st)])
          (snd (createRouteRecordMatcher E r parent options st)).
Proof.
  intros G. unfold createRouteRecordMatcher. cbn [fresh].
  set (m := {| mid := next_id st; parser := _; record := r; parent := parent |}).
  assert (genuine (c ++ [m]) (snd (fresh st))) as G1.
  { apply genuine_more; [now apply fresh_genuine| |cbn; lia].
    intros x Hx. apply (g_bound c st G x Hx). }
  destruct parent as [p|]; cbn [fst snd]; [|exact G1].
  apply push_child_genuine; [exact G1|]. apply elem_of_app. right.
  now apply list_elem_of_singleton.
Qed.

Lemma insertMatcher_genuine c m st :
  genuine c st -> m ∈ c -> genuine c (insertMatcher E m st).
Proof.
  intros [G1 G2 G3 G4 G5 G6] Hm. constructor; cbn; try done.
  - intros x [->|Hx]%splice_insert_elem; auto.
  - intros k x Hk. apply splice_insert_elem.
    destruct (truthy_name (name (record m))) as [n|]; [|right; eauto].
    destruct (isAliasRecord m); [right; eauto|].
    destruct (decide (k = n)) as [->|Hne].
    + rewrite lookup_insert_eq in Hk. left. congruence.
    + rewrite lookup_insert_ne in Hk by done. right. eauto.
Qed.

End GenuineReferences.

(** ** [addRoute] only hands out and stores genuine references *)
Section GenuineAdditions.
Import Matcher.
Context (E : Env).

(** A state transformer under which the list of created matchers only
    grows. *)
Definition keeps_genuine (f : state -> state) : Prop :=
  forall c st, registry_wf st -> genuine c st ->
    exists c', genuine c' (f st) /\ (forall x, x ∈ c -> x ∈ c').

Lemma addRoute_step_genuine record parent isRootAdd options loopf v nr c :
  (forall matcher orig, sound registry_wf (loopf matcher orig)) ->
  (forall matcher orig, keeps_genuine (loopf matcher orig)) ->
  registry_wf (loop_state v) -> genuine c (loop_state v) ->
  (forall x, originalMatcher v = Some x -> x ∈ c) ->
  exists c',
    genuine c'
      (loop_state
         (addRoute_step E record parent isRootAdd options loopf v nr)) /\
    (forall x, x ∈ c -> x ∈ c') /\
    (forall x,
       originalMatcher
         (addRoute_step E record parent isRootAdd options loopf v nr) = Some x ->
       x ∈ c').
Proof.
  intros Hsound Hloop Hwf G Hom. unfold addRoute_step.
  set (nr' := match parent with Some _ => _ | None => _ end).
  pose proof (createRouteRecordMatcher_spec E registry_wf fresh_wf
                push_child_wf nr' parent options (loop_state v) Hwf) as Hc.
  pose proof (create_genuine E c nr' parent options (loop_state v) G) as G1.
  cbn zeta in Hc.
  destruct (createRouteRecordMatcher E nr' parent options (loop_state v))
    as [matcher st1]. cbn [fst snd] in Hc, G1.
  destruct Hc as (_ & Hwf1 & _).
  assert (matcher ∈ c ++ [matcher]) as Hnew.
  { apply elem_of_app. right. now apply list_elem_of_singleton. }
  set (pair := match originalRecord v with Some _ => _ | None => _ end).
  assert (registry_wf (snd pair) /\ genuine (c ++ [matcher]) (snd pair) /\
          forall x, fst pair = Some x -> x ∈ c ++ [matcher])
    as (Hwf2 & G2 & Hom2).
  { unfold pair. destruct (originalRecord v) as [o|]; cbn [fst snd].
    - split; [now apply push_alias_wf|].
      split; [now apply push_alias_genuine|].
      intros x Hx. apply elem_of_app. left. auto.
    - set (st_a := if negb _ then _ else st1).
      assert (registry_wf st_a /\ genuine (c ++ [matcher]) st_a) as (Hwfa & Ga).
      { unfold st_a.
        destruct (negb (_ =? _)%nat); [|split; assumption].
        split; [now apply push_alias_wf|now apply push_alias_genuine]. }
      split; [|split].
      + destruct (truthy_name (raw_name record)) as [n|]; [|done].
        destruct (isRootAdd && negb (isAliasRecord matcher)); [|done].
        eapply shrinks_wf; [apply removeRoute_shrinks|exact Hwfa].
      + destruct (truthy_name (raw_name record)) as [n|]; [|done].
        destruct (isRootAdd && negb (isAliasRecord matcher)); [|done].
        now apply removeRoute_name_genuine.
      + intros x [= <-]. destruct (originalMatcher v) as [om|]; cbn.
        * apply elem_of_app. left. auto.
        * exact Hnew. }
  destruct pair as [om st2]. cbn [fst snd] in *.
  destruct (Hloop matcher (originalRecord v) _ st2 Hwf2 G2) as (c' & G3 & Hsub).
  exists c'. cbn [loop_state originalMatcher]. split; [|split].
  - apply insertMatcher_genuine; [exact G3|]. now apply Hsub.
  - intros x Hx. apply Hsub, elem_of_app. now left.
  - intros x Hx. apply Hsub. now apply Hom2.
Qed.

Lemma addRoute_loop_genuine record parent isRootAdd options loopf nrs :
  (forall matcher orig, sound registry_wf (loopf matcher orig)) ->
  (forall matcher orig, keeps_genuine (loopf matcher orig)) ->
  forall v c,
    registry_wf (loop_state v) -> genuine c (loop_state v) ->
    (forall x, originalMatcher v = Some x -> x ∈ c) ->
    exists c',
      genuine c'
        (loop_state
           (foldl (addRoute_step E record parent isRootAdd options loopf)
                  v nrs)) /\
      (forall x, x ∈ c -> x ∈ c') /\
      (forall x,
         originalMatcher
           (foldl (addRoute_step E record parent isRootAdd options loopf)
                  v nrs) = Some x ->
         x ∈ c').
Proof.
  intros Hsound Hloop. induction nrs as [|nr nrs IH]; intros v c Hwf G Hom;
    cbn [foldl].
  - exists c. auto.
  - destruct (addRoute_step_genuine record parent isRootAdd options loopf v nr
                c Hsound Hloop Hwf G Hom) as (c1 & G1 & Hsub1 & Hom1).
    destruct (addRoute_step_sound E registry_wf shrinks_wf fresh_wf
                push_child_wf push_alias_wf (insertMatcher_wf E) wf_log_bound
                record parent isRootAdd options loopf v nr Hsound Hwf)
      as (Hwf1 & _).
    destruct (IH _ c1 Hwf1 G1 Hom1) as (c2 & G2 & Hsub2 & Hom2).
    exists c2. split; [exact G2|]. split; [auto|exact Hom2].
Qed.

Lemma add_children_genuine cs :
  Forall (fun c => forall parent orig,
            keeps_genuine (fun st => snd (addRoute E c parent orig st))) cs ->
  forall matcher orig i,
    keeps_genuine (add_children (addRoute E) matcher orig cs i).
Proof.
  induction 1 as [|child cs Hchild _ IH]; intros matcher orig i c st Hwf G;
    cbn.
  - exists c. auto.
  - destruct (Hchild (Some matcher) (original_child orig i st) c st Hwf G)
      as (c1 & G1 & Hsub1).
    destruct (addRoute_wf E child (Some matcher) (original_child orig i st)
                st Hwf) as (Hwf1 & _).
    destruct (IH matcher orig (S i) c1 _ Hwf1 G1) as (c2 & G2 & Hsub2).
    exists c2. split; [exact G2|auto].
Qed.

(** [addRoute] keeps the references genuine, and so is the matcher that
    the function it returns removes. *)
Lemma addRoute_genuine record :
  forall parent original c st,
    registry_wf st -> genuine c st ->
    exists c',
      genuine c' (snd (addRoute E record parent original st)) /\
      (forall x, x ∈ c -> x ∈ c') /\
      (forall m, fst (addRoute E record parent original st) = Some m ->
                 m ∈ c').
Proof.
  induction record as [p n a r m o cs IH] using RouteRecordRaw_nested_ind.
  intros parent original c st Hwf G. cbn [addRoute].
  unfold normalizeRouteRecord. cbn [fresh].
  set (main := set_aliasOf _ _).
  set (target := match original with Some _ => _ | None => _ end).
  pose proof (alias_records_sound registry_wf fresh_wf main target
                (aliases_of (mkRaw p n a r m o cs)) _ (fresh_wf st Hwf))
    as (Hwf1 & _).
  pose proof (alias_records_genuine c main target
                (aliases_of (mkRaw p n a r m o cs)) _ (fresh_genuine c st G))
    as G1.
  cbn [fresh snd] in Hwf1, G1.
  destruct (alias_records main target _ _) as [copies st1].
  cbn [snd] in *.
  set (loopf := fun matcher orig st => match cs with Some _ => _ | None => _ end).
  assert (forall matcher orig, sound registry_wf (loopf matcher orig))
    as Hsound.
  { intros matcher orig s Hs. unfold loopf.
    now apply (children_loop_sound E). }
  assert (forall matcher orig, keeps_genuine (loopf matcher orig)) as Hloop.
  { intros matcher orig. unfold loopf. destruct cs as [l|].
    - apply add_children_genuine. cbn in IH.
      eapply Forall_impl; [exact IH|]. intros child Hchild parent' orig' c0 s Hs Gs.
      destruct (Hchild parent' orig' c0 s Hs Gs) as (c' & G' & Hsub & _).
      eauto.
    - intros c0 s _ Gs. exists c0. auto. }
  match goal with
  | |- context [foldl ?f ?v ?l] =>
      destruct (addRoute_loop_genuine (mkRaw p n a r m o cs) parent
                  (match original with Some _ => false | None => true end)
                  (mergeOptions (globalOptions E) o) loopf l Hsound Hloop
                  v c Hwf1 G1)
        as (c' & G' & Hsub & Hom); [done|]
  end.
  exists c'. cbn [fst snd]. auto.
Qed.

End GenuineAdditions.

(** ** The route table is coherent *)
Section RouteTableCoherence.
Import Matcher.
Context (E : Env) {build : RouterRoutes.Build}.

(** What holds of the registry and of the functions the client was
    handed, whatever it called. *)
Definition client_ok (cl : RouterRoutes.client) : Prop :=
  registry_wf (RouterRoutes.registry cl) /\
  exists c,
    genuine c (RouterRoutes.registry cl) /\
    forall m, Some m ∈ RouterRoutes.removers cl -> m ∈ c.

Lemma exec_ok cl call :
  client_ok cl -> client_ok (RouterRoutes.exec E cl call).
Proof.
  intros (Hwf & c & G & Hrem).
  destruct call as [parentOrRoute route|n|i]; cbn [RouterRoutes.exec].
  - assert (forall record parent,
               client_ok
                 {| RouterRoutes.registry :=
                      snd (addRoute E record parent None
                             (RouterRoutes.registry cl));
                    RouterRoutes.removers :=
                      JsArray.push (RouterRoutes.removers cl)
                        (fst (addRoute E record parent None
                                (RouterRoutes.registry cl))) |}) as Hadd.
    { intros record parent.
      destruct (addRoute_wf E record parent None _ Hwf) as (Hwf' & _).
      destruct (addRoute_genuine E record parent None c _ Hwf G)
        as (c' & G' & Hsub & Hres).
      split; [exact Hwf'|]. exists c'. split; [exact G'|]. cbn.
      unfold JsArray.push.
      intros m [Hm|Hm%list_elem_of_singleton]%elem_of_app; auto. }
    unfold RouterRoutes.addRoute.
    destruct parentOrRoute as [parentName|record].
    + destruct route as [record|]; [|now split; [|exists c]].
      specialize (Hadd record
                    (getRecordMatcher (RouterRoutes.registry cl) parentName)).
      now destruct (addRoute E record _ None _).
    + specialize (Hadd record None). now destruct (addRoute E record _ None _).
  - unfold RouterRoutes.removeRoute, getRecordMatcher.
    destruct (matcherMap (RouterRoutes.registry cl) !! n) as [m|] eqn:Hm;
      cbn [fst]; [|now split; [|exists c]].
    split; [eapply shrinks_wf; [apply removeRoute_shrinks|exact Hwf]|].
    exists c. split; [|exact Hrem].
    apply removeRoute_matcher_genuine; try done.
    apply (g_matchers c _ G), (g_index c _ G n m Hm).
  - destruct (RouterRoutes.removers cl !! i) as [[m|]|] eqn:Hi;
      [|now split; [|exists c]..].
    cbn [RouterRoutes.remover RouterRoutes.registry RouterRoutes.removers].
    split; [eapply shrinks_wf; [apply removeRoute_shrinks|exact Hwf]|].
    exists c. split; [|exact Hrem].
    apply removeRoute_matcher_genuine; try done.
    apply Hrem. eapply list_elem_of_lookup_2. exact Hi.
Qed.

Lemma run_ok cs : client_ok (RouterRoutes.run E cs).
Proof.
  unfold RouterRoutes.run. induction cs as [|call cs IH] using rev_ind.
  - split; [apply empty_wf|]. exists []. split.
    + constructor; cbn.
      * constructor.
      * intros x H. inv H.
      * intros x H. inv H.
      * intros i l x H. now rewrite lookup_empty in H.
      * intros i l x H. now rewrite lookup_empty in H.
      * intros k m H. now rewrite lookup_empty in H.
    + intros m H. inv H.
  - rewrite foldl_app. cbn [foldl]. now apply exec_ok.
Qed.

(** Whatever the client did with [addRoute], [removeRoute] and the
    functions [addRoute] returned to it, a name that [hasRoute] reports
    stands for a canonical matcher of that name which is one of
    [getRoutes()]; so [matchers.indexOf] finds it, the name branch of the
    matcher's [removeRoute] never splices at [-1], and it does what the
    matcher branch does.  [router.removeRoute] of that name does not
    warn, takes the matcher out of the sequence and leaves [hasRoute]
    false; of a name that [hasRoute] does not report, it changes
    nothing, and it warns in a development build only. *)
Theorem hasRoute_names_a_listed_route
    (cs : list RouterRoutes.call) (k : RouteRecordName) :
  let st := RouterRoutes.registry (RouterRoutes.run E cs) in
  match getRecordMatcher st k with
  | Some m =>
      RouterRoutes.hasRoute st k = true /\
      m ∈ getRoutes st /\
      record m ∈ RouterRoutes.getRoutes st /\
      truthy_name (name (record m)) = Some k /\
      isAliasRecord m = false /\
      (exists index, indexOf (matchers st) m = Some index /\
                     matchers st !! index = Some m) /\
      removeRoute (inl k) st = removeRoute (inr m) st /\
      snd (RouterRoutes.removeRoute k st) = false /\
      RouterRoutes.hasRoute (fst (RouterRoutes.removeRoute k st)) k = false /\
      m ∉ getRoutes (fst (RouterRoutes.removeRoute k st))
  | None =>
      RouterRoutes.hasRoute st k = false /\
      RouterRoutes.removeRoute k st = (st, RouterRoutes.DEV)
  end.
Proof.
  intros st. destruct (run_ok cs) as (Hwf & c & G & _). fold st in Hwf, G.
  unfold RouterRoutes.hasRoute, RouterRoutes.removeRoute,
    RouterRoutes.getRoutes, getRoutes.
  destruct (getRecordMatcher st k) as [m|] eqn:Hk; [|done].
  unfold getRecordMatcher in Hk.
  pose proof (g_index c st G k m Hk) as Hin.
  destruct (wf_index st Hwf k m Hk) as [Hname Hcanon].
  assert (registered st m) as Hreg by (apply list_elem_of_fmap; eauto).
  destruct (registered_indexOf st m Hreg) as (i & Hi).
  cbn [fst snd removeRoute].
  split; [done|]. split; [exact Hin|].
  split; [apply list_elem_of_fmap; eauto|].
  split; [exact Hname|]. split; [exact Hcanon|].
  split.
  { exists i. split; [exact Hi|].
    apply (indexOf_genuine c st m i G); [|exact Hi].
    now apply (g_matchers c st G). }
  split; [now apply removeName_as_matcher|]. split; [done|].
  split.
  - unfold getRecordMatcher. now rewrite (removeMatcher_unmaps st m k Hreg Hname).
  - intros Hstill.
    apply (removeMatcher_cascades st m m (wf_nodup st Hwf)).
    + now apply chain_here.
    + apply list_elem_of_fmap. eauto.
Qed.

End RouteTableCoherence.

(** ** The checks on param keys *)
Section ParamChecks.
Import Matcher MatcherChecks.

Lemma isSameParam_eq (a b : ParamKey) : isSameParam a b = true <-> a = b.
Proof.
  unfold isSameParam. destruct a as [n1 o1 r1], b as [n2 o2 r2]. cbn. split.
  - intros [[Hn Ho]%andb_prop Hr]%andb_prop.
    apply String.eqb_eq in Hn. apply Bool.eqb_prop in Ho, Hr. congruence.
  - intros [= -> -> ->]. now rewrite String.eqb_refl, !Bool.eqb_reflx.
Qed.

Lemma find_isSameParam (key : ParamKey) (others : list ParamKey) :
  List.find (isSameParam key) others = None <-> key ∉ others.
Proof.
  induction others as [|x l IH]; cbn.
  - split; [intros _; apply not_elem_of_nil|done].
  - rewrite not_elem_of_cons. destruct (isSameParam key x) eqn:Hs.
    + apply isSameParam_eq in Hs. split; [done|]. intros [H _]. done.
    + rewrite IH. split; [|tauto]. intros H. split; [|done].
      intros ->. assert (isSameParam x x = true) by now apply isSameParam_eq.
      congruence.
Qed.

Lemma first_missing_None (ks others : list ParamKey) :
  first_missing ks others = None <-> forall key, key ∈ ks -> key ∈ others.
Proof.
  unfold first_missing. induction ks as [|x l IH]; cbn.
  - split; [|done]. intros _ key H. now apply elem_of_nil in H.
  - destruct (List.find (isSameParam x) others) as [y|] eqn:Hf.
    + rewrite IH. split.
      * intros H key [->|Hin]%elem_of_cons; [|now apply H].
        apply List.find_some in Hf as [Hin Hs].
        apply isSameParam_eq in Hs as ->. now apply list_elem_of_In.
      * intros H key Hin. apply H. now right.
    + split; [done|]. intros H. apply find_isSameParam in Hf.
      exfalso. apply Hf, H. now left.
Qed.

Lemma first_missing_Some (ks others : list ParamKey) (key : ParamKey) :
  first_missing ks others = Some key -> key ∈ ks /\ key ∉ others.
Proof.
  unfold first_missing. intros H. apply List.find_some in H as [Hin Hf].
  split; [now apply list_elem_of_In|].
  apply find_isSameParam. now destruct (List.find (isSameParam key) others).
Qed.

(** [checkSameParams] keeps silent exactly when the two matchers have
    the same params (name, optional, repeatable), whatever their order
    and however often one is listed; so whether it warns does not depend
    on which of the two is the original.  When it warns, the param it
    names belongs to one of the two matchers only.  What
    [checkMissingParamsInAbsolutePath] asks for is one half of this:
    it keeps silent exactly when the record has every param of the
    parent. *)
Theorem checkSameParams_compares_param_sets (a b : RouteRecordMatcher) :
  (checkSameParams a b = None <->
   forall key, key ∈ keys (parser a) <-> key ∈ keys (parser b)) /\
  (checkSameParams a b = None <-> checkSameParams b a = None) /\
  (forall w, checkSameParams a b = Some w ->
     w_path w = path (record b) /\ w_other_path w = path (record a) /\
     exists key, k_name key = w_param w /\
       (key ∈ keys (parser a) /\ key ∉ keys (parser b) \/
        key ∈ keys (parser b) /\ key ∉ keys (parser a))) /\
  (checkMissingParamsInAbsolutePath a b = None <->
   forall key, key ∈ keys (parser b) -> key ∈ keys (parser a)).
Proof.
  assert (forall x y : RouteRecordMatcher,
             checkSameParams x y = None <->
             forall key, key ∈ keys (parser x) <-> key ∈ keys (parser y))
    as Hsilent.
  { intros x y. unfold checkSameParams.
    destruct (first_missing (keys (parser x)) (keys (parser y))) as [k1|] eqn:H1.
    - split; [done|]. intros H.
      apply first_missing_Some in H1 as [Hin Hout]. now apply H in Hin.
    - destruct (first_missing (keys (parser y)) (keys (parser x)))
        as [k2|] eqn:H2.
      + split; [done|]. intros H.
        apply first_missing_Some in H2 as [Hin Hout]. now apply H in Hin.
      + split; [|done]. intros _ key.
        split; [apply first_missing_None, H1|apply first_missing_None, H2]. }
  split; [apply Hsilent|]. split; [|split].
  - rewrite !Hsilent. split; intros H key; now rewrite H.
  - intros w. unfold checkSameParams.
    destruct (first_missing (keys (parser a)) (keys (parser b))) as [k1|] eqn:H1.
    + intros [= <-]. cbn. repeat split. exists k1. split; [done|].
      left. now apply first_missing_Some.
    + destruct (first_missing (keys (parser b)) (keys (parser a)))
        as [k2|] eqn:H2; [|done].
      intros [= <-]. cbn. repeat split. exists k2. split; [done|].
      right. now apply first_missing_Some.
  - unfold checkMissingParamsInAbsolutePath.
    destruct (first_missing (keys (parser b)) (keys (parser a))) as [k1|] eqn:H1.
    + split; [done|]. intros H.
      apply first_missing_Some in H1 as [Hin Hout]. now apply H in Hin.
    + split; [|done]. intros _. now apply first_missing_None.
Qed.

End ParamChecks.
